(** * Trace checker of the grid agent (Assignment1/checker.py)

    The checker builds, for a recorded run of the agent, a set of Z3
    constraints and asks the solver whether it is satisfiable.  The
    development below embeds the constraint builders of [checker.py] and
    proves what their constraint sets say.

    Z3 expressions are embedded shallowly: an expression is the function that
    gives its value in a model.  The Python layer (list subscripts, loops,
    the exception raised by a subscript out of range) is embedded in a small
    error monad. *)

From Stdlib Require Import List ZArith Lia Bool Arith.
Import ListNotations.

(* ------------------------------------------------------------------------- *)
(** ** The fragment of z3py used by the checker *)

Module Z3.

Inductive axis : Type := row | column.

Inductive Direction : Type := north | east | south | west.

(** Names of the integer constants the checker declares:
    [Int("a_{axis}{t}")], [Int("t_{target}{axis}{t}")] and
    [Int("d_{target}{axis}{t}")].  The format strings are injective on
    (target, axis, t) for target in 0..2, so a name is kept as its
    components. *)
Inductive IntName : Type :=
| a_ (ax : axis) (t : nat)
| t_ (target : nat) (ax : axis) (t : nat)
| d_ (target : nat) (ax : axis) (t : nat).

(** [Bool("north_{t}")], [Bool("east_{t}")], ... *)
Inductive BoolName : Type :=
| dir_ (d : Direction) (t : nat).

(** A model gives every constant a value. *)
Record Model : Type := {
  int_value : IntName -> Z;
  bool_value : BoolName -> bool
}.

Definition ArithRef : Type := Model -> Z.
Definition BoolRef : Type := Model -> bool.

Definition IntVar (x : IntName) : ArithRef := fun m => int_value m x.
Definition BoolVar (x : BoolName) : BoolRef := fun m => bool_value m x.
Definition IntVal (z : Z) : ArithRef := fun _ => z.
Definition BoolVal (b : bool) : BoolRef := fun _ => b.

Definition Plus (x y : ArithRef) : ArithRef := fun m => (x m + y m)%Z.
Definition Minus (x y : ArithRef) : ArithRef := fun m => (x m - y m)%Z.
Definition Lt (x y : ArithRef) : BoolRef := fun m => (x m <? y m)%Z.
Definition Le (x y : ArithRef) : BoolRef := fun m => (x m <=? y m)%Z.
Definition Ge (x y : ArithRef) : BoolRef := fun m => (x m >=? y m)%Z.
Definition Eq (x y : ArithRef) : BoolRef := fun m => (x m =? y m)%Z.
Definition Ne (x y : ArithRef) : BoolRef := fun m => negb (x m =? y m)%Z.
Definition BEq (x y : BoolRef) : BoolRef := fun m => eqb (x m) (y m).

Definition And (l : list BoolRef) : BoolRef :=
  fun m => forallb (fun c => c m) l.
Definition Or (l : list BoolRef) : BoolRef :=
  fun m => existsb (fun c => c m) l.
Definition Not (c : BoolRef) : BoolRef := fun m => negb (c m).
Definition If {A : Type} (c : BoolRef) (x y : Model -> A) : Model -> A :=
  fun m => if c m then x m else y m.

(** [Solver.check()].  The constraints of the checker are quantifier-free
    linear integer arithmetic, which Z3 decides: the answer is [sat] when
    the assertions have a model and [unsat] when they have none.  The
    third answer, [unknown], is given on a resource limit only and is
    never derived here. *)
Inductive CheckSatResult : Type := sat | unsat | unknown.

Definition models (m : Model) (assertions : list BoolRef) : bool :=
  forallb (fun c => c m) assertions.

Definition satisfiable (assertions : list BoolRef) : Prop :=
  exists m, models m assertions = true.

Inductive check (assertions : list BoolRef) : CheckSatResult -> Prop :=
| check_sat : satisfiable assertions -> check assertions sat
| check_unsat : ~ satisfiable assertions -> check assertions unsat.

End Z3.

Import Z3.

(* ------------------------------------------------------------------------- *)
(** ** The Python layer *)

Inductive exception : Type := IndexError.

Inductive result (A : Type) : Type :=
| Ok (a : A)
| Raise (e : exception).

Arguments Ok {A} a.
Arguments Raise {A} e.

Definition bind {A B : Type} (r : result A) (k : A -> result B) : result B :=
  match r with
  | Ok a => k a
  | Raise e => Raise e
  end.

Notation "x <- r ;; k" := (bind r (fun x => k))
  (at level 61, r at next level, right associativity).

(** [l[i]] for a non-negative [i]. *)
Definition subscript {A : Type} (l : list A) (i : nat) : result A :=
  match nth_error l i with
  | Some a => Ok a
  | None => Raise IndexError
  end.

(** [range(n)] and [range(a, b)]. *)
Definition range (n : nat) : list nat := seq 0 n.
Definition range_from (a b : nat) : list nat := seq a (b - a).

(** [for x in xs: s = body(x, s)], stopping at the first exception. *)
Fixpoint for_each {A S : Type} (xs : list A) (body : A -> S -> result S)
    (s : S) : result S :=
  match xs with
  | [] => Ok s
  | x :: xs' => s' <- body x s ;; for_each xs' body s'
  end.

(* ------------------------------------------------------------------------- *)
(** ** init_environment *)

(** What [init_environment] returns: the solver (its assertions, in the
    order they were added) and the four dictionaries of constants. *)
Record Environment : Type := {
  solver : list BoolRef;
  agent_position : axis -> list ArithRef;
  target_positions : nat -> axis -> list ArithRef;
  targets_distance : nat -> axis -> list ArithRef;
  agent_direction : Direction -> list BoolRef
}.

Section WorldModel.

Variable timesteps : nat.
Variable grid_size : Z.

(** Every subscript [init_environment] takes of its own lists is below
    [timesteps], so a subscript is written as the constant it denotes:
    [AP ax t] is [agent_position[ax][t]], [TP i ax t] is
    [target_positions[i][ax][t]], and so on (see [subscript_agent_position]
    and its siblings). *)
Definition AP (ax : axis) (t : nat) : ArithRef := IntVar (a_ ax t).
Definition TP (i : nat) (ax : axis) (t : nat) : ArithRef := IntVar (t_ i ax t).
Definition TD (i : nat) (ax : axis) (t : nat) : ArithRef := IntVar (d_ i ax t).
Definition AD (d : Direction) (t : nat) : BoolRef := BoolVar (dir_ d t).

(** Agent and targets are within the grid at each timestep. *)
Definition grid_constraints : list BoolRef :=
  flat_map (fun t =>
    flat_map (fun ax =>
      flat_map (fun i =>
        [ Lt (TP i ax t) (IntVal grid_size);
          Ge (TP i ax t) (IntVal 0) ]) (range 3)
      ++ [ Lt (AP ax t) (IntVal grid_size);
           Ge (AP ax t) (IntVal 0) ])
    [row; column])
  (range timesteps).

(** The constraint on a target the agent stood on at [t - 1]. *)
Definition pickup_constraint (t i : nat) : BoolRef :=
  If (And [ Eq (TP i row (t - 1)) (AP row (t - 1));
            Eq (TP i column (t - 1)) (AP column (t - 1)) ])
     (Not (And [ Ne (TP i row t) (TP i row (t - 1));
                 Ne (TP i column t) (TP i column (t - 1)) ]))
     (BoolVal true).

Definition pickup_constraints : list BoolRef :=
  flat_map (fun t => map (pickup_constraint t) (range 3))
           (range_from 1 timesteps).

(** All targets are in different locations at each timestep. *)
Definition distinct_constraint (t i j : nat) : BoolRef :=
  Not (And [ Eq (TP i row t) (TP j row t);
             Eq (TP i column t) (TP j column t) ]).

Definition distinct_constraints : list BoolRef :=
  flat_map (fun t =>
    flat_map (fun i => map (distinct_constraint t i) (range i)) (range 3))
  (range timesteps).

(** The distance constants are target minus agent. *)
Definition distance_constraints : list BoolRef :=
  flat_map (fun t =>
    flat_map (fun ax =>
      map (fun i => Eq (TD i ax t) (Minus (TP i ax t) (AP ax t))) (range 3))
    [row; column])
  (range timesteps).

(** The two movement equations.  Their innermost else-branch is the Python
    value [False] next to an integer branch: z3py casts it to the integer
    sort as [If(False, 1, 0)], that is 0. *)
Definition row_move_constraint (t : nat) : BoolRef :=
  Eq (AP row t)
     (Plus (AP row (t - 1))
           (If (AD north (t - 1)) (IntVal (-1))
               (If (AD south (t - 1)) (IntVal 1) (IntVal 0)))).

Definition column_move_constraint (t : nat) : BoolRef :=
  Eq (AP column t)
     (Plus (AP column (t - 1))
           (If (AD east (t - 1)) (IntVal 1)
               (If (AD west (t - 1)) (IntVal (-1)) (IntVal 0)))).

Definition move_constraints : list BoolRef :=
  flat_map (fun t => [ row_move_constraint t; column_move_constraint t ])
           (range_from 1 timesteps).

Definition init_environment : Environment :=
  {| solver := grid_constraints ++ pickup_constraints
               ++ distinct_constraints ++ distance_constraints
               ++ move_constraints;
     agent_position := fun ax => map (AP ax) (range timesteps);
     target_positions := fun i ax => map (TP i ax) (range timesteps);
     targets_distance := fun i ax => map (TD i ax) (range timesteps);
     agent_direction := fun d => map (AD d) (range timesteps) |}.

End WorldModel.

(* ------------------------------------------------------------------------- *)
(** ** The recorded run and its binding *)

(** A position is the two-element list [[row, column]]. *)
Definition position : Type := (Z * Z)%type.

Section Checks.

Variable agent_position_list : list position.
Variable target_position_list : list (list position).
Variable action_list : list Z.
Variable grid_size : Z.

(** [solver.add(c)] *)
Definition add (c : BoolRef) (s : list BoolRef) : list BoolRef := s ++ [c].

(** The body of the loop "Add the run's data as constraints to the
    solver", which the four checks share word for word. *)
Definition bind_timestep (env : Environment) (t : nat) (s : list BoolRef)
    : result (list BoolRef) :=
  ar <- subscript (agent_position env row) t ;;
  p <- subscript agent_position_list t ;;
  let s := add (Eq ar (IntVal (fst p))) s in
  ac <- subscript (agent_position env column) t ;;
  p <- subscript agent_position_list t ;;
  let s := add (Eq ac (IntVal (snd p))) s in
  s <- for_each (range 3) (fun i s =>
         tr <- subscript (target_positions env i row) t ;;
         targets <- subscript target_position_list t ;;
         q <- subscript targets i ;;
         let s := add (Eq tr (IntVal (fst q))) s in
         tc <- subscript (target_positions env i column) t ;;
         targets <- subscript target_position_list t ;;
         q <- subscript targets i ;;
         Ok (add (Eq tc (IntVal (snd q))) s)) s ;;
  dn <- subscript (agent_direction env north) t ;;
  a <- subscript action_list t ;;
  let s := add (BEq dn (BoolVal (a =? 0)%Z)) s in
  de <- subscript (agent_direction env east) t ;;
  a <- subscript action_list t ;;
  let s := add (BEq de (BoolVal (a =? 1)%Z)) s in
  ds <- subscript (agent_direction env south) t ;;
  a <- subscript action_list t ;;
  let s := add (BEq ds (BoolVal (a =? 2)%Z)) s in
  dw <- subscript (agent_direction env west) t ;;
  a <- subscript action_list t ;;
  Ok (add (BEq dw (BoolVal (a =? 3)%Z)) s).

Definition bind_run (env : Environment) : result (list BoolRef) :=
  for_each (range (length agent_position_list)) (bind_timestep env)
           (solver env).

(** *** check_run: the solver on which [check()] is called *)
Definition check_run : result (list BoolRef) :=
  let env := init_environment (length action_list) grid_size in
  bind_run env.

(** *** find_loop *)

(** The constraint of one pass.  The source takes the subscripts
    [agent_position["row"][t + 1]] and [agent_position["column"][t + 1]]
    once in each of the three [Or]s; they are taken once here. *)
Definition loop_constraint (env : Environment) (t : nat) : result BoolRef :=
  ar <- subscript (agent_position env row) (t + 1) ;;
  ac <- subscript (agent_position env column) (t + 1) ;;
  t0r <- subscript (target_positions env 0 row) t ;;
  t0c <- subscript (target_positions env 0 column) t ;;
  t1r <- subscript (target_positions env 1 row) t ;;
  t1c <- subscript (target_positions env 1 column) t ;;
  t2r <- subscript (target_positions env 2 row) t ;;
  t2c <- subscript (target_positions env 2 column) t ;;
  n0 <- subscript (agent_direction env north) t ;;
  s1 <- subscript (agent_direction env south) (t + 1) ;;
  s0 <- subscript (agent_direction env south) t ;;
  n1 <- subscript (agent_direction env north) (t + 1) ;;
  w0 <- subscript (agent_direction env west) t ;;
  e1 <- subscript (agent_direction env east) (t + 1) ;;
  e0 <- subscript (agent_direction env east) t ;;
  w1 <- subscript (agent_direction env west) (t + 1) ;;
  Ok (Not (And [ Or [ Ne ar t0r; Ne ac t0c ];
                 Or [ Ne ar t1r; Ne ac t1c ];
                 Or [ Ne ar t2r; Ne ac t2c ];
                 Or [ And [ n0; s1 ];
                      And [ s0; n1 ];
                      And [ w0; e1 ];
                      And [ e0; w1 ] ] ])).

Definition find_loop : result (list BoolRef) :=
  let env := init_environment (length action_list) grid_size in
  s <- bind_run env ;;
  for_each (range (length action_list - 1))
           (fun t s => c <- loop_constraint env t ;; Ok (add c s)) s.

(** *** The scan for changed targets *)

(** [target_position_list[t][i][0] != target_position_list[t + 1][i][0]
    or target_position_list[t][i][1] != target_position_list[t + 1][i][1]] *)
Definition target_changed (t i : nat) : result bool :=
  g <- subscript target_position_list t ;;
  p <- subscript g i ;;
  g' <- subscript target_position_list (t + 1) ;;
  p' <- subscript g' i ;;
  Ok (negb (fst p =? fst p')%Z || negb (snd p =? snd p')%Z).

(** [chosen_targets] of [find_efficient_path]: pairs (target, arrival
    time). *)
Definition find_chosen_targets : result (list (nat * nat)) :=
  for_each (range (length action_list - 1)) (fun t chosen =>
    for_each (range 3) (fun i chosen =>
      c <- target_changed t i ;;
      Ok (if c then chosen ++ [(i, t + 1)] else chosen)) chosen) [].

(** *** find_efficient_path *)
Definition efficiency_constraints (env : Environment)
    (current_target t : nat) (s : list BoolRef) : result (list BoolRef) :=
  tr <- subscript (target_positions env current_target row) t ;;
  ar <- subscript (agent_position env row) t ;;
  ds <- subscript (agent_direction env south) t ;;
  let s := add (If (Le tr ar) (Not ds) (BoolVal true)) s in
  tr <- subscript (target_positions env current_target row) t ;;
  ar <- subscript (agent_position env row) t ;;
  dn <- subscript (agent_direction env north) t ;;
  let s := add (If (Ge tr ar) (Not dn) (BoolVal true)) s in
  tc <- subscript (target_positions env current_target column) t ;;
  ac <- subscript (agent_position env column) t ;;
  de <- subscript (agent_direction env east) t ;;
  let s := add (If (Le tc ac) (Not de) (BoolVal true)) s in
  tc <- subscript (target_positions env current_target column) t ;;
  ac <- subscript (agent_position env column) t ;;
  dw <- subscript (agent_direction env west) t ;;
  Ok (add (If (Ge tc ac) (Not dw) (BoolVal true)) s).

(** The loop [for t in range(len(action_list))] with its [break]; the
    state is [current_target_it], [current_target], [arr_time] and the
    solver. *)
Fixpoint efficiency_loop (env : Environment)
    (chosen_targets : list (nat * nat)) (ts : list nat)
    (current_target_it current_target arr_time : nat) (s : list BoolRef)
    : result (list BoolRef) :=
  match ts with
  | [] => Ok s
  | t :: ts' =>
      if t =? arr_time then
        let current_target_it := current_target_it + 1 in
        if current_target_it =? length chosen_targets then Ok s
        else
          next <- subscript chosen_targets current_target_it ;;
          let current_target := fst next in
          let arr_time := snd next in
          s <- efficiency_constraints env current_target t s ;;
          efficiency_loop env chosen_targets ts'
                          current_target_it current_target arr_time s
      else
        s <- efficiency_constraints env current_target t s ;;
        efficiency_loop env chosen_targets ts'
                        current_target_it current_target arr_time s
  end.

Definition find_efficient_path : result (list BoolRef) :=
  let env := init_environment (length action_list) grid_size in
  s <- bind_run env ;;
  chosen_targets <- find_chosen_targets ;;
  let current_target_it := 0 in
  first <- subscript chosen_targets current_target_it ;;
  efficiency_loop env chosen_targets (range (length action_list))
                  current_target_it (fst first) (snd first) s.

(** *** closest_target *)

(** The scan of [closest_target]: [chosen_targets] and [choosing_times],
    the latter starting as [[0]]. *)
Definition find_choices : result (list nat * list nat) :=
  for_each (range (length action_list - 1)) (fun t st =>
    for_each (range 3) (fun i st =>
      c <- target_changed t i ;;
      Ok (if c then (fst st ++ [i], snd st ++ [t + 1]) else st)) st)
    ([], [0]).

Definition closest_constraint (env : Environment)
    (chosen_target choosing_time target : nat) : result BoolRef :=
  cr <- subscript (targets_distance env chosen_target row) choosing_time ;;
  cc <- subscript (targets_distance env chosen_target column) choosing_time ;;
  or <- subscript (targets_distance env target row) choosing_time ;;
  oc <- subscript (targets_distance env target column) choosing_time ;;
  Ok (Le (Plus cr cc) (Plus or oc)).

Definition closest_target : result (list BoolRef) :=
  let env := init_environment (length action_list) grid_size in
  s <- bind_run env ;;
  st <- find_choices ;;
  let chosen_targets := fst st in
  let choosing_times := removelast (snd st) in
  for_each (range (length chosen_targets)) (fun i s =>
    choosing_time <- subscript choosing_times i ;;
    chosen_target <- subscript chosen_targets i ;;
    for_each (range 3) (fun target s =>
      if target =? chosen_target then Ok s
      else
        c <- closest_constraint env chosen_target choosing_time target ;;
        Ok (add c s)) s) s.

End Checks.

(** The value a check returns, and the exception it raises. *)
Definition returns (call : result (list BoolRef)) (r : CheckSatResult) : Prop :=
  exists s, call = Ok s /\ check s r.

Definition raises (call : result (list BoolRef)) (e : exception) : Prop :=
  call = Raise e.

(* ------------------------------------------------------------------------- *)
(** ** Notions about a recorded run *)

Section Run.

Variable agent_position_list : list position.
Variable target_position_list : list (list position).
Variable action_list : list Z.

(** The three sequences have one length and every timestep records
    exactly three targets. *)
Definition well_shaped : bool :=
  (length agent_position_list =? length action_list)
  && (length target_position_list =? length action_list)
  && forallb (fun targets => length targets =? 3) target_position_list.

(** The condition under which the binding loop takes no subscript out of
    range. *)
Definition subscripts_in_range : bool :=
  (length agent_position_list <=? length action_list)
  && forallb (fun t => 3 <=? length (nth t target_position_list []))
             (range (length agent_position_list)).

Definition agent_at (t : nat) : position :=
  nth t agent_position_list (0, 0)%Z.
Definition target_at (t i : nat) : position :=
  nth i (nth t target_position_list []) (0, 0)%Z.
Definition action_at (t : nat) : Z := nth t action_list (-1)%Z.

Definition coordinate (ax : axis) (p : position) : Z :=
  match ax with row => fst p | column => snd p end.

Definition action_code (d : Direction) : Z :=
  match d with north => 0 | east => 1 | south => 2 | west => 3 end%Z.

(** The constraints one pass of the binding loop adds. *)
Definition run_constraints_at (t : nat) : list BoolRef :=
  [ Eq (AP row t) (IntVal (fst (agent_at t)));
    Eq (AP column t) (IntVal (snd (agent_at t))) ]
  ++ flat_map (fun i =>
       [ Eq (TP i row t) (IntVal (fst (target_at t i)));
         Eq (TP i column t) (IntVal (snd (target_at t i))) ]) (range 3)
  ++ [ BEq (AD north t) (BoolVal (action_at t =? 0)%Z);
       BEq (AD east t) (BoolVal (action_at t =? 1)%Z);
       BEq (AD south t) (BoolVal (action_at t =? 2)%Z);
       BEq (AD west t) (BoolVal (action_at t =? 3)%Z) ].

Definition run_constraints : list BoolRef :=
  flat_map run_constraints_at (range (length agent_position_list)).

(** The model the recorded run describes. *)
Definition run_model : Model :=
  {| int_value := fun x =>
       match x with
       | a_ ax t => coordinate ax (agent_at t)
       | t_ i ax t => coordinate ax (target_at t i)
       | d_ i ax t =>
           (coordinate ax (target_at t i) - coordinate ax (agent_at t))%Z
       end;
     bool_value := fun x =>
       match x with
       | dir_ d t => (action_at t =? action_code d)%Z
       end |}.

(** Some recorded coordinate is outside [0, grid_size). *)
Definition outside (grid_size : Z) (p : position) : bool :=
  negb ((0 <=? fst p)%Z && (fst p <? grid_size)%Z
        && (0 <=? snd p)%Z && (snd p <? grid_size)%Z).

Definition out_of_bounds (grid_size : Z) : bool :=
  existsb (outside grid_size) agent_position_list
  || existsb (existsb (outside grid_size)) target_position_list.

(** Two consecutive actions that undo each other. *)
Definition reversal (a b : Z) : bool :=
  (((a =? 0) && (b =? 2)) || ((a =? 2) && (b =? 0))
   || ((a =? 3) && (b =? 1)) || ((a =? 1) && (b =? 3)))%Z.

(** The agent's position at [t + 1] is the position target [i] held at
    [t]. *)
Definition reaches (t i : nat) : bool :=
  (fst (agent_at (t + 1)) =? fst (target_at t i))%Z
  && (snd (agent_at (t + 1)) =? snd (target_at t i))%Z.

Definition loop_at (t : nat) : bool :=
  negb (reaches t 0) && negb (reaches t 1) && negb (reaches t 2)
  && reversal (action_at t) (action_at (t + 1)).

(** Target [i] changes between [t] and [t + 1]. *)
Definition changes (t i : nat) : bool :=
  negb (fst (target_at t i) =? fst (target_at (t + 1) i))%Z
  || negb (snd (target_at t i) =? snd (target_at (t + 1) i))%Z.

(** The change events in the order of the scan: (target, t + 1). *)
Definition change_events : list (nat * nat) :=
  flat_map (fun t =>
    flat_map (fun i => if changes t i then [(i, t + 1)] else []) (range 3))
  (range (length action_list - 1)).

(** The (target, timestep) pairs for which the loop of
    [find_efficient_path] adds its constraints. *)
Fixpoint pursuit (chosen_targets : list (nat * nat)) (ts : list nat)
    (current_target_it current_target arr_time : nat) : list (nat * nat) :=
  match ts with
  | [] => []
  | t :: ts' =>
      if t =? arr_time then
        if current_target_it + 1 =? length chosen_targets then []
        else
          let next := nth (current_target_it + 1) chosen_targets (0, 0) in
          (fst next, t)
          :: pursuit chosen_targets ts' (current_target_it + 1)
                     (fst next) (snd next)
      else
        (current_target, t)
        :: pursuit chosen_targets ts' current_target_it
                   current_target arr_time
  end.

Definition pursuit_schedule : list (nat * nat) :=
  let first := nth 0 change_events (0, 0) in
  pursuit change_events (range (length action_list)) 0
          (fst first) (snd first).

(** The four constraints of [find_efficient_path] for target [g] at
    [t]. *)
Definition efficiency_at (gt : nat * nat) : list BoolRef :=
  let g := fst gt in
  let t := snd gt in
  [ If (Le (TP g row t) (AP row t)) (Not (AD south t)) (BoolVal true);
    If (Ge (TP g row t) (AP row t)) (Not (AD north t)) (BoolVal true);
    If (Le (TP g column t) (AP column t)) (Not (AD east t)) (BoolVal true);
    If (Ge (TP g column t) (AP column t)) (Not (AD west t)) (BoolVal true) ].

(** The recorded move at [t] does not take the agent away from target
    [g] on either axis. *)
Definition moves_toward (gt : nat * nat) : bool :=
  let g := fst gt in
  let t := snd gt in
  implb (fst (target_at t g) <=? fst (agent_at t))%Z
        (negb (action_at t =? 2)%Z)
  && implb (fst (target_at t g) >=? fst (agent_at t))%Z
           (negb (action_at t =? 0)%Z)
  && implb (snd (target_at t g) <=? snd (agent_at t))%Z
           (negb (action_at t =? 1)%Z)
  && implb (snd (target_at t g) >=? snd (agent_at t))%Z
           (negb (action_at t =? 3)%Z).

(** The target pursued at [t]: the target of the first change event that
    takes effect after [t]. *)
Definition pursued (events : list (nat * nat)) (t : nat) : nat :=
  match find (fun e => t <? snd e) events with
  | Some e => fst e
  | None => 0
  end.

(** The effective timestep of the last change event (0 when there is
    none). *)
Definition last_arrival : nat := snd (last change_events (0, 0)).

(** No two targets change at the same step: the arrival times of the
    change events increase strictly. *)
Fixpoint increasing (arrivals : list nat) : bool :=
  match arrivals with
  | [] => true
  | a :: rest =>
      match rest with
      | [] => true
      | b :: _ => (a <? b) && increasing rest
      end
  end.

Definition one_change_per_step : bool :=
  increasing (map snd change_events).

(** The choice events of [closest_target]: (chosen target, choosing
    time), the choosing time being 0 for the first event and the arrival
    time of the event before it for the others. *)
Definition choice_events : list (nat * nat) :=
  combine (map fst change_events)
          (removelast (0 :: map snd change_events)).

Definition signed_sum (m : Model) (i t : nat) : Z :=
  (int_value m (d_ i row t) + int_value m (d_ i column t))%Z.

(** The constraints of [closest_target] for one choice event. *)
Definition closest_at (gt : nat * nat) : list BoolRef :=
  let g := fst gt in
  let t := snd gt in
  flat_map (fun g' =>
    if g' =? g then []
    else [ Le (Plus (TD g row t) (TD g column t))
              (Plus (TD g' row t) (TD g' column t)) ]) (range 3).

(** The recorded signed sum of target [i] at [t]: row difference plus
    column difference, target minus agent. *)
Definition recorded_sum (t i : nat) : Z :=
  ((fst (target_at t i) - fst (agent_at t))
   + (snd (target_at t i) - snd (agent_at t)))%Z.

(** Target [g] is within the signed-sum ordering at [t]. *)
Definition nearest_at (gt : nat * nat) : bool :=
  forallb (fun g' => (g' =? fst gt)
                     || (recorded_sum (snd gt) (fst gt)
                         <=? recorded_sum (snd gt) g')%Z) (range 3).

End Run.

(** The direction constants of a model at [t]: how many are true. *)
Definition directions_true (m : Model) (t : nat) : nat :=
  length (filter (fun d => bool_value m (dir_ d t)) [north; east; south; west]).

(** The agent stands on target [i] at [t] in model [m]. *)
Definition stands_on (m : Model) (i t : nat) : bool :=
  (int_value m (t_ i row t) =? int_value m (a_ row t))%Z
  && (int_value m (t_ i column t) =? int_value m (a_ column t))%Z.

(** Target [i] has another position at [t + 1] than at [t] in model [m]. *)
Definition moved (m : Model) (i t : nat) : bool :=
  negb (int_value m (t_ i row (t + 1)) =? int_value m (t_ i row t))%Z
  || negb (int_value m (t_ i column (t + 1)) =? int_value m (t_ i column t))%Z.

(** Two models give the constants of the first [T] timesteps the same
    values. *)
Definition agree (T : nat) (m m' : Model) : Prop :=
  (forall ax t, t < T -> int_value m (a_ ax t) = int_value m' (a_ ax t))
  /\ (forall i ax t, i < 3 -> t < T ->
        int_value m (t_ i ax t) = int_value m' (t_ i ax t))
  /\ (forall i ax t, i < 3 -> t < T ->
        int_value m (d_ i ax t) = int_value m' (d_ i ax t))
  /\ (forall d t, t < T -> bool_value m (dir_ d t) = bool_value m' (dir_ d t)).

(** A constraint that reads those constants only. *)
Definition local (T : nat) (c : BoolRef) : Prop :=
  forall m m', agree T m m' -> c m = c m'.

(** What the assertions of [init_environment T N] say of a model. *)
Definition world_spec (T : nat) (N : Z) (m : Model) : Prop :=
  (forall t ax, t < T ->
     (forall i, i < 3 ->
        (int_value m (t_ i ax t) < N)%Z /\ (0 <= int_value m (t_ i ax t))%Z)
     /\ (int_value m (a_ ax t) < N)%Z /\ (0 <= int_value m (a_ ax t))%Z)
  /\ (forall t i, 1 <= t < T -> i < 3 -> pickup_constraint t i m = true)
  /\ (forall t i j, t < T -> i < 3 -> j < i ->
        distinct_constraint t i j m = true)
  /\ (forall t ax i, t < T -> i < 3 ->
        int_value m (d_ i ax t)
        = (int_value m (t_ i ax t) - int_value m (a_ ax t))%Z)
  /\ (forall t, 1 <= t < T ->
        row_move_constraint t m = true /\ column_move_constraint t m = true).

Definition all_local (T : nat) (cs : list BoolRef) : Prop :=
  forall c, In c cs -> local T c.

(** The constraint [find_loop] adds for the pair of timesteps
    ([t], [t + 1]). *)
Definition loop_formula (t : nat) : BoolRef :=
  Not (And [ Or [ Ne (AP row (t + 1)) (TP 0 row t);
                  Ne (AP column (t + 1)) (TP 0 column t) ];
             Or [ Ne (AP row (t + 1)) (TP 1 row t);
                  Ne (AP column (t + 1)) (TP 1 column t) ];
             Or [ Ne (AP row (t + 1)) (TP 2 row t);
                  Ne (AP column (t + 1)) (TP 2 column t) ];
             Or [ And [ AD north t; AD south (t + 1) ];
                  And [ AD south t; AD north (t + 1) ];
                  And [ AD west t; AD east (t + 1) ];
                  And [ AD east t; AD west (t + 1) ] ] ]).

(* ------------------------------------------------------------------------- *)
(** ** What a valid run is *)

Section ValidRun.

Variable agent_position_list : list position.
Variable target_position_list : list (list position).
Variable action_list : list Z.
Variable grid_size : Z.

Definition same_cell (p q : position) : bool :=
  (fst p =? fst q)%Z && (snd p =? snd q)%Z.

(** The position the movement equations ask for after action [a]: north
    before south on the row, east before west on the column, and no move
    for any other action. *)
Definition moved_by (a : Z) (p : position) : position :=
  ((fst p + (if a =? 0 then -1 else if a =? 2 then 1 else 0))%Z,
   (snd p + (if a =? 1 then 1 else if a =? 3 then -1 else 0))%Z).

(** Timestep [t] alone: agent and targets inside the grid, targets on
    three cells. *)
Definition valid_at (t : nat) : bool :=
  negb (outside grid_size (agent_at agent_position_list t))
  && forallb (fun i =>
       negb (outside grid_size (target_at target_position_list t i)))
       (range 3)
  && forallb (fun i =>
       forallb (fun j =>
         negb (same_cell (target_at target_position_list t i)
                         (target_at target_position_list t j)))
         (range i))
       (range 3).

(** The step from [t] to [t + 1]: the agent is where the action at [t]
    leads, and a target the agent stood on at [t] keeps its row or its
    column. *)
Definition valid_step (t : nat) : bool :=
  same_cell (agent_at agent_position_list (t + 1))
            (moved_by (action_at action_list t)
                      (agent_at agent_position_list t))
  && forallb (fun i =>
       implb (same_cell (target_at target_position_list t i)
                        (agent_at agent_position_list t))
             ((fst (target_at target_position_list (t + 1) i)
               =? fst (target_at target_position_list t i))%Z
              || (snd (target_at target_position_list (t + 1) i)
                  =? snd (target_at target_position_list t i))%Z))
       (range 3).

Definition valid_run : bool :=
  forallb valid_at (range (length action_list))
  && forallb valid_step (range (length action_list - 1)).

End ValidRun.

(** Agent at (1,1), targets at (0,0), (0,1), (1,0), nothing moves: a model
    of the world model of any horizon on a grid of size 2 or more. *)
Definition corner_model : Model :=
  {| int_value := fun x =>
       match x with
       | a_ _ _ => 1%Z
       | t_ 0 _ _ => 0%Z
       | t_ 1 row _ => 0%Z
       | t_ 1 column _ => 1%Z
       | t_ _ row _ => 1%Z
       | t_ _ column _ => 0%Z
       | d_ 0 _ _ => (0 - 1)%Z
       | d_ 1 row _ => (0 - 1)%Z
       | d_ 1 column _ => (1 - 1)%Z
       | d_ _ row _ => (1 - 1)%Z
       | d_ _ column _ => (0 - 1)%Z
       end;
     bool_value := fun _ => false |}.

(* ------------------------------------------------------------------------- *)
(** ** Distance to a target *)

Section Distance.

Variable agent_position_list : list position.
Variable target_position_list : list (list position).
Variable action_list : list Z.

(** The distance between two cells on one axis. *)
Definition distance_on (ax : axis) (p q : position) : Z :=
  Z.abs (coordinate ax p - coordinate ax q).

(** The recorded move at [t] increases the distance to target [g] on the
    row axis or on the column axis: the cell the action at [t] leads to is
    farther from the target's cell at [t] than the agent's cell at [t]
    is. *)
Definition increases_distance (gt : nat * nat) : bool :=
  let g := fst gt in
  let t := snd gt in
  let here := agent_at agent_position_list t in
  let there := moved_by (action_at action_list t) here in
  let goal := target_at target_position_list t g in
  (distance_on row goal here <? distance_on row goal there)%Z
  || (distance_on column goal here <? distance_on column goal there)%Z.

End Distance.

(* ------------------------------------------------------------------------- *)
(** ** The simulation (Assignment1/agent.py, Assignment1/main.py)

    The agent's state as far as positions go.  Three things of [agent.py]
    are outside the model: the display array [self.map], which only
    [print_map] reads; the reward [move] returns, a float; and the network
    behind [get_action], which enters as a function from observations to
    actions.  The draws of [np.random.randint(0, grid_size, 2)] enter as the
    list of the pairs drawn, in order. *)

Module Agent.

Record State : Type := {
  grid_size : Z;
  agent_position : position;
  target_positions : list position;
  total_collected : nat;
  previously_collected : option position
}.

Definition option_bind {A B : Type} (o : option A) (k : A -> option B)
    : option B :=
  match o with
  | Some a => k a
  | None => None
  end.

(** [state in exclude] *)
Definition member (p : position) (l : list position) : bool :=
  existsb (same_cell p) l.

(** [random_state]: draw until the pair drawn is not in [exclude].  The
    result is the pair and the draws left; [None] when the draws given are
    used up before the loop ends. *)
Fixpoint random_state (draws : list position) (exclude : list position)
    : option (position * list position) :=
  match draws with
  | [] => None
  | state :: draws' =>
      if member state exclude then random_state draws' exclude
      else Some (state, draws')
  end.

(** [for i in range(3): self.target_positions.append(
      self.random_state(self.target_positions + [self.agent_position]))] *)
Fixpoint initial_targets (n : nat) (agent : position)
    (targets : list position) (draws : list position)
    : option (list position * list position) :=
  match n with
  | 0 => Some (targets, draws)
  | S n' =>
      option_bind (random_state draws (targets ++ [agent]))
        (fun '(target, draws') =>
           initial_targets n' agent (targets ++ [target]) draws')
  end.

(** [Agent.__init__] with its call [self.reset_map()]: a random agent
    position, then three targets. *)
Definition init (grid : Z) (draws : list position)
    : option (State * list position) :=
  option_bind (random_state draws [])
    (fun '(agent, draws) =>
       option_bind (initial_targets 3 agent [] draws)
         (fun '(targets, draws) =>
            Some ({| grid_size := grid;
                     agent_position := agent;
                     target_positions := targets;
                     total_collected := 0;
                     previously_collected := None |}, draws))).

(** [get_state]: [(target_locations - agent_location).reshape(1, 6)]. *)
Definition get_state (st : State) : list Z :=
  flat_map (fun target =>
              [ (fst target - fst (agent_position st))%Z;
                (snd target - snd (agent_position st))%Z ])
           (target_positions st).

(** The [if a == 0 ... elif a == 3] chain of [move]. *)
Definition displaced (a : Z) (p : position) : position :=
  if (a =? 0)%Z then ((fst p - 1)%Z, snd p)
  else if (a =? 1)%Z then (fst p, (snd p + 1)%Z)
  else if (a =? 2)%Z then ((fst p + 1)%Z, snd p)
  else if (a =? 3)%Z then (fst p, (snd p - 1)%Z)
  else p.

(** [row < 0 or row >= self.grid_size or column < 0 or
     column >= self.grid_size] *)
Definition out_of_grid (grid : Z) (p : position) : bool :=
  (fst p <? 0)%Z || (fst p >=? grid)%Z || (snd p <? 0)%Z
  || (snd p >=? grid)%Z.

(** [self.target_positions[i] = x] *)
Fixpoint set_nth {A : Type} (i : nat) (x : A) (l : list A) : list A :=
  match l, i with
  | [], _ => []
  | _ :: l', 0 => x :: l'
  | y :: l', S i' => y :: set_nth i' x l'
  end.

(** The loop [for i in range(len(self.target_positions))] of [move]: the
    state is the targets, [previously_collected], [total_collected] and the
    draws. *)
Fixpoint collect (indices : list nat) (here : position)
    (targets : list position) (previous : option position) (total : nat)
    (draws : list position)
    : option (list position * option position * nat * list position) :=
  match indices with
  | [] => Some (targets, previous, total, draws)
  | i :: indices' =>
      match nth_error targets i with
      | None => None  (* not reached: the list keeps its length *)
      | Some target =>
          if same_cell target here then
            option_bind (random_state draws targets)
              (fun '(fresh, draws') =>
                 collect indices' here (set_nth i fresh targets)
                         (Some target) (total + 1) draws')
          else collect indices' here targets previous total draws
      end
  end.

(** [move], without the reward and the map. *)
Definition move (a : Z) (st : State) (draws : list position)
    : option (State * list position) :=
  let previous : option position := None in
  let there := displaced a (agent_position st) in
  let here :=
    if out_of_grid (grid_size st) there then agent_position st else there in
  option_bind
    (collect (range (length (target_positions st))) here
             (target_positions st) previous (total_collected st) draws)
    (fun '(targets, previous, total, draws') =>
       Some ({| grid_size := grid_size st;
                agent_position := here;
                target_positions := targets;
                total_collected := total;
                previously_collected := previous |}, draws')).

End Agent.

(** *** The recording loop of main.py *)

(** The three lists [main.py] appends to. *)
Record Recording : Type := {
  agent_position_record : list position;
  target_position_record : list (list position);
  action_record : list Z
}.

Section MainLoop.

(** [agent.get_action]: the network's choice for an observation. *)
Variable get_action : list Z -> Z.

(** [args.num_collect] *)
Variable num_collect : Z.

(** At most [passes] passes of
    [while agent.total_collected <= args.num_collect]: the state, the
    draws left and the lists recorded when the loop ends or the passes
    are used up; [None] when the draws are used up inside a pass. *)
Fixpoint main_loop (passes : nat) (agent : Agent.State)
    (draws : list position) (rec : Recording)
    : option (Agent.State * list position * Recording) :=
  match passes with
  | 0 => Some (agent, draws, rec)
  | S passes' =>
      if (Z.of_nat (Agent.total_collected agent) <=? num_collect)%Z then
        let obs := Agent.get_state agent in
        let agent_action := get_action obs in
        let rec' :=
          {| agent_position_record :=
               agent_position_record rec ++ [Agent.agent_position agent];
             target_position_record :=
               target_position_record rec ++ [Agent.target_positions agent];
             action_record := action_record rec ++ [agent_action] |} in
        Agent.option_bind (Agent.move agent_action agent draws)
          (fun '(agent', draws') => main_loop passes' agent' draws' rec')
      else Some (agent, draws, rec)
  end.

(** The run of [main.py] up to the checks: a fresh agent on a grid of
    size 10, empty lists, the loop. *)
Definition main (passes : nat) (draws : list position)
    : option (Agent.State * list position * Recording) :=
  Agent.option_bind (Agent.init 10 draws)
    (fun '(agent, draws') =>
       main_loop passes agent draws'
                 {| agent_position_record := [];
                    target_position_record := [];
                    action_record := [] |}).

End MainLoop.

(** The invariant of the simulation: the agent is inside the grid, there
    are three targets, all inside the grid and on different cells, and the
    agent is on none of them. *)
Definition good_state (st : Agent.State) : Prop :=
  outside (Agent.grid_size st) (Agent.agent_position st) = false
  /\ length (Agent.target_positions st) = 3
  /\ (forall p, In p (Agent.target_positions st) ->
        outside (Agent.grid_size st) p = false)
  /\ NoDup (Agent.target_positions st)
  /\ ~ In (Agent.agent_position st) (Agent.target_positions st).

(** The draws are pairs of [randint(0, grid, 2)]. *)
Definition draws_in_grid (grid : Z) (draws : list position) : Prop :=
  forall p, In p draws -> outside grid p = false.

(** The move at [t] of a recording is blocked by the border of the grid. *)
Definition blocked (grid : Z) (r : Recording) (t : nat) : bool :=
  outside grid (moved_by (action_at (action_record r) t)
                         (agent_at (agent_position_record r) t)).

(** The agent's cell after [move]: where the action leads, or the old cell
    when that is outside the grid. *)
Definition landing (grid : Z) (a : Z) (p : position) : position :=
  if outside grid (moved_by a p) then p else moved_by a p.

(** The targets with the one on cell [here] put on cell [fresh]. *)
Definition replace_cell (here fresh : position) (targets : list position)
    : list position :=
  map (fun q => if same_cell q here then fresh else q) targets.

Section Recorded.

Variable get_action : list Z -> Z.

(** One pass of the loop of [main.py] takes the agent from [s] to
    [next], for some draws of the generator. *)
Definition moves_to (s next : Agent.State) : Prop :=
  exists draws draws',
    draws_in_grid (Agent.grid_size s) draws
    /\ Agent.move (get_action (Agent.get_state s)) s draws
       = Some (next, draws').

(** The states the loop recorded, in order, from [s] to the state
    [final] it ended in. *)
Fixpoint path (s : Agent.State) (visited : list Agent.State)
    (final : Agent.State) : Prop :=
  match visited with
  | [] => s = final
  | x :: rest => x = s /\ exists next, moves_to s next /\ path next rest final
  end.

(** What the loop appends for the states it visits. *)
Definition record_of (visited : list Agent.State) : Recording :=
  {| agent_position_record := map Agent.agent_position visited;
     target_position_record := map Agent.target_positions visited;
     action_record :=
       map (fun s => get_action (Agent.get_state s)) visited |}.

End Recorded.

Definition append_recording (r r' : Recording) : Recording :=
  {| agent_position_record :=
       agent_position_record r ++ agent_position_record r';
     target_position_record :=
       target_position_record r ++ target_position_record r';
     action_record := action_record r ++ action_record r' |}.

Definition empty_recording : Recording :=
  {| agent_position_record := [];
     target_position_record := [];
     action_record := [] |}.

(** A run of three passes on the grid of size 10 with an agent that always
    goes north: from (2,2) it reaches the target at (0,2) and is then
    stopped by the border. *)
Definition north_draws : list position :=
  [(2, 2); (0, 2); (5, 5); (7, 7); (9, 9)]%Z.
Definition always_north (obs : list Z) : Z := 0%Z.
Definition north_recording : Recording :=
  {| agent_position_record := [(2, 2); (1, 2); (0, 2)]%Z;
     target_position_record :=
       [ [(0, 2); (5, 5); (7, 7)];
         [(0, 2); (5, 5); (7, 7)];
         [(9, 9); (5, 5); (7, 7)] ]%Z;
     action_record := [0; 0; 0]%Z |}.
Definition north_start : Agent.State :=
  {| Agent.grid_size := 10;
     Agent.agent_position := (2, 2)%Z;
     Agent.target_positions := [(0, 2); (5, 5); (7, 7)]%Z;
     Agent.total_collected := 0;
     Agent.previously_collected := None |}.

(** A state to name where a list has none. *)
Definition no_state : Agent.State :=
  {| Agent.grid_size := 0;
     Agent.agent_position := (0, 0)%Z;
     Agent.target_positions := [];
     Agent.total_collected := 0;
     Agent.previously_collected := None |}.
Definition north_final : Agent.State :=
  {| Agent.grid_size := 10;
     Agent.agent_position := (0, 2)%Z;
     Agent.target_positions := [(9, 9); (5, 5); (7, 7)]%Z;
     Agent.total_collected := 1;
     Agent.previously_collected := None |}.
Definition north_second : Agent.State :=
  {| Agent.grid_size := 10;
     Agent.agent_position := (1, 2)%Z;
     Agent.target_positions := [(0, 2); (5, 5); (7, 7)]%Z;
     Agent.total_collected := 0;
     Agent.previously_collected := None |}.
Definition north_third : Agent.State :=
  {| Agent.grid_size := 10;
     Agent.agent_position := (0, 2)%Z;
     Agent.target_positions := [(9, 9); (5, 5); (7, 7)]%Z;
     Agent.total_collected := 1;
     Agent.previously_collected := Some (0, 2)%Z |}.

(** The same agent with [num_collect = 0]: the loop stops after the second
    pass, in which the first target is collected. *)
Definition north_short_recording : Recording :=
  {| agent_position_record := [(2, 2); (1, 2)]%Z;
     target_position_record :=
       [ [(0, 2); (5, 5); (7, 7)];
         [(0, 2); (5, 5); (7, 7)] ]%Z;
     action_record := [0; 0]%Z |}.

(* ------------------------------------------------------------------------- *)
(** ** Concrete runs and models *)

(** Grid of size 3, two timesteps: the agent goes from (1,1) to (0,1) and
    the targets stay at (0,0), (0,2), (2,2). *)
Definition small_run_agent : list position := [(1, 1); (0, 1)]%Z.
Definition small_run_targets : list (list position) :=
  [ [(0, 0); (0, 2); (2, 2)]; [(0, 0); (0, 2); (2, 2)] ]%Z.

Definition small_run_model : Model :=
  run_model small_run_agent small_run_targets [0; 0]%Z.

(** The positions of the small run, with [north_0] and [south_0] both
    true. *)
Definition north_and_south : Model :=
  {| int_value :=
       int_value (run_model small_run_agent small_run_targets [0; 0]%Z);
     bool_value := fun x =>
       match x with
       | dir_ north 0 => true
       | dir_ south 0 => true
       | _ => false
       end |}.

(** The agent stays at (1,1) and no direction constant is true. *)
Definition no_direction : Model :=
  {| int_value :=
       int_value (run_model [(1, 1); (1, 1)]%Z small_run_targets [0; 0]%Z);
     bool_value := fun _ => false |}.

(** Target 0 goes from (0,0) to (0,1) while the agent stays at (2,2), on
    no target. *)
Definition moving_target : Model :=
  run_model [(2, 2); (2, 2)]%Z
            [ [(0, 0); (1, 0); (1, 1)]; [(0, 1); (1, 0); (1, 1)] ]%Z
            [(-1); (-1)]%Z.

(** The agent stands on target 0 at (1,1) at timestep 0, moves north, and
    target 0 is still at (1,1) at timestep 1. *)
Definition target_stays : Model :=
  run_model [(1, 1); (0, 1)]%Z
            [ [(1, 1); (0, 2); (2, 2)]; [(1, 1); (0, 2); (2, 2)] ]%Z
            [0; 0]%Z.

(** For any horizon: the agent rests at (0,0), target 0 alternates between
    (0,1) and (0,2), targets 1 and 2 rest at (1,0) and (1,1). *)
Definition restless_target_at (i : nat) (ax : axis) (t : nat) : Z :=
  match i, ax with
  | 0, row => 0%Z
  | 0, column => if Nat.even t then 1%Z else 2%Z
  | 1, row => 1%Z
  | 1, column => 0%Z
  | _, _ => 1%Z
  end.

Definition restless_target : Model :=
  {| int_value := fun x =>
       match x with
       | a_ _ _ => 0%Z
       | t_ i ax t => restless_target_at i ax t
       | d_ i ax t => (restless_target_at i ax t - 0)%Z
       end;
     bool_value := fun _ => false |}.

(** One recorded timestep on a grid of size 3 (the scenario of the
    specification): agent at (1,1), targets at (0,0), (0,2), (2,2). *)
Definition single_step : Model :=
  run_model [(1, 1)]%Z [ [(0, 0); (0, 2); (2, 2)] ]%Z [0%Z].

(** A chase on a grid of size 3: the agent goes north twice from (2,0) and
    reaches target 0 at (0,0), which is then replaced at (1,1); the last
    recorded action is west, away from the new target. *)
Definition chase_agent : list position := [(2, 0); (1, 0); (0, 0)]%Z.
Definition chase_targets : list (list position) :=
  [ [(0, 0); (0, 2); (2, 2)];
    [(0, 0); (0, 2); (2, 2)];
    [(1, 1); (0, 2); (2, 2)] ]%Z.
Definition chase_actions : list Z := [0; 0; 3]%Z.

(** North then south on a grid of size 3, reaching no target. *)
Definition loop_agent : list position := [(1, 1); (0, 1); (1, 1)]%Z.
Definition loop_targets : list (list position) :=
  [ [(0, 0); (0, 2); (2, 2)];
    [(0, 0); (0, 2); (2, 2)];
    [(0, 0); (0, 2); (2, 2)] ]%Z.
Definition loop_actions : list Z := [0; 2; 0]%Z.

(** Grid of size 5, three timesteps.  Targets 0 and 1 both change between
    timesteps 0 and 1.  The agent goes north towards target 0, then east
    towards the new target 1 at (1,4), then west, away from it. *)
Definition double_change_agent : list position := [(2, 2); (1, 2); (1, 3)]%Z.
Definition double_change_targets : list (list position) :=
  [ [(0, 2); (3, 3); (4, 0)];
    [(4, 4); (1, 4); (4, 0)];
    [(4, 4); (1, 4); (4, 0)] ]%Z.
Definition double_change_actions : list Z := [0; 1; 3]%Z.

(** Grid of size 5, two timesteps.  Targets 0 and 1 both change between
    timesteps 0 and 1: target 0 from (0,1) to (0,0), target 1 from (1,0) to
    (2,2); target 2 stays at (1,1). *)
Definition double_choice_agent : list position := [(3, 3); (3, 4)]%Z.
Definition double_choice_targets : list (list position) :=
  [ [(0, 1); (1, 0); (1, 1)];
    [(0, 0); (2, 2); (1, 1)] ]%Z.
Definition double_choice_actions : list Z := [1; 1]%Z.

(** One timestep with the agent outside a grid of size 3. *)
Definition outside_agent : list position := [(5, 5)]%Z.
Definition outside_targets : list (list position) :=
  [ [(0, 0); (0, 2); (2, 2)] ]%Z.
Definition outside_actions : list Z := [0%Z].



(* ------------------------------------------------------------------------- *)
(** ** Subscripts and loops *)

Lemma exception_is_IndexError (e : exception) : e = IndexError.
Proof. destruct e; reflexivity. Qed.

Lemma subscript_Ok {A : Type} (l : list A) (i : nat) (d : A) :
  i < length l -> subscript l i = Ok (nth i l d).
Proof.
  intros H. unfold subscript.
  rewrite (nth_error_nth' l d H). reflexivity.
Qed.

Lemma subscript_Raise {A : Type} (l : list A) (i : nat) :
  length l <= i -> subscript l i = Raise IndexError.
Proof.
  intros H. unfold subscript.
  apply nth_error_None in H. rewrite H. reflexivity.
Qed.

Lemma subscript_Ok_inv {A : Type} (l : list A) (i : nat) (a : A) :
  subscript l i = Ok a -> i < length l.
Proof.
  unfold subscript. destruct (nth_error l i) eqn:E; [|discriminate].
  intros _. apply nth_error_Some. congruence.
Qed.

Lemma subscript_range {A : Type} (f : nat -> A) (n t : nat) :
  t < n -> subscript (map f (range n)) t = Ok (f t).
Proof.
  intros H. unfold subscript, range.
  rewrite nth_error_map, nth_error_seq.
  destruct (Nat.ltb_spec t n); [reflexivity | lia].
Qed.

Lemma subscript_range_inv {A : Type} (f : nat -> A) (n t : nat) (a : A) :
  subscript (map f (range n)) t = Ok a -> t < n.
Proof.
  intros H. apply subscript_Ok_inv in H.
  unfold range in H. rewrite length_map, length_seq in H. exact H.
Qed.

Lemma subscript_agent_position (T : nat) (N : Z) (ax : axis) (t : nat) :
  t < T -> subscript (agent_position (init_environment T N) ax) t = Ok (AP ax t).
Proof. apply subscript_range. Qed.

Lemma subscript_target_positions (T : nat) (N : Z) (i : nat) (ax : axis) (t : nat) :
  t < T ->
  subscript (target_positions (init_environment T N) i ax) t = Ok (TP i ax t).
Proof. apply subscript_range. Qed.

Lemma subscript_targets_distance (T : nat) (N : Z) (i : nat) (ax : axis) (t : nat) :
  t < T ->
  subscript (targets_distance (init_environment T N) i ax) t = Ok (TD i ax t).
Proof. apply subscript_range. Qed.

Lemma subscript_agent_direction (T : nat) (N : Z) (d : Direction) (t : nat) :
  t < T -> subscript (agent_direction (init_environment T N) d) t = Ok (AD d t).
Proof. apply subscript_range. Qed.

(** A loop whose every pass acts on the state with the items of that
    pass. *)
Lemma for_each_acts {A B S : Type} (act : S -> list B -> S) (xs : list A)
    (body : A -> S -> result S) (f : A -> list B) :
  (forall s, act s [] = s) ->
  (forall s a b, act (act s a) b = act s (a ++ b)) ->
  (forall x s, In x xs -> body x s = Ok (act s (f x))) ->
  forall s, for_each xs body s = Ok (act s (flat_map f xs)).
Proof.
  intros Hnil Happ.
  induction xs as [|x xs IH]; intros Hbody s; cbn.
  - rewrite Hnil. reflexivity.
  - rewrite Hbody by (left; reflexivity). cbn.
    rewrite IH by (intros; apply Hbody; right; assumption).
    rewrite Happ. reflexivity.
Qed.

(** A loop whose every pass appends to the state. *)
Lemma for_each_appends {A B : Type} (xs : list A)
    (body : A -> list B -> result (list B)) (f : A -> list B) :
  (forall x s, In x xs -> body x s = Ok (s ++ f x)) ->
  forall s, for_each xs body s = Ok (s ++ flat_map f xs).
Proof.
  apply (for_each_acts (@app B)).
  - intros s. apply app_nil_r.
  - intros s a b. symmetry. apply app_assoc.
Qed.

(** A loop that ends normally has run every pass normally. *)
Lemma for_each_Ok_inv {A S : Type} (xs : list A)
    (body : A -> S -> result S) :
  forall s s', for_each xs body s = Ok s' ->
  forall x, In x xs -> exists s0 s1, body x s0 = Ok s1.
Proof.
  induction xs as [|x xs IH]; intros s s' H y Hy; [destruct Hy|].
  cbn in H. destruct (body x s) as [s1|e] eqn:E; [|discriminate].
  cbn in H. destruct Hy as [<-|Hy].
  - exists s, s1. exact E.
  - eapply IH; eassumption.
Qed.

Lemma not_Ok_Raise {A : Type} (r : result A) :
  (forall a, r <> Ok a) -> r = Raise IndexError.
Proof.
  destruct r as [a|e]; intros H.
  - exfalso. apply (H a). reflexivity.
  - rewrite (exception_is_IndexError e). reflexivity.
Qed.

Lemma in_range (n t : nat) : In t (range n) <-> t < n.
Proof. unfold range. rewrite in_seq. lia. Qed.

Lemma in_range_from (a b t : nat) : In t (range_from a b) <-> a <= t < b.
Proof. unfold range_from. rewrite in_seq. lia. Qed.

(* ------------------------------------------------------------------------- *)
(** ** The binding loop *)

Section Binding.

Variable agent_position_list : list position.
Variable target_position_list : list (list position).
Variable action_list : list Z.
Variable grid_size : Z.

Let T := length action_list.
Let env := init_environment T grid_size.

Lemma subscripts_in_range_spec :
  subscripts_in_range agent_position_list target_position_list action_list
    = true
  <-> length agent_position_list <= T
      /\ forall t, t < length agent_position_list ->
           3 <= length (nth t target_position_list []).
Proof.
  unfold subscripts_in_range. rewrite andb_true_iff, Nat.leb_le, forallb_forall.
  split; intros [H1 H2]; split; try exact H1; intros t Ht.
  - apply Nat.leb_le, H2, in_range, Ht.
  - apply Nat.leb_le, H2, in_range, Ht.
Qed.

Lemma targets_in_range (t : nat) :
  3 <= length (nth t target_position_list []) ->
  t < length target_position_list.
Proof.
  intros H. destruct (Nat.lt_ge_cases t (length target_position_list)) as [|Hge];
    [assumption|].
  rewrite (nth_overflow _ _ Hge) in H. cbn in H. lia.
Qed.

Lemma bind_timestep_Ok (t : nat) (s : list BoolRef) :
  t < length agent_position_list -> t < T ->
  3 <= length (nth t target_position_list []) ->
  bind_timestep agent_position_list target_position_list action_list env t s
  = Ok (s ++ run_constraints_at agent_position_list target_position_list
                                action_list t).
Proof.
  intros Ha Ht Hg. unfold bind_timestep, env.
  rewrite !subscript_agent_position by exact Ht.
  rewrite !(subscript_Ok agent_position_list t (0, 0)%Z Ha).
  rewrite !subscript_agent_direction by exact Ht.
  rewrite !(subscript_Ok action_list t (-1)%Z Ht).
  cbn [bind].
  rewrite (for_each_appends (range 3) _
    (fun i => [ Eq (TP i row t)
                   (IntVal (fst (target_at target_position_list t i)));
                Eq (TP i column t)
                   (IntVal (snd (target_at target_position_list t i))) ])).
  - cbn [bind]. unfold run_constraints_at, add, agent_at, action_at.
    rewrite <- !app_assoc. reflexivity.
  - intros i s0 Hi. apply in_range in Hi.
    rewrite !subscript_target_positions by exact Ht.
    rewrite !(subscript_Ok target_position_list t [] (targets_in_range t Hg)).
    cbn [bind].
    rewrite !(subscript_Ok (nth t target_position_list []) i (0, 0)%Z)
      by lia.
    cbn [bind]. unfold add, target_at. rewrite <- app_assoc. reflexivity.
Qed.

Lemma bind_timestep_Ok_inv (t : nat) (s s' : list BoolRef) :
  bind_timestep agent_position_list target_position_list action_list env t s
  = Ok s' ->
  t < T /\ 3 <= length (nth t target_position_list []).
Proof.
  unfold bind_timestep. intros H.
  destruct (subscript (agent_position env row) t) as [ar|] eqn:E1;
    [|discriminate].
  apply subscript_range_inv in E1. split; [exact E1|].
  cbn [bind] in H.
  destruct (subscript agent_position_list t) as [p|]; [|discriminate].
  cbn [bind] in H.
  destruct (subscript (agent_position env column) t); [|discriminate].
  cbn [bind] in H.
  match type of H with
  | bind (for_each ?xs ?body ?s0) _ = _ =>
      destruct (for_each xs body s0) as [s1|] eqn:E2; [|discriminate];
      destruct (for_each_Ok_inv xs body s0 _ E2 2) as (u & v & E3);
      [apply in_range; lia|]
  end.
  cbn beta in E3.
  destruct (subscript (target_positions env 2 row) t); [|discriminate].
  cbn [bind] in E3.
  destruct (subscript target_position_list t) as [g|] eqn:E4; [|discriminate].
  cbn [bind] in E3.
  destruct (subscript g 2) as [q|] eqn:E5; [|discriminate].
  apply subscript_Ok_inv in E5.
  unfold subscript in E4.
  destruct (nth_error target_position_list t) as [g'|] eqn:E6; [|discriminate].
  injection E4 as ->.
  rewrite (nth_error_nth _ _ [] E6). lia.
Qed.

(** The binding loop ends normally exactly when its subscripts are in
    range, and then it has added the constraints of the recorded
    timesteps, in order. *)
Lemma bind_run_Ok :
  subscripts_in_range agent_position_list target_position_list action_list
    = true ->
  bind_run agent_position_list target_position_list action_list env
  = Ok (solver env
        ++ run_constraints agent_position_list target_position_list
                           action_list).
Proof.
  intros H. apply subscripts_in_range_spec in H. destruct H as [H1 H2].
  unfold bind_run, run_constraints.
  apply for_each_appends. intros t s Ht. apply in_range in Ht.
  apply bind_timestep_Ok; [exact Ht | lia | apply H2, Ht].
Qed.

Lemma bind_run_Raise :
  subscripts_in_range agent_position_list target_position_list action_list
    = false ->
  bind_run agent_position_list target_position_list action_list env
  = Raise IndexError.
Proof.
  intros H. apply not_Ok_Raise. intros s' Hs'.
  enough (subscripts_in_range agent_position_list target_position_list
            action_list = true) by congruence.
  apply subscripts_in_range_spec.
  assert (Hall : forall t, t < length agent_position_list ->
            t < T /\ 3 <= length (nth t target_position_list [])).
  { intros t Ht.
    destruct (for_each_Ok_inv _ _ _ _ Hs' t) as (u & v & E).
    - apply in_range, Ht.
    - eapply bind_timestep_Ok_inv, E. }
  split.
  - destruct (Nat.le_gt_cases (length agent_position_list) T) as [|Hgt];
      [assumption|].
    destruct (Hall T Hgt) as [Hlt _]. lia.
  - intros t Ht. apply Hall, Ht.
Qed.

End Binding.

(* ------------------------------------------------------------------------- *)
(** ** What the world model says *)

Lemma models_app (m : Model) (a b : list BoolRef) :
  models m (a ++ b) = models m a && models m b.
Proof. apply forallb_app. Qed.

Lemma models_In (m : Model) (cs : list BoolRef) :
  models m cs = true <-> forall c, In c cs -> c m = true.
Proof. apply forallb_forall. Qed.

Lemma models_flat_map {A : Type} (m : Model) (f : A -> list BoolRef)
    (xs : list A) :
  models m (flat_map f xs) = true <-> forall x, In x xs -> models m (f x) = true.
Proof.
  induction xs as [|x xs IH]; cbn [flat_map In].
  - split; [intros _ y [] | reflexivity].
  - rewrite models_app, andb_true_iff, IH. split.
    + intros [H1 H2] y [<-|Hy]; [exact H1 | apply H2, Hy].
    + intros H. split; [apply H; left; reflexivity|].
      intros y Hy. apply H. right. exact Hy.
Qed.

Lemma models_map {A : Type} (m : Model) (f : A -> BoolRef) (xs : list A) :
  models m (map f xs) = true <-> forall x, In x xs -> f x m = true.
Proof.
  rewrite models_In. split.
  - intros H x Hx. apply H, in_map, Hx.
  - intros H c Hc. apply in_map_iff in Hc. destruct Hc as (x & <- & Hx).
    apply H, Hx.
Qed.

Ltac z3_unfold :=
  unfold pickup_constraint, distinct_constraint, row_move_constraint,
    column_move_constraint, If, And, Or, Not, Eq, Ne, Lt, Le, Ge, BEq, Plus,
    Minus, AP, TP, TD, AD, IntVar, BoolVar, IntVal, BoolVal in *.

Lemma models_world (T : nat) (N : Z) (m : Model) :
  models m (solver (init_environment T N)) = true <-> world_spec T N m.
Proof.
  unfold world_spec, init_environment. cbn [solver].
  rewrite !models_app, !andb_true_iff.
  unfold grid_constraints, pickup_constraints, distinct_constraints,
    distance_constraints, move_constraints.
  rewrite !models_flat_map.
  match goal with
  | |- (?a1 /\ ?a2 /\ ?a3 /\ ?a4 /\ ?a5) <-> (?b1 /\ ?b2 /\ ?b3 /\ ?b4 /\ ?b5) =>
      enough ((a1 <-> b1) /\ (a2 <-> b2) /\ (a3 <-> b3) /\ (a4 <-> b4)
              /\ (a5 <-> b5)) by tauto
  end.
  split; [|split; [|split; [|split]]].
  - split.
    + intros H t ax Ht. specialize (H t (proj2 (in_range T t) Ht)).
      apply models_flat_map with (x := ax) in H; [|destruct ax; cbn; auto].
      rewrite models_app, andb_true_iff, models_flat_map in H.
      destruct H as [Hg Ha]. split.
      * intros i Hi. specialize (Hg i (proj2 (in_range 3 i) Hi)).
        cbn in Hg. z3_unfold. rewrite !andb_true_iff in Hg. lia.
      * cbn in Ha. z3_unfold. rewrite !andb_true_iff in Ha. lia.
    + intros H t Ht. apply in_range in Ht. apply models_flat_map.
      intros ax _. destruct (H t ax Ht) as [Hg Ha].
      rewrite models_app, andb_true_iff, models_flat_map. split.
      * intros i Hi. apply in_range in Hi. specialize (Hg i Hi).
        cbn. z3_unfold. rewrite !andb_true_iff. lia.
      * cbn. z3_unfold. rewrite !andb_true_iff. lia.
  - split.
    + intros H t i Ht Hi. specialize (H t (proj2 (in_range_from 1 T t) Ht)).
      rewrite models_map in H. apply H, in_range, Hi.
    + intros H t Ht. apply in_range_from in Ht. apply models_map.
      intros i Hi. apply H; [exact Ht | apply in_range, Hi].
  - split.
    + intros H t i j Ht Hi Hj. specialize (H t (proj2 (in_range T t) Ht)).
      rewrite models_flat_map in H.
      specialize (H i (proj2 (in_range 3 i) Hi)).
      rewrite models_map in H. apply H, in_range, Hj.
    + intros H t Ht. apply in_range in Ht. apply models_flat_map.
      intros i Hi. apply in_range in Hi. apply models_map.
      intros j Hj. apply in_range in Hj. apply H; assumption.
  - split.
    + intros H t ax i Ht Hi. specialize (H t (proj2 (in_range T t) Ht)).
      apply models_flat_map with (x := ax) in H; [|destruct ax; cbn; auto].
      rewrite models_map in H. specialize (H i (proj2 (in_range 3 i) Hi)).
      z3_unfold. lia.
    + intros H t Ht. apply in_range in Ht. apply models_flat_map.
      intros ax _. apply models_map. intros i Hi. apply in_range in Hi.
      specialize (H t ax i Ht Hi). z3_unfold. lia.
  - split.
    + intros H t Ht. specialize (H t (proj2 (in_range_from 1 T t) Ht)).
      cbn in H. rewrite !andb_true_iff in H. tauto.
    + intros H t Ht. apply in_range_from in Ht. destruct (H t Ht) as [Hr Hc].
      cbn. rewrite Hr, Hc. reflexivity.
Qed.

(* ------------------------------------------------------------------------- *)
(** ** Claims about the world model alone *)

(** C7, counterexample.  A model of the assertions of
    [init_environment 2 3] in which [south_0] is true and the agent's row at
    timestep 1 is not its row at timestep 0 plus 1: [north_0] is true as
    well, and the row goes from 1 to 0. *)
Lemma south_overridden_by_north :
  models north_and_south (solver (init_environment 2 3)) = true
  /\ bool_value north_and_south (dir_ south 0) = true
  /\ int_value north_and_south (a_ row 0) = 1%Z
  /\ int_value north_and_south (a_ row 1) = 0%Z
  /\ int_value north_and_south (a_ row 1)
     <> (int_value north_and_south (a_ row 0) + 1)%Z.
Proof. vm_compute. repeat split. discriminate. Qed.

(** C7, amended.  In every model of the assertions of [init_environment T N]
    and at every [t] with [t + 1 < T], the agent's row at [t + 1] is its row
    at [t] minus 1 if [north_t] is true, plus 1 if [north_t] is false and
    [south_t] is true, and unchanged otherwise; its column at [t + 1] is its
    column at [t] plus 1 if [east_t] is true, minus 1 if [east_t] is false
    and [west_t] is true, and unchanged otherwise. *)
Theorem agent_moves_by_direction (T : nat) (N : Z) (m : Model) (t : nat) :
  models m (solver (init_environment T N)) = true ->
  t + 1 < T ->
  int_value m (a_ row (t + 1))
  = (int_value m (a_ row t)
     + (if bool_value m (dir_ north t) then -1
        else if bool_value m (dir_ south t) then 1 else 0))%Z
  /\ int_value m (a_ column (t + 1))
     = (int_value m (a_ column t)
        + (if bool_value m (dir_ east t) then 1
           else if bool_value m (dir_ west t) then -1 else 0))%Z.
Proof.
  intros Hm Ht. apply models_world in Hm.
  destruct Hm as (_ & _ & _ & _ & Hmove).
  destruct (Hmove (t + 1)) as [Hr Hc]; [lia|].
  z3_unfold. replace (t + 1 - 1) with t in * by lia.
  apply Z.eqb_eq in Hr, Hc. split; assumption.
Qed.

Lemma agent_moves_by_direction_witness :
  int_value north_and_south (a_ row (0 + 1))
  = (int_value north_and_south (a_ row 0)
     + (if bool_value north_and_south (dir_ north 0) then -1
        else if bool_value north_and_south (dir_ south 0) then 1 else 0))%Z
  /\ int_value north_and_south (a_ column (0 + 1))
     = (int_value north_and_south (a_ column 0)
        + (if bool_value north_and_south (dir_ east 0) then 1
           else if bool_value north_and_south (dir_ west 0) then -1 else 0))%Z.
Proof.
  apply (agent_moves_by_direction 2 3 north_and_south 0).
  - vm_compute. reflexivity.
  - lia.
Defined.

(** The meaning of the pickup constraint between [t] and [t + 1]: if the
    agent stands on target [i] at [t], the target keeps its row or its
    column. *)
Lemma pickup_constraint_spec (m : Model) (i t : nat) :
  pickup_constraint (t + 1) i m = true
  <-> (stands_on m i t = true ->
       int_value m (t_ i row (t + 1)) = int_value m (t_ i row t)
       \/ int_value m (t_ i column (t + 1)) = int_value m (t_ i column t)).
Proof.
  unfold stands_on. z3_unfold. replace (t + 1 - 1) with t by lia.
  cbn [forallb]. rewrite !andb_true_r.
  destruct (_ && _); [|split; [discriminate | reflexivity]].
  rewrite negb_true_iff, andb_false_iff, !negb_false_iff, !Z.eqb_eq.
  tauto.
Qed.

(** After a pickup the target may keep its exact position: the pickup
    constraint asks that row or column stay, not that one of them change. *)
Lemma pickup_allows_same_position :
  models target_stays (solver (init_environment 2 3)) = true
  /\ stands_on target_stays 0 0 = true
  /\ moved target_stays 0 0 = false.
Proof. vm_compute. repeat split. Qed.

(** C1, counterexample.  A model of the assertions of
    [init_environment 2 3] in which target 0 changes position between
    timesteps 0 and 1 although the agent does not stand on it at
    timestep 0. *)
Lemma target_moves_without_pickup :
  models moving_target (solver (init_environment 2 3)) = true
  /\ moved moving_target 0 0 = true
  /\ stands_on moving_target 0 0 = false.
Proof. vm_compute. repeat split. Qed.

Lemma restless_target_world (T : nat) (N : Z) :
  (3 <= N)%Z -> world_spec T N restless_target.
Proof.
  intros HN. unfold world_spec. split; [|split; [|split; [|split]]].
  - intros t ax _. split; [|cbn; lia].
    intros i _. cbn.
    destruct i as [|[|i]], ax; cbn; try destruct (Nat.even t); lia.
  - intros t i [Ht _] Hi. replace t with ((t - 1) + 1) by lia.
    apply pickup_constraint_spec. unfold stands_on. cbn.
    destruct i as [|[|i]]; cbn; try destruct (Nat.even (t - 1)); discriminate.
  - intros t i j _ Hi Hj. z3_unfold. cbn.
    destruct i as [|[|[|i]]]; try lia; destruct j as [|[|j]]; try lia; cbn;
      try destruct (Nat.even t); reflexivity.
  - intros t ax i _ _. reflexivity.
  - intros t _. z3_unfold. cbn. split; reflexivity.
Qed.

(** C1, amended.  The pickup constraint of slot [i] between [t] and [t + 1]
    is conditional on the agent standing on the slot's position at [t]:
    where the agent does not, it holds whatever the slot's position at
    [t + 1] is.  So a slot's position may change without a capture: for every
    horizon [T] and every grid size [N >= 3] the assertions of
    [init_environment T N] have a model in which the agent never stands on a
    target and target 0 changes position at every step. *)
Theorem relocation_not_capture_triggered (T : nat) (N : Z) :
  (3 <= N)%Z ->
  (forall m i t, stands_on m i t = false ->
     pickup_constraint (t + 1) i m = true)
  /\ exists m,
       models m (solver (init_environment T N)) = true
       /\ (forall i t, i < 3 -> stands_on m i t = false)
       /\ (forall t, moved m 0 t = true).
Proof.
  intros HN. split.
  - intros m i t H. apply pickup_constraint_spec. rewrite H. discriminate.
  - exists restless_target. split; [|split].
    + apply models_world, restless_target_world, HN.
    + intros i t Hi. unfold stands_on. cbn.
      destruct i as [|[|i]]; cbn; try destruct (Nat.even t); reflexivity.
    + intros t. unfold moved. cbn.
      replace (t + 1) with (S t) by lia. rewrite Nat.even_succ.
      rewrite <- Nat.negb_even. destruct (Nat.even t); reflexivity.
Qed.

Lemma relocation_not_capture_triggered_witness :
  (forall m i t, stands_on m i t = false ->
     pickup_constraint (t + 1) i m = true)
  /\ exists m,
       models m (solver (init_environment 2 3)) = true
       /\ (forall i t, i < 3 -> stands_on m i t = false)
       /\ (forall t, moved m 0 t = true).
Proof. apply (relocation_not_capture_triggered 2 3). lia. Defined.

(** C2, counterexample.  Two models of the assertions of
    [init_environment 2 3]: in the first [north_0] and [south_0] are both
    true (two direction constants true at timestep 0, and the agent moves
    north); in the second no direction constant is true at timestep 0. *)
Lemma directions_not_exclusive :
  models north_and_south (solver (init_environment 2 3)) = true
  /\ bool_value north_and_south (dir_ north 0) = true
  /\ bool_value north_and_south (dir_ south 0) = true
  /\ directions_true north_and_south 0 = 2
  /\ models no_direction (solver (init_environment 2 3)) = true
  /\ directions_true no_direction 0 = 0.
Proof. vm_compute. repeat split. Qed.

(* ------------------------------------------------------------------------- *)
(** ** A bound run leaves one model *)

Ltac local_tac :=
  let m := fresh "m" in
  let m' := fresh "m'" in
  let Ha := fresh "Ha" in
  let Ht := fresh "Ht" in
  let Hd := fresh "Hd" in
  let Hb := fresh "Hb" in
  intros m m' (Ha & Ht & Hd & Hb); z3_unfold; cbn [forallb existsb];
  rewrite ?Ha, ?Ht, ?Hd, ?Hb by lia; reflexivity.

Lemma all_local_app (T : nat) (a b : list BoolRef) :
  all_local T a -> all_local T b -> all_local T (a ++ b).
Proof.
  intros Ha Hb c Hc. apply in_app_or in Hc. destruct Hc; auto.
Qed.

Lemma all_local_flat_map {A : Type} (T : nat) (f : A -> list BoolRef)
    (xs : list A) :
  (forall x, In x xs -> all_local T (f x)) -> all_local T (flat_map f xs).
Proof.
  intros H c Hc. apply in_flat_map in Hc. destruct Hc as (x & Hx & Hc).
  exact (H x Hx c Hc).
Qed.

Lemma all_local_map {A : Type} (T : nat) (f : A -> BoolRef) (xs : list A) :
  (forall x, In x xs -> local T (f x)) -> all_local T (map f xs).
Proof.
  intros H c Hc. apply in_map_iff in Hc. destruct Hc as (x & <- & Hx).
  exact (H x Hx).
Qed.

Lemma all_local_cons (T : nat) (c : BoolRef) (cs : list BoolRef) :
  local T c -> all_local T cs -> all_local T (c :: cs).
Proof. intros H1 H2 c' [<-|Hc]; auto. Qed.

Lemma all_local_nil (T : nat) : all_local T [].
Proof. intros c []. Qed.

Ltac all_local_list :=
  repeat match goal with
         | |- all_local _ (_ :: _) => apply all_local_cons
         | |- all_local _ [] => apply all_local_nil
         end.

Lemma local_models (T : nat) (cs : list BoolRef) (m m' : Model) :
  all_local T cs -> agree T m m' -> models m cs = models m' cs.
Proof.
  intros Hl Ha. unfold models.
  induction cs as [|c cs IH]; [reflexivity|]. cbn.
  rewrite (Hl c (or_introl eq_refl) m m' Ha).
  rewrite IH; [reflexivity|]. intros c' Hc'. apply Hl. right. exact Hc'.
Qed.

Lemma world_local (T : nat) (N : Z) :
  all_local T (solver (init_environment T N)).
Proof.
  unfold init_environment. cbn [solver].
  apply all_local_app; [|apply all_local_app; [|apply all_local_app;
    [|apply all_local_app]]].
  - apply all_local_flat_map. intros t Ht. apply in_range in Ht.
    apply all_local_flat_map. intros ax _. apply all_local_app.
    + apply all_local_flat_map. intros i Hi. apply in_range in Hi.
      all_local_list; local_tac.
    + all_local_list; local_tac.
  - apply all_local_flat_map. intros t Ht. apply in_range_from in Ht.
    apply all_local_map. intros i Hi. apply in_range in Hi. local_tac.
  - apply all_local_flat_map. intros t Ht. apply in_range in Ht.
    apply all_local_flat_map. intros i Hi. apply in_range in Hi.
    apply all_local_map. intros j Hj. apply in_range in Hj. local_tac.
  - apply all_local_flat_map. intros t Ht. apply in_range in Ht.
    apply all_local_flat_map. intros ax _.
    apply all_local_map. intros i Hi. apply in_range in Hi. local_tac.
  - apply all_local_flat_map. intros t Ht. apply in_range_from in Ht.
    all_local_list; local_tac.
Qed.

Section Pinning.

Variable agent_position_list : list position.
Variable target_position_list : list (list position).
Variable action_list : list Z.

Let run := run_constraints agent_position_list target_position_list
                           action_list.
Let the_model := run_model agent_position_list target_position_list
                           action_list.

Lemma run_local (T : nat) :
  length agent_position_list <= T -> all_local T run.
Proof.
  intros HT. apply all_local_flat_map. intros t Ht. apply in_range in Ht.
  unfold run_constraints_at. apply all_local_app; [|apply all_local_app].
  - all_local_list; local_tac.
  - apply all_local_flat_map. intros i Hi. apply in_range in Hi.
    all_local_list; local_tac.
  - all_local_list; local_tac.
Qed.

(** The binding pins the agent, the targets and the directions of every
    recorded timestep. *)
Lemma run_constraints_pin (m : Model) (t : nat) :
  models m run = true -> t < length agent_position_list ->
  (forall ax, int_value m (a_ ax t)
              = coordinate ax (agent_at agent_position_list t))
  /\ (forall i ax, i < 3 ->
        int_value m (t_ i ax t)
        = coordinate ax (target_at target_position_list t i))
  /\ (forall d, bool_value m (dir_ d t)
                = (action_at action_list t =? action_code d)%Z).
Proof.
  intros Hm Ht. unfold run, run_constraints in Hm.
  rewrite models_flat_map in Hm. specialize (Hm t (proj2 (in_range _ t) Ht)).
  unfold run_constraints_at in Hm.
  rewrite !models_app, !andb_true_iff, models_flat_map in Hm.
  destruct Hm as (Hagent & Htargets & Hdirs).
  split; [|split].
  - intros ax. cbn in Hagent. z3_unfold.
    rewrite !andb_true_iff, !Z.eqb_eq in Hagent.
    destruct ax; cbn; tauto.
  - intros i ax Hi. specialize (Htargets i (proj2 (in_range 3 i) Hi)).
    cbn in Htargets. z3_unfold.
    rewrite !andb_true_iff, !Z.eqb_eq in Htargets.
    destruct ax; cbn; tauto.
  - intros d. cbn in Hdirs. z3_unfold.
    rewrite !andb_true_iff in Hdirs.
    destruct Hdirs as (Hn & He & Hs & Hw & _).
    apply eqb_prop in Hn, He, Hs, Hw.
    destruct d; cbn; assumption.
Qed.

Lemma run_model_run : models the_model run = true.
Proof.
  unfold run, run_constraints. apply models_flat_map. intros t _.
  unfold run_constraints_at.
  rewrite !models_app, !andb_true_iff, models_flat_map.
  split; [|split].
  - cbn. z3_unfold. cbn. rewrite !Z.eqb_refl. reflexivity.
  - intros i _. cbn. z3_unfold. cbn. rewrite !Z.eqb_refl. reflexivity.
  - cbn. z3_unfold. cbn. rewrite !eqb_reflx. reflexivity.
Qed.

Variable grid_size : Z.

Let T := length action_list.
Let world := solver (init_environment T grid_size).

(** With a run that records every timestep, a model of the world model
    and the binding gives the constants of the horizon the recorded
    values. *)
Lemma bound_model_agrees (m : Model) :
  length agent_position_list = T ->
  models m (world ++ run) = true -> agree T m the_model.
Proof.
  intros Hlen Hm. rewrite models_app, andb_true_iff in Hm.
  destruct Hm as [Hw Hr]. apply models_world in Hw.
  destruct Hw as (_ & _ & _ & Hdist & _).
  assert (Hpin := fun t Ht => run_constraints_pin m t Hr Ht).
  rewrite Hlen in Hpin.
  unfold agree. split; [|split; [|split]].
  - intros ax t Ht. destruct (Hpin t Ht) as (H & _ & _). apply H.
  - intros i ax t Hi Ht. destruct (Hpin t Ht) as (_ & H & _). apply H, Hi.
  - intros i ax t Hi Ht. destruct (Hpin t Ht) as (Ha & Hg & _).
    rewrite (Hdist t ax i Ht Hi), Ha, (Hg i ax Hi). reflexivity.
  - intros d t Ht. destruct (Hpin t Ht) as (_ & _ & H). apply H.
Qed.

(** So the assertions of a check on such a run are satisfiable exactly
    when the recorded run itself is a model of them. *)
Lemma satisfiable_iff_run_model (extra : list BoolRef) :
  length agent_position_list = T ->
  all_local T extra ->
  satisfiable ((world ++ run) ++ extra)
  <-> models the_model ((world ++ run) ++ extra) = true.
Proof.
  intros Hlen Hextra. split.
  - intros [m Hm].
    assert (Hagree : agree T m the_model).
    { apply bound_model_agrees; [exact Hlen|].
      rewrite models_app, andb_true_iff in Hm. tauto. }
    rewrite <- Hm. symmetry. apply (local_models T); [|exact Hagree].
    apply all_local_app; [apply all_local_app|].
    + apply world_local.
    + apply run_local. lia.
    + exact Hextra.
  - intros H. exists the_model. exact H.
Qed.

End Pinning.

(* ------------------------------------------------------------------------- *)
(** ** check_run *)

Section Shapes.

Variable agent_position_list : list position.
Variable target_position_list : list (list position).
Variable action_list : list Z.

Lemma well_shaped_spec :
  well_shaped agent_position_list target_position_list action_list = true
  <-> length agent_position_list = length action_list
      /\ length target_position_list = length action_list
      /\ forall t, t < length action_list ->
           length (nth t target_position_list []) = 3.
Proof.
  unfold well_shaped.
  rewrite !andb_true_iff, !Nat.eqb_eq, forallb_forall. split.
  - intros [[H1 H2] H3]. repeat split; try assumption.
    intros t Ht. apply Nat.eqb_eq, H3, nth_In. lia.
  - intros (H1 & H2 & H3). repeat split; try assumption.
    intros g Hg. destruct (In_nth _ _ [] Hg) as (t & Ht & <-).
    apply Nat.eqb_eq, H3. lia.
Qed.

Lemma well_shaped_in_range :
  well_shaped agent_position_list target_position_list action_list = true ->
  subscripts_in_range agent_position_list target_position_list action_list
  = true.
Proof.
  intros H. apply well_shaped_spec in H. destruct H as (H1 & H2 & H3).
  apply subscripts_in_range_spec. split; [lia|].
  intros t Ht. rewrite H3; lia.
Qed.

End Shapes.

Lemma check_run_unfold (agent_position_list : list position)
    (target_position_list : list (list position)) (action_list : list Z)
    (grid_size : Z) :
  check_run agent_position_list target_position_list action_list grid_size
  = if subscripts_in_range agent_position_list target_position_list
                           action_list
    then Ok (solver (init_environment (length action_list) grid_size)
             ++ run_constraints agent_position_list target_position_list
                                action_list)
    else Raise IndexError.
Proof.
  unfold check_run.
  destruct (subscripts_in_range _ _ _) eqn:E.
  - apply bind_run_Ok, E.
  - apply bind_run_Raise, E.
Qed.

(** C4, amended.  [check_run] validates no shape and knows no ShapeMismatch
    error.  It raises IndexError exactly when a subscript of its binding
    loop is out of range: the agent trace is longer than the action trace,
    or a timestep below the agent trace's length has no target entry or
    fewer than three targets.  In every other case, equal lengths or not, it
    raises nothing and hands the solver the world model of
    [len(action_list)] timesteps with the first [len(agent_position_list)]
    timesteps bound, three targets each. *)
Theorem check_run_shape (agent_position_list : list position)
    (target_position_list : list (list position)) (action_list : list Z)
    (grid_size : Z) :
  (raises (check_run agent_position_list target_position_list action_list
                     grid_size) IndexError
   <-> (length action_list < length agent_position_list
        \/ exists t, t < length agent_position_list
                     /\ length (nth t target_position_list []) < 3))
  /\ (check_run agent_position_list target_position_list action_list grid_size
      = Ok (solver (init_environment (length action_list) grid_size)
            ++ run_constraints agent_position_list target_position_list
                               action_list)
      <-> length agent_position_list <= length action_list
          /\ forall t, t < length agent_position_list ->
               3 <= length (nth t target_position_list [])).
Proof.
  unfold raises. rewrite check_run_unfold.
  rewrite <- subscripts_in_range_spec.
  destruct (subscripts_in_range _ _ _) eqn:E.
  - split; [|tauto]. split; [discriminate|].
    apply subscripts_in_range_spec in E. destruct E as [E1 E2].
    intros [H|(t & Ht & H)]; [lia|]. specialize (E2 t Ht). lia.
  - split; [|split; discriminate]. split; [|reflexivity]. intros _.
    destruct (Nat.le_gt_cases (length agent_position_list)
                              (length action_list)) as [Hle|Hgt];
      [|left; exact Hgt].
    right.
    unfold subscripts_in_range in E.
    apply Nat.leb_le in Hle. rewrite Hle in E. cbn [andb] in E.
    assert (Hex : existsb
              (fun t => negb (3 <=? length (nth t target_position_list [])))
              (range (length agent_position_list)) = true).
    { clear Hle. induction (range (length agent_position_list)) as [|t ts IH];
        [discriminate|].
      cbn [forallb existsb] in *.
      destruct (3 <=? length (nth t target_position_list []));
        cbn [negb andb orb] in *; [apply IH, E | reflexivity]. }
    apply existsb_exists in Hex. destruct Hex as (t & Ht & Hlt).
    exists t. apply in_range in Ht. split; [exact Ht|].
    apply negb_true_iff, Nat.leb_gt in Hlt. exact Hlt.
Qed.

(** C4, counterexample.  Two calls with inconsistent shapes that return
    [sat]: an empty agent trace and an empty target trace with one action;
    and a timestep with four targets, the fourth outside the grid. *)
Lemma check_run_accepts_mismatch :
  well_shaped [] [] [0%Z] = false
  /\ returns (check_run [] [] [0%Z] 3) sat
  /\ well_shaped [(1, 1)]%Z [ [(0, 0); (0, 2); (2, 2); (9, 9)] ]%Z [0%Z] = false
  /\ returns (check_run [(1, 1)]%Z [ [(0, 0); (0, 2); (2, 2); (9, 9)] ]%Z
                        [0%Z] 3) sat.
Proof.
  split; [reflexivity|]. split; [|split; [reflexivity|]].
  - eexists. split; [rewrite check_run_unfold; reflexivity|].
    apply check_sat. exists single_step. vm_compute. reflexivity.
  - eexists. split; [rewrite check_run_unfold; reflexivity|].
    apply check_sat. exists single_step. vm_compute. reflexivity.
Qed.

Lemma check_run_Ok (agent_position_list : list position)
    (target_position_list : list (list position)) (action_list : list Z)
    (grid_size : Z) :
  well_shaped agent_position_list target_position_list action_list = true ->
  check_run agent_position_list target_position_list action_list grid_size
  = Ok (solver (init_environment (length action_list) grid_size)
        ++ run_constraints agent_position_list target_position_list
                           action_list).
Proof.
  intros H. rewrite check_run_unfold, (well_shaped_in_range _ _ _ H).
  reflexivity.
Qed.

(** C2, amended.  The world model alone leaves the direction constants
    free.  Once a run is bound, every direction constant of a bound
    timestep is true exactly when the recorded action is its code (0 north,
    1 east, 2 south, 3 west): in every model of the assertions of
    [check_run], at most one direction constant is true at a bound timestep,
    and exactly one when the recorded action is one of 0, 1, 2, 3. *)
Theorem bound_directions (agent_position_list : list position)
    (target_position_list : list (list position)) (action_list : list Z)
    (grid_size : Z) (s : list BoolRef) (m : Model) (t : nat) :
  check_run agent_position_list target_position_list action_list grid_size
  = Ok s ->
  models m s = true ->
  t < length agent_position_list ->
  (forall d, bool_value m (dir_ d t)
             = (action_at action_list t =? action_code d)%Z)
  /\ directions_true m t <= 1
  /\ (directions_true m t = 1 <-> (0 <= action_at action_list t <= 3)%Z).
Proof.
  intros Hs Hm Ht. rewrite check_run_unfold in Hs.
  destruct (subscripts_in_range _ _ _); [|discriminate].
  injection Hs as <-. rewrite models_app, andb_true_iff in Hm.
  destruct Hm as [_ Hm].
  destruct (run_constraints_pin _ _ _ m t Hm Ht) as (_ & _ & Hd).
  split; [exact Hd|].
  unfold directions_true. cbn [filter]. rewrite !Hd. cbn [action_code].
  destruct (Z.eqb_spec (action_at action_list t) 0);
    destruct (Z.eqb_spec (action_at action_list t) 1);
    destruct (Z.eqb_spec (action_at action_list t) 2);
    destruct (Z.eqb_spec (action_at action_list t) 3);
    cbn [length]; lia.
Qed.

Lemma bound_directions_witness :
  (forall d, bool_value small_run_model (dir_ d 0)
             = (action_at [0; 0]%Z 0 =? action_code d)%Z)
  /\ directions_true small_run_model 0 <= 1
  /\ (directions_true small_run_model 0 = 1
      <-> (0 <= action_at [0; 0]%Z 0 <= 3)%Z).
Proof.
  eapply (bound_directions small_run_agent small_run_targets [0; 0]%Z 3).
  - reflexivity.
  - vm_compute. reflexivity.
  - cbn. lia.
Defined.

Lemma outside_spec (N : Z) (p : position) :
  outside N p = true
  <-> ~ ((0 <= fst p < N)%Z /\ (0 <= snd p < N)%Z).
Proof.
  unfold outside.
  rewrite negb_true_iff, <- not_true_iff_false, !andb_true_iff,
    !Z.leb_le, !Z.ltb_lt.
  tauto.
Qed.

(** C8.  For a run whose three sequences have one length and whose every
    timestep records three targets: if some recorded agent or target
    coordinate lies outside [0, grid_size), [check_run] returns [unsat]. *)
Theorem out_of_bounds_unsat (agent_position_list : list position)
    (target_position_list : list (list position)) (action_list : list Z)
    (grid_size : Z) :
  well_shaped agent_position_list target_position_list action_list = true ->
  out_of_bounds agent_position_list target_position_list grid_size = true ->
  returns (check_run agent_position_list target_position_list action_list
                     grid_size) unsat.
Proof.
  intros Hshape Hout. eexists. split; [apply check_run_Ok, Hshape|].
  apply check_unsat. intros [m Hm].
  apply well_shaped_spec in Hshape. destruct Hshape as (Hla & Hlt & Hthree).
  rewrite models_app, andb_true_iff in Hm. destruct Hm as [Hw Hr].
  apply models_world in Hw. destruct Hw as (Hgrid & _).
  assert (Hpin := fun t Ht => run_constraints_pin _ _ _ m t Hr Ht).
  unfold out_of_bounds in Hout. apply orb_true_iff in Hout.
  destruct Hout as [Hout|Hout].
  - apply existsb_exists in Hout. destruct Hout as (p & Hp & Hout).
    destruct (In_nth agent_position_list p (0, 0)%Z Hp) as (t & Ht & Hnth).
    apply outside_spec in Hout. apply Hout.
    destruct (Hpin t Ht) as (Ha & _ & _).
    pose proof (Ha row) as Har. pose proof (Ha column) as Hac.
    change (agent_at agent_position_list t = p) in Hnth.
    rewrite Hnth in Har, Hac.
    cbn [coordinate] in Har, Hac.
    assert (HtT : t < length action_list) by lia.
    pose proof (Hgrid t row HtT) as (_ & Hr1 & Hr2).
    pose proof (Hgrid t column HtT) as (_ & Hc1 & Hc2).
    lia.
  - apply existsb_exists in Hout. destruct Hout as (g & Hg & Hout).
    apply existsb_exists in Hout. destruct Hout as (p & Hp & Hout).
    destruct (In_nth target_position_list g [] Hg) as (t & Ht & Hnth).
    destruct (In_nth g p (0, 0)%Z Hp) as (i & Hi & Hnthi).
    assert (HtT : t < length action_list) by lia.
    assert (Hi3 : i < 3).
    { rewrite <- (Hthree t HtT). rewrite Hnth. exact Hi. }
    apply outside_spec in Hout. apply Hout.
    destruct (Hpin t ltac:(lia)) as (_ & Hgo & _).
    pose proof (Hgo i row Hi3) as Hrow. pose proof (Hgo i column Hi3) as Hcol.
    assert (Hp' : target_at target_position_list t i = p).
    { unfold target_at. rewrite Hnth. exact Hnthi. }
    rewrite Hp' in Hrow, Hcol. cbn [coordinate] in Hrow, Hcol.
    destruct (Hgrid t row HtT) as (Hr0 & _).
    destruct (Hgrid t column HtT) as (Hc0 & _).
    specialize (Hr0 i Hi3). specialize (Hc0 i Hi3). lia.
Qed.

Lemma out_of_bounds_unsat_witness :
  returns (check_run [(5, 5)]%Z [ [(0, 0); (0, 2); (2, 2)] ]%Z [0%Z] 3) unsat.
Proof. apply out_of_bounds_unsat; reflexivity. Defined.

(** A well-shaped run is consistent with the world model exactly when the
    recorded run itself is a model of world model and binding. *)
Lemma check_run_sat_iff (agent_position_list : list position)
    (target_position_list : list (list position)) (action_list : list Z)
    (grid_size : Z) :
  well_shaped agent_position_list target_position_list action_list = true ->
  returns (check_run agent_position_list target_position_list action_list
                     grid_size) sat
  <-> models (run_model agent_position_list target_position_list action_list)
             (solver (init_environment (length action_list) grid_size)
              ++ run_constraints agent_position_list target_position_list
                                 action_list) = true.
Proof.
  intros Hshape. unfold returns. rewrite (check_run_Ok _ _ _ _ Hshape).
  split.
  - intros (s & Hs & Hc). injection Hs as <-. inversion Hc as [Hsat|].
    apply well_shaped_spec in Hshape. destruct Hshape as (Hla & _).
    pose proof (satisfiable_iff_run_model agent_position_list
                  target_position_list action_list grid_size [] Hla
                  (all_local_nil _)) as Hiff.
    rewrite app_nil_r in Hiff. apply Hiff, Hsat.
  - intros Hm. eexists. split; [reflexivity|].
    apply check_sat. eexists. exact Hm.
Qed.

(** A check on a well-shaped run that hands the solver world model,
    binding and further constraints on the constants of the horizon returns
    [sat] or [unsat] according to whether the recorded run is a model of
    all of them. *)
Lemma returns_iff (agent_position_list : list position)
    (target_position_list : list (list position)) (action_list : list Z)
    (grid_size : Z) (call : result (list BoolRef)) (extra : list BoolRef) :
  well_shaped agent_position_list target_position_list action_list = true ->
  call = Ok ((solver (init_environment (length action_list) grid_size)
              ++ run_constraints agent_position_list target_position_list
                                 action_list) ++ extra) ->
  all_local (length action_list) extra ->
  (returns call sat
   <-> models (run_model agent_position_list target_position_list action_list)
              ((solver (init_environment (length action_list) grid_size)
                ++ run_constraints agent_position_list target_position_list
                                   action_list) ++ extra) = true)
  /\ (returns call unsat
      <-> models (run_model agent_position_list target_position_list
                            action_list)
                 ((solver (init_environment (length action_list) grid_size)
                   ++ run_constraints agent_position_list
                                      target_position_list action_list)
                  ++ extra) = false).
Proof.
  intros Hshape -> Hlocal.
  apply well_shaped_spec in Hshape. destruct Hshape as (Hla & _).
  pose proof (satisfiable_iff_run_model agent_position_list
                target_position_list action_list grid_size extra Hla Hlocal)
    as Hiff.
  unfold returns. split; split.
  - intros (s & Hs & Hc). injection Hs as <-. inversion Hc. tauto.
  - intros H. eexists. split; [reflexivity|]. apply check_sat. tauto.
  - intros (s & Hs & Hc). injection Hs as <-. inversion Hc as [|Hunsat].
    apply not_true_is_false. tauto.
  - intros H. eexists. split; [reflexivity|]. apply check_unsat.
    rewrite Hiff, H. discriminate.
Qed.

(** If the run is moreover consistent with the world model, the further
    constraints decide. *)
Lemma returns_decided (agent_position_list : list position)
    (target_position_list : list (list position)) (action_list : list Z)
    (grid_size : Z) (call : result (list BoolRef)) (extra : list BoolRef) :
  well_shaped agent_position_list target_position_list action_list = true ->
  returns (check_run agent_position_list target_position_list action_list
                     grid_size) sat ->
  call = Ok ((solver (init_environment (length action_list) grid_size)
              ++ run_constraints agent_position_list target_position_list
                                 action_list) ++ extra) ->
  all_local (length action_list) extra ->
  (returns call sat
   <-> models (run_model agent_position_list target_position_list action_list)
              extra = true)
  /\ (returns call unsat
      <-> models (run_model agent_position_list target_position_list
                            action_list) extra = false).
Proof.
  intros Hshape Hvalid Hcall Hlocal.
  apply (check_run_sat_iff _ _ _ _ Hshape) in Hvalid.
  destruct (returns_iff _ _ _ _ _ _ Hshape Hcall Hlocal) as [Hsat Hunsat].
  rewrite models_app, Hvalid in Hsat, Hunsat. cbn [andb] in Hsat, Hunsat.
  split; assumption.
Qed.

(* ------------------------------------------------------------------------- *)
(** ** find_loop *)

Section FindLoop.

Variable agent_position_list : list position.
Variable target_position_list : list (list position).
Variable action_list : list Z.
Variable grid_size : Z.

Let T := length action_list.
Let env := init_environment T grid_size.
Let the_model := run_model agent_position_list target_position_list
                           action_list.

Lemma loop_constraint_Ok (t : nat) :
  t + 1 < T -> loop_constraint env t = Ok (loop_formula t).
Proof.
  intros Ht. unfold loop_constraint, env.
  rewrite !subscript_agent_position, !subscript_target_positions,
    !subscript_agent_direction by lia.
  reflexivity.
Qed.

Lemma find_loop_Ok :
  well_shaped agent_position_list target_position_list action_list = true ->
  find_loop agent_position_list target_position_list action_list grid_size
  = Ok ((solver env
         ++ run_constraints agent_position_list target_position_list
                            action_list)
        ++ flat_map (fun t => [loop_formula t]) (range (T - 1))).
Proof.
  intros Hshape. unfold find_loop. fold T. fold env.
  unfold env, T. rewrite bind_run_Ok by apply well_shaped_in_range, Hshape.
  cbn [bind]. apply for_each_appends.
  intros t s Ht. apply in_range in Ht. fold T. fold env.
  rewrite loop_constraint_Ok by lia. reflexivity.
Qed.

Lemma loop_formula_local (t : nat) : t + 1 < T -> local T (loop_formula t).
Proof. intros Ht. unfold loop_formula. local_tac. Qed.

(** On the recorded run the constraint says: no loop at [t]. *)
Lemma loop_formula_run_model (t : nat) :
  loop_formula t the_model
  = negb (loop_at agent_position_list target_position_list action_list t).
Proof.
  unfold loop_formula, loop_at, reaches, reversal. z3_unfold.
  cbn [forallb existsb the_model run_model int_value bool_value coordinate
       action_code].
  f_equal.
  rewrite ?orb_false_r, ?andb_true_r, ?negb_andb, ?orb_assoc, ?andb_assoc.
  reflexivity.
Qed.

End FindLoop.

(** C5.  For a well-shaped run that is consistent with the world model
    ([check_run] returns [sat]): if at some consecutive steps ([t], [t + 1])
    the actions form an immediate reversal and the agent's position at
    [t + 1] is not the position any of the three targets held at [t], then
    [find_loop] returns [unsat]; if there is no such pair of steps,
    [find_loop] returns [sat]. *)
Theorem find_loop_detects_reversal (agent_position_list : list position)
    (target_position_list : list (list position)) (action_list : list Z)
    (grid_size : Z) :
  well_shaped agent_position_list target_position_list action_list = true ->
  returns (check_run agent_position_list target_position_list action_list
                     grid_size) sat ->
  ((exists t, t + 1 < length action_list
              /\ loop_at agent_position_list target_position_list
                         action_list t = true) ->
   returns (find_loop agent_position_list target_position_list action_list
                      grid_size) unsat)
  /\ ((forall t, t + 1 < length action_list ->
         loop_at agent_position_list target_position_list action_list t
         = false) ->
      returns (find_loop agent_position_list target_position_list action_list
                         grid_size) sat).
Proof.
  intros Hshape Hvalid.
  destruct (returns_decided _ _ _ _ _ _ Hshape Hvalid
              (find_loop_Ok _ _ _ grid_size Hshape)) as [Hsat Hunsat].
  { apply all_local_flat_map. intros t Ht. apply in_range in Ht.
    all_local_list. apply loop_formula_local. lia. }
  split.
  - intros (t & Ht & Hloop). apply Hunsat. apply not_true_is_false.
    intros Hm. rewrite models_flat_map in Hm.
    specialize (Hm t). rewrite in_range in Hm. specialize (Hm ltac:(lia)).
    cbn in Hm. rewrite andb_true_r, loop_formula_run_model, Hloop in Hm.
    discriminate.
  - intros Hnone. apply Hsat. apply models_flat_map.
    intros t Ht. apply in_range in Ht. cbn.
    rewrite andb_true_r, loop_formula_run_model, Hnone by lia. reflexivity.
Qed.

Lemma find_loop_detects_reversal_witness :
  returns (find_loop loop_agent loop_targets loop_actions 3) unsat.
Proof.
  refine (proj1 (find_loop_detects_reversal loop_agent loop_targets
                   loop_actions 3 _ _) _).
  - reflexivity.
  - apply check_run_sat_iff; [reflexivity|]. vm_compute. reflexivity.
  - exists 0. split; [cbn; lia | reflexivity].
Defined.

(* ------------------------------------------------------------------------- *)
(** ** The scan for changed targets *)

Section Scan.

Variable agent_position_list : list position.
Variable target_position_list : list (list position).
Variable action_list : list Z.

Let T := length action_list.

Hypothesis Hshape :
  well_shaped agent_position_list target_position_list action_list = true.

Lemma target_changed_Ok (t i : nat) :
  t + 1 < T -> i < 3 ->
  target_changed target_position_list t i
  = Ok (changes target_position_list t i).
Proof.
  intros Ht Hi. apply well_shaped_spec in Hshape.
  destruct Hshape as (_ & Hlt & Hthree).
  unfold target_changed.
  rewrite (subscript_Ok target_position_list t []) by (fold T in Hlt; lia).
  cbn [bind].
  rewrite (subscript_Ok (nth t target_position_list []) i (0, 0)%Z)
    by (rewrite Hthree; fold T; lia).
  cbn [bind].
  rewrite (subscript_Ok target_position_list (t + 1) [])
    by (fold T in Hlt; lia).
  cbn [bind].
  rewrite (subscript_Ok (nth (t + 1) target_position_list []) i (0, 0)%Z)
    by (rewrite Hthree; fold T; lia).
  reflexivity.
Qed.

Lemma find_chosen_targets_Ok :
  find_chosen_targets target_position_list action_list
  = Ok (change_events target_position_list action_list).
Proof.
  unfold find_chosen_targets, change_events. fold T.
  rewrite (for_each_appends (range (T - 1)) _
    (fun t => flat_map (fun i =>
       if changes target_position_list t i then [(i, t + 1)] else [])
       (range 3))); [reflexivity|].
  intros t s Ht. apply in_range in Ht.
  apply for_each_appends. intros i s' Hi. apply in_range in Hi.
  rewrite target_changed_Ok by lia. cbn [bind].
  destruct (changes target_position_list t i);
    [reflexivity | rewrite app_nil_r; reflexivity].
Qed.

Lemma find_choices_Ok :
  find_choices target_position_list action_list
  = Ok (map fst (change_events target_position_list action_list),
        0 :: map snd (change_events target_position_list action_list)).
Proof.
  unfold find_choices, change_events. fold T.
  pose (act := fun (st : list nat * list nat) (items : list (nat * nat)) =>
                 (fst st ++ map fst items, snd st ++ map snd items)).
  assert (Hnil : forall st, act st [] = st).
  { intros [a b]. unfold act. cbn. rewrite !app_nil_r. reflexivity. }
  assert (Happ : forall st a b, act (act st a) b = act st (a ++ b)).
  { intros [u v] a b. unfold act. cbn.
    rewrite !map_app, !app_assoc. reflexivity. }
  rewrite (for_each_acts act (range (T - 1)) _
    (fun t => flat_map (fun i =>
       if changes target_position_list t i then [(i, t + 1)] else [])
       (range 3)) Hnil Happ); [reflexivity|].
  intros t st Ht. apply in_range in Ht.
  apply (for_each_acts act); [exact Hnil | exact Happ |].
  intros i st' Hi. apply in_range in Hi.
  rewrite target_changed_Ok by lia. cbn [bind].
  destruct (changes target_position_list t i).
  - reflexivity.
  - rewrite Hnil. reflexivity.
Qed.

(** Every change event names one of the three targets and a timestep
    from 1 to [T - 1]. *)
Lemma change_events_range (g t : nat) :
  In (g, t) (change_events target_position_list action_list) ->
  g < 3 /\ 1 <= t < T.
Proof.
  unfold change_events. fold T. intros H.
  apply in_flat_map in H. destruct H as (t0 & Ht0 & H).
  apply in_flat_map in H. destruct H as (i & Hi & H).
  apply in_range in Ht0, Hi.
  destruct (changes target_position_list t0 i); [|destruct H].
  destruct H as [H|[]]. injection H as <- <-. lia.
Qed.

End Scan.

(* ------------------------------------------------------------------------- *)
(** ** find_efficient_path *)

Section EfficientPath.

Variable grid_size : Z.
Variable T : nat.

Let env := init_environment T grid_size.

Lemma efficiency_constraints_Ok (g t : nat) (s : list BoolRef) :
  t < T ->
  efficiency_constraints env g t s = Ok (s ++ efficiency_at (g, t)).
Proof.
  intros Ht. unfold efficiency_constraints, env.
  rewrite !subscript_target_positions, !subscript_agent_position,
    !subscript_agent_direction by exact Ht.
  cbn [bind]. unfold add, efficiency_at. cbn [fst snd].
  rewrite <- !app_assoc. reflexivity.
Qed.

(** The loop adds the four constraints for the pairs of [pursuit], in
    order. *)
Lemma efficiency_loop_Ok (chosen_targets : list (nat * nat)) (ts : list nat) :
  (forall t, In t ts -> t < T) ->
  forall it current_target arr_time s,
    it < length chosen_targets ->
    efficiency_loop env chosen_targets ts it current_target arr_time s
    = Ok (s ++ flat_map efficiency_at
                 (pursuit chosen_targets ts it current_target arr_time)).
Proof.
  induction ts as [|t ts IH]; intros Hts it cur arr s Hit.
  - cbn. rewrite app_nil_r. reflexivity.
  - assert (Ht : t < T) by (apply Hts; left; reflexivity).
    assert (Hts' : forall t', In t' ts -> t' < T)
      by (intros; apply Hts; right; assumption).
    cbn [efficiency_loop pursuit].
    destruct (t =? arr).
    + destruct (Nat.eqb_spec (it + 1) (length chosen_targets)) as [|Hne].
      * cbn. rewrite app_nil_r. reflexivity.
      * rewrite (subscript_Ok chosen_targets (it + 1) (0, 0)) by lia.
        cbn [bind]. rewrite efficiency_constraints_Ok by exact Ht.
        cbn [bind]. rewrite IH by (try assumption; lia).
        cbn [flat_map]. rewrite <- app_assoc. reflexivity.
    + rewrite efficiency_constraints_Ok by exact Ht.
      cbn [bind]. rewrite IH by assumption.
      cbn [flat_map]. rewrite <- app_assoc. reflexivity.
Qed.

Lemma efficiency_at_local (g t : nat) :
  g < 3 -> t < T -> all_local T (efficiency_at (g, t)).
Proof.
  intros Hg Ht. unfold efficiency_at. cbn [fst snd].
  all_local_list; local_tac.
Qed.


End EfficientPath.

Section EfficientPathRun.

Variable agent_position_list : list position.
Variable target_position_list : list (list position).
Variable action_list : list Z.
Variable grid_size : Z.

Let T := length action_list.
Let env := init_environment T grid_size.
Let events := change_events target_position_list action_list.
Let schedule := pursuit_schedule target_position_list action_list.
Let the_model := run_model agent_position_list target_position_list
                           action_list.

Hypothesis Hshape :
  well_shaped agent_position_list target_position_list action_list = true.

Lemma find_efficient_path_Ok :
  events <> [] ->
  find_efficient_path agent_position_list target_position_list action_list
                      grid_size
  = Ok ((solver env
         ++ run_constraints agent_position_list target_position_list
                            action_list)
        ++ flat_map efficiency_at schedule).
Proof.
  intros Hne. unfold find_efficient_path.
  rewrite bind_run_Ok by apply well_shaped_in_range, Hshape.
  cbn [bind]. rewrite (find_chosen_targets_Ok _ _ _ Hshape). cbn [bind].
  fold events.
  rewrite (subscript_Ok events 0 (0, 0))
    by (destruct events; [contradiction | cbn; lia]).
  cbn [bind]. apply efficiency_loop_Ok.
  - intros t Ht. apply in_range in Ht. exact Ht.
  - destruct events; [contradiction | cbn; lia].
Qed.

Lemma find_efficient_path_Raise :
  events = [] ->
  find_efficient_path agent_position_list target_position_list action_list
                      grid_size
  = Raise IndexError.
Proof.
  intros He. unfold find_efficient_path.
  rewrite bind_run_Ok by apply well_shaped_in_range, Hshape.
  cbn [bind]. rewrite (find_chosen_targets_Ok _ _ _ Hshape). cbn [bind].
  fold events. rewrite He. reflexivity.
Qed.

Lemma pursuit_In (chosen_targets : list (nat * nat)) (ts : list nat) :
  forall it cur arr g t,
    it < length chosen_targets ->
    In (g, t) (pursuit chosen_targets ts it cur arr) ->
    In t ts
    /\ (g = cur \/ exists k, k < length chosen_targets
                             /\ g = fst (nth k chosen_targets (0, 0))).
Proof.
  induction ts as [|t0 ts IH]; intros it cur arr g t Hit H; [destruct H|].
  cbn [pursuit] in H. destruct (t0 =? arr).
  - destruct (Nat.eqb_spec (it + 1) (length chosen_targets)) as [|Hne];
      [destruct H|].
    assert (Hlt : it + 1 < length chosen_targets) by lia.
    destruct H as [H|H].
    + injection H as <- <-. split; [left; reflexivity|].
      right. exists (it + 1). split; [exact Hlt | reflexivity].
    + destruct (IH _ _ _ _ _ Hlt H) as [Hin [Hg|Hg]].
      * split; [right; exact Hin|].
        right. exists (it + 1). split; [exact Hlt | exact Hg].
      * split; [right; exact Hin | right; exact Hg].
  - destruct H as [H|H].
    + injection H as <- <-. split; [left; reflexivity | left; reflexivity].
    + destruct (IH _ _ _ _ _ Hit H) as [Hin Hg].
      split; [right; exact Hin | exact Hg].
Qed.

(** Every pair of the schedule names one of the three targets and a
    timestep of the horizon. *)
Lemma schedule_range (g t : nat) :
  events <> [] -> In (g, t) schedule -> g < 3 /\ t < T.
Proof.
  intros Hne H. unfold schedule, pursuit_schedule in H. fold events in H.
  assert (Hlen : 0 < length events)
    by (destruct events; [contradiction | cbn; lia]).
  apply pursuit_In in H; [|exact Hlen].
  destruct H as [Ht Hg]. apply in_range in Ht. split; [|exact Ht].
  assert (Hk : forall k, k < length events ->
                 fst (nth k events (0, 0)) < 3).
  { intros k Hk.
    pose proof (nth_In events (0, 0) Hk) as Hin.
    destruct (nth k events (0, 0)) as [g' t'].
    apply change_events_range in Hin. cbn. lia. }
  destruct Hg as [->|(k & Hk' & ->)]; [apply Hk, Hlen | apply Hk, Hk'].
Qed.

Lemma schedule_local :
  events <> [] -> all_local T (flat_map efficiency_at schedule).
Proof.
  intros Hne. apply all_local_flat_map. intros [g t] Hgt.
  destruct (schedule_range g t Hne Hgt).
  apply efficiency_at_local; assumption.
Qed.

(** On the recorded run the four constraints say: the move at [t] does not
    lead away from target [g]. *)
Lemma efficiency_at_run_model (gt : nat * nat) :
  models the_model (efficiency_at gt)
  = moves_toward agent_position_list target_position_list action_list gt.
Proof.
  unfold efficiency_at, moves_toward, models, implb. z3_unfold.
  cbn [forallb the_model run_model int_value bool_value coordinate
       action_code].
  rewrite andb_true_r, !andb_assoc. reflexivity.
Qed.

Lemma schedule_run_model :
  models the_model (flat_map efficiency_at schedule)
  = forallb (moves_toward agent_position_list target_position_list
                          action_list) schedule.
Proof.
  induction schedule as [|gt rest IH]; [reflexivity|].
  cbn [flat_map forallb]. rewrite models_app, efficiency_at_run_model, IH.
  reflexivity.
Qed.

End EfficientPathRun.

(* ------------------------------------------------------------------------- *)
(** ** Runs without a change event *)

Lemma flat_map_nil {A B : Type} (f : A -> list B) (xs : list A) :
  (forall x, In x xs -> f x = []) -> flat_map f xs = [].
Proof.
  induction xs as [|x xs IH]; intros H; [reflexivity|].
  cbn. rewrite (H x (or_introl eq_refl)). apply IH.
  intros y Hy. apply H. right. exact Hy.
Qed.

Lemma change_events_nil (target_position_list : list (list position))
    (action_list : list Z) :
  (forall t i, t + 1 < length action_list -> i < 3 ->
     changes target_position_list t i = false) ->
  change_events target_position_list action_list = [].
Proof.
  intros H. unfold change_events.
  apply flat_map_nil. intros t Ht. apply in_range in Ht.
  apply flat_map_nil. intros i Hi. apply in_range in Hi.
  rewrite H by lia. reflexivity.
Qed.

(** C9.  For a well-shaped run in which no target changes position between
    two consecutive timesteps, the scan of [find_efficient_path] finds no
    chosen target and the subscript [chosen_targets[0]] raises IndexError:
    the check returns no satisfiability result. *)
Theorem no_capture_raises (agent_position_list : list position)
    (target_position_list : list (list position)) (action_list : list Z)
    (grid_size : Z) :
  well_shaped agent_position_list target_position_list action_list = true ->
  (forall t i, t + 1 < length action_list -> i < 3 ->
     changes target_position_list t i = false) ->
  find_chosen_targets target_position_list action_list = Ok []
  /\ subscript (@nil (nat * nat)) 0 = Raise IndexError
  /\ raises (find_efficient_path agent_position_list target_position_list
                                 action_list grid_size) IndexError
  /\ forall r, ~ returns (find_efficient_path agent_position_list
                            target_position_list action_list grid_size) r.
Proof.
  intros Hshape Hnone.
  pose proof (change_events_nil _ _ Hnone) as Hnil.
  pose proof (find_efficient_path_Raise _ _ _ grid_size Hshape Hnil) as Hr.
  split; [|split; [reflexivity|split; [exact Hr|]]].
  - rewrite (find_chosen_targets_Ok _ _ _ Hshape), Hnil. reflexivity.
  - intros r (s & Hs & _). rewrite Hr in Hs. discriminate.
Qed.

Lemma no_capture_raises_witness :
  find_chosen_targets loop_targets loop_actions = Ok []
  /\ subscript (@nil (nat * nat)) 0 = Raise IndexError
  /\ raises (find_efficient_path loop_agent loop_targets loop_actions 3)
            IndexError
  /\ forall r, ~ returns (find_efficient_path loop_agent loop_targets
                                              loop_actions 3) r.
Proof.
  apply (no_capture_raises loop_agent loop_targets loop_actions 3).
  - reflexivity.
  - intros t i Ht Hi. cbn in Ht.
    destruct t as [|[|t]]; [| |lia];
      destruct i as [|[|[|i]]]; try lia; reflexivity.
Defined.

(* ------------------------------------------------------------------------- *)
(** ** The schedule when one target changes per step *)

Lemma increasing_last (post : list (nat * nat)) :
  forall cur arr,
    increasing (arr :: map snd post) = true ->
    arr <= snd (last ((cur, arr) :: post) (0, 0)).
Proof.
  induction post as [|[c a] post IH]; intros cur arr H.
  - cbn. lia.
  - cbn [map snd increasing] in H. apply andb_true_iff in H.
    destruct H as [Hlt H]. apply Nat.ltb_lt in Hlt.
    specialize (IH c a H).
    change (last ((cur, arr) :: (c, a) :: post) (0, 0))
      with (last ((c, a) :: post) (0, 0)).
    lia.
Qed.

Lemma pursued_skip (events : list (nat * nat)) (cur arr t : nat) :
  arr <= t -> pursued ((cur, arr) :: events) t = pursued events t.
Proof.
  intros H. unfold pursued. cbn [find snd].
  destruct (Nat.ltb_spec t arr); [lia | reflexivity].
Qed.

Lemma pursued_head (events : list (nat * nat)) (cur arr t : nat) :
  t < arr -> pursued ((cur, arr) :: events) t = cur.
Proof.
  intros H. unfold pursued. cbn [find snd].
  destruct (Nat.ltb_spec t arr); [reflexivity | lia].
Qed.

(** With arrival times that increase strictly, the loop follows the change
    events one by one and stops at the last arrival. *)
Lemma pursuit_increasing (n : nat) :
  forall a pre cur arr post,
    increasing (arr :: map snd post) = true ->
    a <= arr ->
    pursuit (pre ++ (cur, arr) :: post) (seq a n) (length pre) cur arr
    = map (fun t => (pursued ((cur, arr) :: post) t, t))
          (seq a (Nat.min n (snd (last ((cur, arr) :: post) (0, 0)) - a))).
Proof.
  induction n as [|n IH]; intros a pre cur arr post Hinc Ha; [reflexivity|].
  pose proof (increasing_last post cur arr Hinc) as Hlast.
  cbn [seq pursuit].
  destruct (Nat.eqb_spec a arr) as [->|Hne].
  - destruct post as [|[c a'] post].
    + rewrite length_app. cbn [length]. rewrite Nat.eqb_refl.
      cbn [last snd]. rewrite Nat.sub_diag, Nat.min_0_r. reflexivity.
    + rewrite length_app. cbn [length].
      destruct (Nat.eqb_spec (length pre + 1)
                             (length pre + S (S (length post)))); [lia|].
      assert (Hnth : nth (length pre + 1)
                         (pre ++ (cur, arr) :: (c, a') :: post) (0, 0)
                     = (c, a')).
      { rewrite app_nth2 by lia.
        replace (length pre + 1 - length pre) with 1 by lia. reflexivity. }
      rewrite Hnth. cbn [fst snd].
      cbn [map snd increasing] in Hinc. apply andb_true_iff in Hinc.
      destruct Hinc as [Hlt Hinc]. apply Nat.ltb_lt in Hlt.
      pose proof (increasing_last post c a' Hinc) as Hlast'.
      change (last ((cur, arr) :: (c, a') :: post) (0, 0))
        with (last ((c, a') :: post) (0, 0)) in *.
      replace (pre ++ (cur, arr) :: (c, a') :: post)
        with ((pre ++ [(cur, arr)]) ++ (c, a') :: post)
        by (rewrite <- app_assoc; reflexivity).
      replace (length pre + 1) with (length (pre ++ [(cur, arr)]))
        by (rewrite length_app; reflexivity).
      rewrite IH by (try assumption; lia).
      replace (Nat.min (S n) (snd (last ((c, a') :: post) (0, 0)) - arr))
        with (S (Nat.min n (snd (last ((c, a') :: post) (0, 0)) - S arr)))
        by lia.
      cbn [seq map]. f_equal.
      * rewrite pursued_skip by lia. rewrite pursued_head by lia. reflexivity.
      * apply map_ext_in. intros t Ht. apply in_seq in Ht.
        rewrite (pursued_skip _ cur arr) by lia. reflexivity.
  - rewrite IH by (try assumption; lia).
    replace (Nat.min (S n) (snd (last ((cur, arr) :: post) (0, 0)) - a))
      with (S (Nat.min n (snd (last ((cur, arr) :: post) (0, 0)) - S a)))
      by lia.
    cbn [seq map]. rewrite pursued_head by lia. reflexivity.
Qed.

Lemma schedule_increasing (target_position_list : list (list position))
    (action_list : list Z) :
  change_events target_position_list action_list <> [] ->
  one_change_per_step target_position_list action_list = true ->
  pursuit_schedule target_position_list action_list
  = map (fun t => (pursued (change_events target_position_list action_list) t,
                   t))
        (range (last_arrival target_position_list action_list)).
Proof.
  intros Hne Hinc. unfold pursuit_schedule, one_change_per_step, last_arrival in *.
  pose proof (change_events_range target_position_list action_list) as Hrange.
  destruct (change_events target_position_list action_list) as [|[c a] post]
    eqn:E; [contradiction|].
  cbn [nth fst snd]. cbn [map snd] in Hinc.
  pose proof (pursuit_increasing (length action_list) 0 [] c a post Hinc
                ltac:(lia)) as H.
  cbn [app length] in H. unfold range. rewrite H. rewrite Nat.sub_0_r.
  assert (Hlast : In (last ((c, a) :: post) (0, 0)) ((c, a) :: post)).
  { destruct (exists_last (l := (c, a) :: post) ltac:(discriminate))
      as (l' & e & ->).
    rewrite last_last. apply in_or_app. right. left. reflexivity. }
  destruct (last ((c, a) :: post) (0, 0)) as [g L].
  apply Hrange in Hlast. cbn [snd].
  replace (Nat.min (length action_list) L) with L by lia. reflexivity.
Qed.

(** The result of [find_efficient_path] on a well-shaped run with a change
    event, computed on the recorded run. *)
Lemma find_efficient_path_returns (agent_position_list : list position)
    (target_position_list : list (list position)) (action_list : list Z)
    (grid_size : Z) :
  well_shaped agent_position_list target_position_list action_list = true ->
  change_events target_position_list action_list <> [] ->
  let consistent :=
    models (run_model agent_position_list target_position_list action_list)
           (solver (init_environment (length action_list) grid_size)
            ++ run_constraints agent_position_list target_position_list
                               action_list) in
  let efficient :=
    forallb (moves_toward agent_position_list target_position_list
                          action_list)
            (pursuit_schedule target_position_list action_list) in
  (returns (find_efficient_path agent_position_list target_position_list
                                action_list grid_size) sat
   <-> consistent && efficient = true)
  /\ (returns (find_efficient_path agent_position_list target_position_list
                                   action_list grid_size) unsat
      <-> consistent && efficient = false).
Proof.
  intros Hshape Hne consistent efficient.
  pose proof (returns_iff _ _ _ grid_size _ _ Hshape
                (find_efficient_path_Ok _ _ _ grid_size Hshape Hne)
                (schedule_local _ _ Hne)) as H.
  rewrite models_app, schedule_run_model in H. exact H.
Qed.

(** C10, counterexample.  A well-shaped run on a grid of size 5 that is
    consistent with the world model.  Targets 0 and 1 both change between
    timesteps 0 and 1, so the last change takes effect at timestep 1.  The
    loop adds constraints for target 1 at timesteps 1 and 2; the moves at
    timesteps 0 and 1 lead towards the current target, the move at
    timestep 2 leads away from target 1, and [find_efficient_path] returns
    [unsat]. *)
Lemma constrained_after_last_capture :
  well_shaped double_change_agent double_change_targets double_change_actions
  = true
  /\ returns (check_run double_change_agent double_change_targets
                        double_change_actions 5) sat
  /\ change_events double_change_targets double_change_actions
     = [(0, 1); (1, 1)]
  /\ last_arrival double_change_targets double_change_actions = 1
  /\ pursuit_schedule double_change_targets double_change_actions
     = [(0, 0); (1, 1); (1, 2)]
  /\ map (moves_toward double_change_agent double_change_targets
                       double_change_actions)
         [(0, 0); (1, 1); (1, 2)]
     = [true; true; false]
  /\ returns (find_efficient_path double_change_agent double_change_targets
                                  double_change_actions 5) unsat.
Proof.
  split; [reflexivity|]. split; [|repeat (split; [reflexivity|])].
  - apply check_run_sat_iff; [reflexivity|]. vm_compute. reflexivity.
  - apply find_efficient_path_returns.
    + reflexivity.
    + vm_compute. discriminate.
    + vm_compute. reflexivity.
Qed.

(* ------------------------------------------------------------------------- *)
(** ** closest_target *)

Lemma combine_nth_range {A B : Type} (a : list A) (b : list B) (da : A)
    (db : B) :
  length a = length b ->
  map (fun i => (nth i a da, nth i b db)) (range (length a)) = combine a b.
Proof.
  unfold range. revert b.
  induction a as [|x a IH]; intros [|y b] H; try discriminate; [reflexivity|].
  cbn [length seq map combine nth]. f_equal.
  rewrite <- seq_shift, map_map. cbn [nth]. apply IH.
  cbn in H. lia.
Qed.

Lemma flat_map_map {A B C : Type} (f : B -> list C) (g : A -> B)
    (xs : list A) :
  flat_map f (map g xs) = flat_map (fun x => f (g x)) xs.
Proof.
  induction xs as [|x xs IH]; [reflexivity|]. cbn. rewrite IH. reflexivity.
Qed.

Lemma removelast_cons_length {A : Type} (x : A) (l : list A) :
  length (removelast (x :: l)) = length l.
Proof.
  revert x. induction l as [|y l IH]; intros x; [reflexivity|].
  change (removelast (x :: y :: l)) with (x :: removelast (y :: l)).
  cbn [length]. rewrite IH. reflexivity.
Qed.

Lemma removelast_In {A : Type} (x : A) (l : list A) :
  In x (removelast l) -> In x l.
Proof.
  induction l as [|y l IH]; [intros []|].
  destruct l as [|z l]; [intros []|].
  change (removelast (y :: z :: l)) with (y :: removelast (z :: l)).
  intros [->|H]; [left; reflexivity | right; apply IH, H].
Qed.

Lemma removelast_cons_nth {A : Type} (x d : A) (l : list A) (k : nat) :
  k < length l ->
  nth k (removelast (x :: l)) d
  = match k with 0 => x | S k' => nth k' l d end.
Proof.
  revert x k. induction l as [|y l IH]; intros x k Hk; [cbn in Hk; lia|].
  change (removelast (x :: y :: l)) with (x :: removelast (y :: l)).
  destruct k as [|k]; [reflexivity|].
  cbn [nth]. rewrite IH by (cbn in Hk; lia).
  destruct k; reflexivity.
Qed.

Section ClosestTarget.

Variable agent_position_list : list position.
Variable target_position_list : list (list position).
Variable action_list : list Z.
Variable grid_size : Z.

Let T := length action_list.
Let env := init_environment T grid_size.
Let events := change_events target_position_list action_list.
Let choices := choice_events target_position_list action_list.
Let the_model := run_model agent_position_list target_position_list
                           action_list.

Lemma closest_constraint_Ok (g t g' : nat) :
  t < T ->
  closest_constraint env g t g'
  = Ok (Le (Plus (TD g row t) (TD g column t))
           (Plus (TD g' row t) (TD g' column t))).
Proof.
  intros Ht. unfold closest_constraint, env.
  rewrite !subscript_targets_distance by exact Ht. reflexivity.
Qed.

(** Every choice event names one of the three targets and a timestep of
    the horizon. *)
Lemma choice_events_range (g t : nat) :
  In (g, t) choices -> g < 3 /\ t < T.
Proof.
  unfold choices, choice_events. fold events. intros H.
  pose proof (in_combine_l _ _ _ _ H) as Hg.
  pose proof (in_combine_r _ _ _ _ H) as Ht.
  apply in_map_iff in Hg. destruct Hg as ([g0 t0] & Heq & Hin).
  cbn in Heq. subst g0.
  pose proof (change_events_range _ _ _ _ Hin) as [Hg3 Ht0]. fold T in Ht0.
  split; [exact Hg3|].
  apply removelast_In in Ht. destruct Ht as [<-|Ht]; [lia|].
  apply in_map_iff in Ht. destruct Ht as ([g1 t1] & Heq & Hin1).
  cbn in Heq. subst t1.
  pose proof (change_events_range _ _ _ _ Hin1) as [_ Ht1]. fold T in Ht1.
  lia.
Qed.

Hypothesis Hshape :
  well_shaped agent_position_list target_position_list action_list = true.

Lemma closest_target_Ok :
  closest_target agent_position_list target_position_list action_list
                 grid_size
  = Ok ((solver env
         ++ run_constraints agent_position_list target_position_list
                            action_list)
        ++ flat_map closest_at choices).
Proof.
  unfold closest_target.
  rewrite bind_run_Ok by apply well_shaped_in_range, Hshape.
  cbn [bind]. rewrite (find_choices_Ok _ _ _ Hshape). cbn [bind fst snd].
  fold events.
  set (chosen := map fst events).
  set (times := removelast (0 :: map snd events)).
  assert (Hlen : length chosen = length times).
  { unfold chosen, times. rewrite removelast_cons_length, !length_map.
    reflexivity. }
  assert (Hchoices : choices = combine chosen times) by reflexivity.
  rewrite (for_each_appends (range (length chosen)) _
    (fun i => closest_at (nth i chosen 0, nth i times 0))).
  - rewrite Hchoices, <- (combine_nth_range chosen times 0 0 Hlen).
    rewrite flat_map_map. reflexivity.
  - intros i s Hi. apply in_range in Hi.
    rewrite (subscript_Ok times i 0) by lia. cbn [bind].
    rewrite (subscript_Ok chosen i 0) by lia. cbn [bind].
    assert (Hin : In (nth i chosen 0, nth i times 0) choices).
    { rewrite Hchoices, <- (combine_nth_range chosen times 0 0 Hlen).
      apply (in_map (fun i => (nth i chosen 0, nth i times 0))).
      apply in_range, Hi. }
    apply choice_events_range in Hin. destruct Hin as [_ Ht].
    apply for_each_appends. intros g' s' _. cbn [fst snd].
    destruct (g' =? nth i chosen 0).
    + rewrite app_nil_r. reflexivity.
    + fold T. fold env. rewrite closest_constraint_Ok by exact Ht.
      reflexivity.
Qed.

Lemma choices_local : all_local T (flat_map closest_at choices).
Proof.
  apply all_local_flat_map. intros [g t] Hgt.
  apply choice_events_range in Hgt. destruct Hgt as [Hg Ht].
  unfold closest_at. cbn [fst snd].
  apply all_local_flat_map. intros g' Hg'. apply in_range in Hg'.
  destruct (g' =? g); all_local_list. local_tac.
Qed.

(** What the constraints of a choice event say of a model. *)
Lemma closest_at_spec (m : Model) (g t : nat) :
  models m (closest_at (g, t)) = true
  <-> forall g', g' < 3 -> g' <> g ->
        (signed_sum m g t <= signed_sum m g' t)%Z.
Proof.
  unfold closest_at. cbn [fst snd]. rewrite models_flat_map. split.
  - intros H g' Hg' Hne. specialize (H g' (proj2 (in_range 3 g') Hg')).
    destruct (Nat.eqb_spec g' g); [contradiction|].
    cbn in H. rewrite andb_true_r in H. z3_unfold.
    apply Z.leb_le in H. exact H.
  - intros H g' Hg'. apply in_range in Hg'.
    destruct (Nat.eqb_spec g' g); [reflexivity|].
    cbn. rewrite andb_true_r. z3_unfold.
    apply Z.leb_le. apply H; assumption.
Qed.

(** On the recorded run they say: the chosen target is within the
    signed-sum ordering at the choosing time. *)
Lemma closest_at_run_model (gt : nat * nat) :
  models the_model (closest_at gt)
  = nearest_at agent_position_list target_position_list gt.
Proof.
  unfold closest_at, nearest_at.
  induction (range 3) as [|g' l IH]; [reflexivity|].
  cbn [flat_map forallb]. rewrite models_app, IH. f_equal.
  destruct (g' =? fst gt); [reflexivity|].
  cbn. rewrite andb_true_r. reflexivity.
Qed.

Lemma choices_run_model :
  models the_model (flat_map closest_at choices)
  = forallb (nearest_at agent_position_list target_position_list) choices.
Proof.
  induction choices as [|gt rest IH]; [reflexivity|].
  cbn [flat_map forallb]. rewrite models_app, closest_at_run_model, IH.
  reflexivity.
Qed.

(** The result of [closest_target] on a well-shaped run, computed on the
    recorded run. *)
Lemma closest_target_returns :
  let consistent :=
    models the_model
           (solver env
            ++ run_constraints agent_position_list target_position_list
                               action_list) in
  let nearest :=
    forallb (nearest_at agent_position_list target_position_list) choices in
  (returns (closest_target agent_position_list target_position_list
                           action_list grid_size) sat
   <-> consistent && nearest = true)
  /\ (returns (closest_target agent_position_list target_position_list
                              action_list grid_size) unsat
      <-> consistent && nearest = false).
Proof.
  intros consistent nearest.
  pose proof (returns_iff _ _ _ grid_size _ _ Hshape closest_target_Ok
                choices_local) as H.
  pose proof choices_run_model as Hc. unfold choices, the_model in H, Hc.
  rewrite models_app, Hc in H. exact H.
Qed.

End ClosestTarget.

(* ------------------------------------------------------------------------- *)
(** ** Choosing time and the timestep before the change *)

Lemma increasing_nth (l : list nat) :
  increasing l = true ->
  forall i j, i < j -> j < length l -> nth i l 0 < nth j l 0.
Proof.
  induction l as [|a rest IH]; intros H i j Hij Hj; [cbn in Hj; lia|].
  destruct rest as [|b rest]; [cbn in Hj; lia|].
  cbn [increasing] in H. apply andb_true_iff in H. destruct H as [Hab H].
  apply Nat.ltb_lt in Hab. specialize (IH H).
  destruct j as [|j]; [lia|]. cbn [length] in Hj.
  assert (Hhead : forall j', j' < length (b :: rest) ->
                    a < nth j' (b :: rest) 0).
  { intros [|j'] Hj'; [exact Hab|].
    specialize (IH 0 (S j') ltac:(lia) Hj'). cbn [nth] in IH |- *. lia. }
  destruct i as [|i].
  - cbn [nth]. apply Hhead. cbn [length]. lia.
  - change (nth i (b :: rest) 0 < nth j (b :: rest) 0).
    apply IH; [lia | cbn [length]; lia].
Qed.

Lemma forallb_ext_In {A : Type} (f g : A -> bool) (l : list A) :
  (forall x, In x l -> f x = g x) -> forallb f l = forallb g l.
Proof.
  induction l as [|x l IH]; intros H; [reflexivity|].
  cbn. rewrite (H x (or_introl eq_refl)), IH; [reflexivity|].
  intros y Hy. apply H. right. exact Hy.
Qed.

Section ChoosingTime.

Variable agent_position_list : list position.
Variable target_position_list : list (list position).
Variable action_list : list Z.

Let T := length action_list.
Let events := change_events target_position_list action_list.
Let choices := choice_events target_position_list action_list.

Lemma change_events_In (i t : nat) :
  In (i, t + 1) events
  <-> t + 1 < T /\ i < 3 /\ changes target_position_list t i = true.
Proof.
  unfold events, change_events. fold T. rewrite in_flat_map. split.
  - intros (t0 & Ht0 & H). apply in_range in Ht0.
    apply in_flat_map in H. destruct H as (i0 & Hi0 & H).
    apply in_range in Hi0.
    destruct (changes target_position_list t0 i0) eqn:E; [|destruct H].
    destruct H as [H|[]]. injection H as -> Ht.
    assert (t0 = t) by lia. subst t0. repeat split; [lia | lia | exact E].
  - intros (Ht & Hi & Hc). exists t. split; [apply in_range; lia|].
    apply in_flat_map. exists i. split; [apply in_range, Hi|].
    rewrite Hc. left. reflexivity.
Qed.

Lemma unchanged_position (t i : nat) :
  changes target_position_list t i = false ->
  target_at target_position_list (t + 1) i
  = target_at target_position_list t i.
Proof.
  unfold changes. intros H. apply orb_false_iff in H. destruct H as [Hr Hc].
  apply negb_false_iff, Z.eqb_eq in Hr, Hc.
  destruct (target_at target_position_list t i),
           (target_at target_position_list (t + 1) i).
  cbn in Hr, Hc. congruence.
Qed.

Lemma targets_constant (c b : nat) :
  (forall t i, c <= t -> t + 1 <= b -> i < 3 ->
     changes target_position_list t i = false) ->
  forall i, i < 3 ->
    target_at target_position_list b i = target_at target_position_list c i
    \/ b < c.
Proof.
  induction b as [|b IH]; intros H i Hi.
  - destruct c; [left; reflexivity | right; lia].
  - destruct (Nat.le_gt_cases c b) as [Hle|Hgt].
    + left. replace (S b) with (b + 1) by lia.
      rewrite unchanged_position by (apply H; lia).
      destruct (IH (fun t j Hc Ht Hj => H t j Hc ltac:(lia) Hj) i Hi);
        [assumption | lia].
    + destruct (Nat.eq_dec c (S b)) as [->|]; [left; reflexivity|right; lia].
Qed.

(** The signed-sum ordering of two targets does not depend on the agent:
    it is the ordering of the sums of the targets' coordinates. *)
Lemma nearest_at_targets (g t t' : nat) :
  g < 3 ->
  (forall i, i < 3 ->
     target_at target_position_list t i
     = target_at target_position_list t' i) ->
  nearest_at agent_position_list target_position_list (g, t)
  = nearest_at agent_position_list target_position_list (g, t').
Proof.
  intros Hg Heq. unfold nearest_at. cbn [fst snd].
  apply forallb_ext_In. intros g' Hg'. apply in_range in Hg'.
  f_equal. unfold recorded_sum. rewrite (Heq g Hg), (Heq g' Hg').
  destruct (Z.leb_spec
              (fst (target_at target_position_list t' g)
               - fst (agent_at agent_position_list t)
               + (snd (target_at target_position_list t' g)
                  - snd (agent_at agent_position_list t)))
              (fst (target_at target_position_list t' g')
               - fst (agent_at agent_position_list t)
               + (snd (target_at target_position_list t' g')
                  - snd (agent_at agent_position_list t))))%Z;
    symmetry; [apply Z.leb_le | apply Z.leb_gt]; lia.
Qed.

(** When one target changes per step, no target moves between the
    choosing time of a change event and the timestep before the change,
    so the ordering is the same at both. *)
Lemma choosing_time_ordering (k : nat) :
  one_change_per_step target_position_list action_list = true ->
  k < length events ->
  nearest_at agent_position_list target_position_list (nth k choices (0, 0))
  = nearest_at agent_position_list target_position_list
               (fst (nth k events (0, 0)), snd (nth k events (0, 0)) - 1).
Proof.
  intros Hone Hk. unfold one_change_per_step in Hone. fold events in Hone.
  pose proof (increasing_nth _ Hone) as Hinc.
  assert (Harr : forall j, nth j (map snd events) 0
                           = snd (nth j events (0, 0))).
  { intros j. change 0 with (snd (0, 0)) at 1. apply map_nth. }
  assert (Hlen : length (map fst events)
                 = length (removelast (0 :: map snd events))).
  { rewrite removelast_cons_length, !length_map. reflexivity. }
  unfold choices, choice_events. fold events.
  rewrite (combine_nth _ _ k 0 0 Hlen).
  rewrite removelast_cons_nth by (rewrite length_map; exact Hk).
  change (nth k (map fst events) 0)
    with (nth k (map fst events) (fst (0, 0))).
  rewrite map_nth.
  pose proof (nth_In events (0, 0) Hk) as Hin.
  destruct (nth k events (0, 0)) as [g a] eqn:Ek. cbn [fst snd].
  pose proof (change_events_range _ _ _ _ Hin) as [Hg Ha]. fold T in Ha.
  set (c := match k with 0 => 0 | S k' => nth k' (map snd events) 0 end).
  assert (Hc : c <= a - 1).
  { unfold c. destruct k as [|k']; [lia|].
    specialize (Hinc k' (S k') ltac:(lia)
                  ltac:(rewrite length_map; exact Hk)).
    rewrite (Harr (S k')), Ek in Hinc. cbn [snd] in Hinc. lia. }
  symmetry. apply nearest_at_targets; [exact Hg|].
  intros i Hi.
  destruct (targets_constant c (a - 1)) with (i := i) as [H|H];
    [|exact Hi|exact H|lia].
  intros t i' Hct Hta Hi'.
  apply not_true_is_false. intros Hch.
  assert (Hev : In (i', t + 1) events)
    by (apply change_events_In; repeat split; [lia | exact Hi' | exact Hch]).
  destruct (In_nth events (i', t + 1) (0, 0) Hev) as (j & Hj & Ej).
  assert (Hjarr : nth j (map snd events) 0 = t + 1)
    by (rewrite Harr, Ej; reflexivity).
  assert (Hkarr : nth k (map snd events) 0 = a)
    by (rewrite Harr, Ek; reflexivity).
  destruct (Nat.lt_trichotomy j k) as [Hlt|[->|Hgt]].
  - destruct k as [|k']; [lia|]. unfold c in Hct.
    destruct (Nat.eq_dec j k') as [->|Hne]; [lia|].
    specialize (Hinc j k' ltac:(lia) ltac:(rewrite length_map; lia)). lia.
  - lia.
  - specialize (Hinc k j Hgt ltac:(rewrite length_map; exact Hj)). lia.
Qed.

End ChoosingTime.

Lemma forallb_false_iff {A : Type} (f : A -> bool) (l : list A) :
  forallb f l = false <-> exists x, In x l /\ f x = false.
Proof.
  induction l as [|x l IH]; cbn.
  - split; [discriminate | intros (x & [] & _)].
  - rewrite andb_false_iff, IH. split.
    + intros [H|(y & Hy & H)]; [exists x | exists y]; auto.
    + intros (y & [<-|Hy] & H); [left; exact H | right; exists y; auto].
Qed.

(** C3, counterexample.  First run (grid of size 5, consistent with the
    world model): targets 0 and 1 both change between timesteps 0 and 1, so
    the timestep immediately preceding either change is 0, where both chosen
    targets are within the signed-sum ordering; [closest_target] evaluates
    the second choice at timestep 1, where target 1 is not, and returns
    [unsat].  Second run: no target changes, the agent is outside the grid,
    and [closest_target] returns [unsat] without any chosen target. *)
Lemma closest_target_other_timestep :
  well_shaped double_choice_agent double_choice_targets double_choice_actions
  = true
  /\ returns (check_run double_choice_agent double_choice_targets
                        double_choice_actions 5) sat
  /\ change_events double_choice_targets double_choice_actions
     = [(0, 1); (1, 1)]
  /\ nearest_at double_choice_agent double_choice_targets (0, 0) = true
  /\ nearest_at double_choice_agent double_choice_targets (1, 0) = true
  /\ choice_events double_choice_targets double_choice_actions
     = [(0, 0); (1, 1)]
  /\ nearest_at double_choice_agent double_choice_targets (1, 1) = false
  /\ returns (closest_target double_choice_agent double_choice_targets
                             double_choice_actions 5) unsat
  /\ well_shaped outside_agent outside_targets outside_actions = true
  /\ change_events outside_targets outside_actions = []
  /\ returns (closest_target outside_agent outside_targets outside_actions 3)
             unsat.
Proof.
  split; [reflexivity|]. split; [|repeat (split; [reflexivity|])].
  - apply check_run_sat_iff; [reflexivity|]. vm_compute. reflexivity.
  - split; [|split; [reflexivity|split; [reflexivity|]]].
    + apply closest_target_returns; [reflexivity|]. vm_compute. reflexivity.
    + apply closest_target_returns; [reflexivity|]. vm_compute. reflexivity.
Qed.

(** C3, amended.  For a well-shaped run, [closest_target] hands the solver
    world model, binding and, for every change event (a target [g] changing
    between [t] and [t + 1]) and every other target [g'], the constraint
    [d_row[g] + d_col[g] <= d_row[g'] + d_col[g']] on the signed distance
    constants at the event's choosing time: timestep 0 for the first event
    and the effective timestep of the event before it for every other event.
    If the run is consistent with the world model, the call returns [unsat]
    if and only if some chosen target is not within this ordering of the
    recorded signed sums at its choosing time; and if moreover no two
    targets change at the same step, if and only if some chosen target is
    not within the ordering at the timestep immediately preceding its
    change. *)
Theorem closest_target_choices (agent_position_list : list position)
    (target_position_list : list (list position)) (action_list : list Z)
    (grid_size : Z) :
  well_shaped agent_position_list target_position_list action_list = true ->
  let events := change_events target_position_list action_list in
  let choices := choice_events target_position_list action_list in
  closest_target agent_position_list target_position_list action_list
                 grid_size
  = Ok ((solver (init_environment (length action_list) grid_size)
         ++ run_constraints agent_position_list target_position_list
                            action_list)
        ++ flat_map closest_at choices)
  /\ length choices = length events
  /\ (forall k, k < length events ->
        nth k choices (0, 0)
        = (fst (nth k events (0, 0)),
           match k with
           | 0 => 0
           | S k' => snd (nth k' events (0, 0))
           end))
  /\ (forall m g t,
        models m (closest_at (g, t)) = true
        <-> forall g', g' < 3 -> g' <> g ->
              (signed_sum m g t <= signed_sum m g' t)%Z)
  /\ (returns (check_run agent_position_list target_position_list action_list
                         grid_size) sat ->
      (returns (closest_target agent_position_list target_position_list
                               action_list grid_size) unsat
       <-> exists g t,
             In (g, t) choices
             /\ nearest_at agent_position_list target_position_list (g, t)
                = false))
  /\ (returns (check_run agent_position_list target_position_list action_list
                         grid_size) sat ->
      one_change_per_step target_position_list action_list = true ->
      (returns (closest_target agent_position_list target_position_list
                               action_list grid_size) unsat
       <-> exists g t,
             In (g, t + 1) events
             /\ nearest_at agent_position_list target_position_list (g, t)
                = false)).
Proof.
  intros Hshape events choices.
  assert (Hlen : length (map fst events)
                 = length (removelast (0 :: map snd events))).
  { rewrite removelast_cons_length, !length_map. reflexivity. }
  assert (Hlenc : length choices = length events).
  { unfold choices, choice_events. fold events.
    rewrite length_combine, <- Hlen, Nat.min_id, length_map. reflexivity. }
  assert (Hdecided :
    returns (check_run agent_position_list target_position_list action_list
                       grid_size) sat ->
    (returns (closest_target agent_position_list target_position_list
                             action_list grid_size) unsat
     <-> exists g t,
           In (g, t) choices
           /\ nearest_at agent_position_list target_position_list (g, t)
              = false)).
  { intros Hvalid.
    destruct (closest_target_returns _ _ _ grid_size Hshape) as [_ Hunsat].
    apply (check_run_sat_iff _ _ _ _ Hshape) in Hvalid.
    rewrite Hvalid in Hunsat. cbn [andb] in Hunsat.
    rewrite Hunsat, forallb_false_iff. fold choices. split.
    + intros ([g t] & Hin & Hf). exists g, t. auto.
    + intros (g & t & Hin & Hf). exists (g, t). auto. }
  split; [apply closest_target_Ok, Hshape|].
  split; [exact Hlenc|]. split; [|split; [|split; [exact Hdecided|]]].
  - intros k Hk. unfold choices, choice_events. fold events.
    rewrite (combine_nth _ _ k 0 0 Hlen).
    rewrite removelast_cons_nth by (rewrite length_map; exact Hk).
    change (nth k (map fst events) 0)
      with (nth k (map fst events) (fst (0, 0))).
    rewrite map_nth.
    destruct k as [|k]; [reflexivity|].
    change (nth k (map snd events) 0)
      with (nth k (map snd events) (snd (0, 0))).
    rewrite map_nth. reflexivity.
  - intros m g t. apply closest_at_spec.
  - intros Hvalid Hone. rewrite (Hdecided Hvalid). split.
    + intros (g & c & Hin & Hf).
      destruct (In_nth choices (g, c) (0, 0) Hin) as (k & Hk & Ek).
      rewrite Hlenc in Hk.
      pose proof (choosing_time_ordering agent_position_list _ _ k Hone Hk)
        as Heq.
      fold choices events in Heq. rewrite Ek, Hf in Heq.
      pose proof (nth_In events (0, 0) Hk) as Hev.
      destruct (nth k events (0, 0)) as [g' a]. cbn [fst snd] in Heq.
      pose proof (change_events_range _ _ _ _ Hev) as [_ Ha].
      exists g', (a - 1). replace (a - 1 + 1) with a by lia.
      split; [exact Hev | symmetry; exact Heq].
    + intros (g & t & Hev & Hf).
      destruct (In_nth events (g, t + 1) (0, 0) Hev) as (k & Hk & Ek).
      pose proof (choosing_time_ordering agent_position_list _ _ k Hone Hk)
        as Heq.
      fold choices events in Heq. rewrite Ek in Heq. cbn [fst snd] in Heq.
      replace (t + 1 - 1) with t in Heq by lia. rewrite Hf in Heq.
      destruct (nth k choices (0, 0)) as [g0 c] eqn:Ec.
      exists g0, c. split; [|exact Heq].
      rewrite <- Ec. apply nth_In. rewrite Hlenc. exact Hk.
Qed.

Lemma closest_target_choices_witness :
  closest_target chase_agent chase_targets chase_actions 3
  = Ok ((solver (init_environment (length chase_actions) 3)
         ++ run_constraints chase_agent chase_targets chase_actions)
        ++ flat_map closest_at (choice_events chase_targets chase_actions)).
Proof.
  refine (proj1 (closest_target_choices chase_agent chase_targets
                   chase_actions 3 _)).
  reflexivity.
Defined.

(* ------------------------------------------------------------------------- *)
(** ** More on the world model *)

(** X1.  In every model of the assertions of [init_environment T N] and at
    every timestep [t < T], both coordinates of the agent and of each of the
    three targets lie in [0, N). *)
Theorem world_in_grid (T : nat) (N : Z) (m : Model) (t : nat) (ax : axis) :
  models m (solver (init_environment T N)) = true ->
  t < T ->
  (0 <= int_value m (a_ ax t) < N)%Z
  /\ forall i, i < 3 -> (0 <= int_value m (t_ i ax t) < N)%Z.
Proof.
  intros Hm Ht. apply models_world in Hm. destruct Hm as (Hgrid & _).
  destruct (Hgrid t ax Ht) as (Htargets & Ha1 & Ha2).
  split; [lia|]. intros i Hi. specialize (Htargets i Hi). lia.
Qed.

Lemma world_in_grid_witness :
  (0 <= int_value small_run_model (a_ row 1) < 3)%Z
  /\ forall i, i < 3 -> (0 <= int_value small_run_model (t_ i row 1) < 3)%Z.
Proof.
  apply (world_in_grid 2 3 small_run_model 1 row).
  - vm_compute. reflexivity.
  - lia.
Defined.

(** X2.  In every model of the assertions of [init_environment T N] and at
    every timestep [t < T], two different targets are on different cells. *)
Theorem world_targets_distinct (T : nat) (N : Z) (m : Model) (t i j : nat) :
  models m (solver (init_environment T N)) = true ->
  t < T -> i < 3 -> j < 3 -> i <> j ->
  int_value m (t_ i row t) <> int_value m (t_ j row t)
  \/ int_value m (t_ i column t) <> int_value m (t_ j column t).
Proof.
  intros Hm Ht Hi Hj Hne. apply models_world in Hm.
  destruct Hm as (_ & _ & Hdist & _).
  assert (Hlt : forall a b, a < 3 -> b < a ->
            int_value m (t_ a row t) <> int_value m (t_ b row t)
            \/ int_value m (t_ a column t) <> int_value m (t_ b column t)).
  { intros a b Ha Hb. specialize (Hdist t a b Ht Ha Hb).
    z3_unfold. cbn [forallb] in Hdist.
    rewrite andb_true_r, negb_true_iff, andb_false_iff, !Z.eqb_neq in Hdist.
    exact Hdist. }
  destruct (Nat.lt_trichotomy i j) as [Hij|[Hij|Hij]]; [|contradiction|].
  - destruct (Hlt j i Hj Hij) as [H|H]; [left | right]; congruence.
  - apply Hlt; assumption.
Qed.

Lemma world_targets_distinct_witness :
  int_value small_run_model (t_ 0 row 0) <> int_value small_run_model (t_ 2 row 0)
  \/ int_value small_run_model (t_ 0 column 0)
     <> int_value small_run_model (t_ 2 column 0).
Proof.
  apply (world_targets_distinct 2 3 small_run_model 0 0 2).
  - vm_compute. reflexivity.
  - lia.
  - lia.
  - lia.
  - discriminate.
Defined.

(** X3.  In every model of the assertions of [init_environment T N] the
    distance constant of target [i] on an axis at [t < T] is the target's
    coordinate minus the agent's: signed, not absolute. *)
Theorem world_distance (T : nat) (N : Z) (m : Model) (t i : nat) (ax : axis) :
  models m (solver (init_environment T N)) = true ->
  t < T -> i < 3 ->
  int_value m (d_ i ax t)
  = (int_value m (t_ i ax t) - int_value m (a_ ax t))%Z.
Proof.
  intros Hm Ht Hi. apply models_world in Hm.
  destruct Hm as (_ & _ & _ & Hd & _). apply Hd; assumption.
Qed.

Lemma world_distance_witness :
  int_value small_run_model (d_ 2 row 1)
  = (int_value small_run_model (t_ 2 row 1)
     - int_value small_run_model (a_ row 1))%Z.
Proof.
  apply (world_distance 2 3 small_run_model 1 2 row).
  - vm_compute. reflexivity.
  - lia.
  - lia.
Defined.

(** X4.  In every model of the assertions of [init_environment T N]: if the
    agent stands on target [i] at [t] (with [t + 1 < T]), the target keeps
    its row or its column at [t + 1]; it does not change both. *)
Theorem world_pickup (T : nat) (N : Z) (m : Model) (t i : nat) :
  models m (solver (init_environment T N)) = true ->
  t + 1 < T -> i < 3 ->
  stands_on m i t = true ->
  int_value m (t_ i row (t + 1)) = int_value m (t_ i row t)
  \/ int_value m (t_ i column (t + 1)) = int_value m (t_ i column t).
Proof.
  intros Hm Ht Hi Hon. apply models_world in Hm.
  destruct Hm as (_ & Hpick & _).
  specialize (Hpick (t + 1) i ltac:(lia) Hi).
  exact (proj1 (pickup_constraint_spec m i t) Hpick Hon).
Qed.

Lemma world_pickup_witness :
  int_value target_stays (t_ 0 row (0 + 1)) = int_value target_stays (t_ 0 row 0)
  \/ int_value target_stays (t_ 0 column (0 + 1))
     = int_value target_stays (t_ 0 column 0).
Proof.
  apply (world_pickup 2 3 target_stays 0 0).
  - vm_compute. reflexivity.
  - lia.
  - lia.
  - reflexivity.
Defined.

Lemma corner_model_world (T : nat) (N : Z) :
  (2 <= N)%Z -> world_spec T N corner_model.
Proof.
  intros HN. unfold world_spec. split; [|split; [|split; [|split]]].
  - intros t ax _. split; [|cbn; lia].
    intros i _. cbn. destruct i as [|[|i]], ax; lia.
  - intros t i [Ht _] Hi. replace t with ((t - 1) + 1) by lia.
    apply pickup_constraint_spec. intros _. left. cbn.
    destruct i as [|[|i]]; reflexivity.
  - intros t i j _ Hi Hj. z3_unfold. cbn.
    destruct i as [|[|[|i]]]; try lia; destruct j as [|[|j]]; try lia;
      reflexivity.
  - intros t ax i _ Hi. cbn.
    destruct i as [|[|i]], ax; reflexivity.
  - intros t _. z3_unfold. cbn. split; reflexivity.
Qed.

(** X5.  The assertions of [init_environment T N] have a model exactly when
    the horizon is empty or the grid has size 2 or more: three targets on
    different cells do not fit on a grid of one cell. *)
Theorem world_satisfiable_iff (T : nat) (N : Z) :
  satisfiable (solver (init_environment T N)) <-> T = 0 \/ (2 <= N)%Z.
Proof.
  split.
  - intros [m Hm]. destruct T as [|T]; [left; reflexivity|]. right.
    apply models_world in Hm. destruct Hm as (Hgrid & _ & Hdist & _).
    destruct (Hgrid 0 row ltac:(lia)) as (Hr & _).
    destruct (Hgrid 0 column ltac:(lia)) as (Hc & _).
    pose proof (Hr 0 ltac:(lia)). pose proof (Hr 1 ltac:(lia)).
    pose proof (Hc 0 ltac:(lia)). pose proof (Hc 1 ltac:(lia)).
    specialize (Hdist 0 1 0 ltac:(lia) ltac:(lia) ltac:(lia)).
    z3_unfold. cbn [forallb] in Hdist.
    rewrite andb_true_r, negb_true_iff, andb_false_iff, !Z.eqb_neq in Hdist.
    lia.
  - intros [->|HN].
    + exists corner_model. reflexivity.
    + exists corner_model. apply models_world, corner_model_world, HN.
Qed.

(* ------------------------------------------------------------------------- *)
(** ** More on check_run *)

(** X6.  In every model of the assertions [check_run] hands the solver, the
    constants of every bound timestep have the recorded values: the agent's
    and the three targets' coordinates are the recorded ones and each
    distance constant is the recorded target coordinate minus the recorded
    agent coordinate. *)
Theorem binding_pins (agent_position_list : list position)
    (target_position_list : list (list position)) (action_list : list Z)
    (grid_size : Z) (s : list BoolRef) (m : Model) (t : nat) :
  check_run agent_position_list target_position_list action_list grid_size
  = Ok s ->
  models m s = true ->
  t < length agent_position_list ->
  (forall ax, int_value m (a_ ax t)
              = coordinate ax (agent_at agent_position_list t))
  /\ (forall i ax, i < 3 ->
        int_value m (t_ i ax t)
        = coordinate ax (target_at target_position_list t i))
  /\ (forall i ax, i < 3 ->
        int_value m (d_ i ax t)
        = (coordinate ax (target_at target_position_list t i)
           - coordinate ax (agent_at agent_position_list t))%Z).
Proof.
  intros Hs Hm Ht. rewrite check_run_unfold in Hs.
  destruct (subscripts_in_range _ _ _) eqn:E; [|discriminate].
  injection Hs as <-. rewrite models_app, andb_true_iff in Hm.
  destruct Hm as [Hw Hr].
  apply subscripts_in_range_spec in E. destruct E as [Hlen _].
  destruct (run_constraints_pin _ _ _ m t Hr Ht) as (Ha & Hg & _).
  split; [exact Ha|]. split; [exact Hg|].
  intros i ax Hi. apply models_world in Hw.
  destruct Hw as (_ & _ & _ & Hd & _).
  rewrite (Hd t ax i ltac:(lia) Hi), Ha, (Hg i ax Hi). reflexivity.
Qed.

Lemma binding_pins_witness :
  (forall ax, int_value small_run_model (a_ ax 1)
              = coordinate ax (agent_at small_run_agent 1))
  /\ (forall i ax, i < 3 ->
        int_value small_run_model (t_ i ax 1)
        = coordinate ax (target_at small_run_targets 1 i))
  /\ (forall i ax, i < 3 ->
        int_value small_run_model (d_ i ax 1)
        = (coordinate ax (target_at small_run_targets 1 i)
           - coordinate ax (agent_at small_run_agent 1))%Z).
Proof.
  eapply (binding_pins small_run_agent small_run_targets [0; 0]%Z 3).
  - reflexivity.
  - vm_compute. reflexivity.
  - cbn. lia.
Defined.

Lemma inside_spec (N : Z) (p : position) :
  negb (outside N p) = true <-> (0 <= fst p < N)%Z /\ (0 <= snd p < N)%Z.
Proof.
  unfold outside.
  rewrite negb_involutive, !andb_true_iff, !Z.leb_le, !Z.ltb_lt. tauto.
Qed.

Section ValidRunModel.

Variable agent_position_list : list position.
Variable target_position_list : list (list position).
Variable action_list : list Z.
Variable grid_size : Z.

Let T := length action_list.
Let the_model := run_model agent_position_list target_position_list
                           action_list.

Lemma moves_run_model (t : nat) :
  row_move_constraint (t + 1) the_model
  && column_move_constraint (t + 1) the_model
  = same_cell (agent_at agent_position_list (t + 1))
              (moved_by (action_at action_list t)
                        (agent_at agent_position_list t)).
Proof.
  unfold same_cell, moved_by. z3_unfold.
  replace (t + 1 - 1) with t by lia. reflexivity.
Qed.

Lemma pickup_run_model (t i : nat) :
  pickup_constraint (t + 1) i the_model
  = implb (same_cell (target_at target_position_list t i)
                     (agent_at agent_position_list t))
          ((fst (target_at target_position_list (t + 1) i)
            =? fst (target_at target_position_list t i))%Z
           || (snd (target_at target_position_list (t + 1) i)
               =? snd (target_at target_position_list t i))%Z).
Proof.
  unfold same_cell, implb. z3_unfold.
  replace (t + 1 - 1) with t by lia.
  cbn [forallb the_model run_model int_value coordinate].
  rewrite !andb_true_r, negb_andb, !negb_involutive. reflexivity.
Qed.

Lemma distinct_run_model (t i j : nat) :
  distinct_constraint t i j the_model
  = negb (same_cell (target_at target_position_list t i)
                    (target_at target_position_list t j)).
Proof.
  unfold same_cell. z3_unfold.
  cbn [forallb the_model run_model int_value coordinate].
  rewrite andb_true_r. reflexivity.
Qed.

(** The recorded run is a model of the world model exactly when it is a
    valid run. *)
Lemma run_model_world_iff :
  world_spec T grid_size the_model
  <-> valid_run agent_position_list target_position_list action_list
                grid_size = true.
Proof.
  unfold valid_run, world_spec. fold T.
  rewrite andb_true_iff, !forallb_forall. split.
  - intros (Hgrid & Hpick & Hdist & _ & Hmove). split.
    + intros t Ht. apply in_range in Ht. unfold valid_at.
      rewrite !andb_true_iff, !forallb_forall.
      pose proof (Hgrid t row Ht) as (Hgr & Har).
      pose proof (Hgrid t column Ht) as (Hgc & Hac).
      split; [split|].
      * apply inside_spec. cbn in Har, Hac. lia.
      * intros i Hi. apply in_range in Hi. apply inside_spec.
        specialize (Hgr i Hi). specialize (Hgc i Hi). cbn in Hgr, Hgc. lia.
      * intros i Hi. apply in_range in Hi. apply forallb_forall.
        intros j Hj. apply in_range in Hj.
        rewrite <- distinct_run_model. apply Hdist; assumption.
    + intros t Ht. apply in_range in Ht. unfold valid_step.
      rewrite andb_true_iff, forallb_forall. split.
      * rewrite <- moves_run_model.
        destruct (Hmove (t + 1) ltac:(lia)) as [-> ->]. reflexivity.
      * intros i Hi. apply in_range in Hi.
        rewrite <- pickup_run_model. apply Hpick; lia.
  - intros [Hat Hstep]. split; [|split; [|split; [|split]]].
    + intros t ax Ht. specialize (Hat t (proj2 (in_range T t) Ht)).
      unfold valid_at in Hat. rewrite !andb_true_iff in Hat.
      destruct Hat as [[Ha Hg] _]. apply inside_spec in Ha.
      rewrite forallb_forall in Hg. split.
      * intros i Hi. specialize (Hg i (proj2 (in_range 3 i) Hi)).
        apply inside_spec in Hg. destruct ax; cbn; lia.
      * destruct ax; cbn; lia.
    + intros t i Ht Hi. replace t with ((t - 1) + 1) by lia.
      rewrite pickup_run_model.
      specialize (Hstep (t - 1) (proj2 (in_range (T - 1) (t - 1))
                                       ltac:(lia))).
      unfold valid_step in Hstep. apply andb_true_iff in Hstep.
      destruct Hstep as [_ Hp]. rewrite forallb_forall in Hp.
      apply Hp, in_range, Hi.
    + intros t i j Ht Hi Hj. rewrite distinct_run_model.
      specialize (Hat t (proj2 (in_range T t) Ht)).
      unfold valid_at in Hat. rewrite !andb_true_iff in Hat.
      destruct Hat as [_ Hd]. rewrite forallb_forall in Hd.
      specialize (Hd i (proj2 (in_range 3 i) Hi)).
      rewrite forallb_forall in Hd. apply Hd, in_range, Hj.
    + intros t ax i _ _. reflexivity.
    + intros t Ht. replace t with ((t - 1) + 1) by lia.
      specialize (Hstep (t - 1) (proj2 (in_range (T - 1) (t - 1))
                                       ltac:(lia))).
      unfold valid_step in Hstep. apply andb_true_iff in Hstep.
      destruct Hstep as [Hm _]. rewrite <- moves_run_model in Hm.
      apply andb_true_iff in Hm. exact Hm.
Qed.

Lemma run_model_valid :
  models the_model
         (solver (init_environment T grid_size)
          ++ run_constraints agent_position_list target_position_list
                             action_list)
  = valid_run agent_position_list target_position_list action_list
              grid_size.
Proof.
  rewrite models_app. unfold the_model at 2. rewrite run_model_run.
  rewrite andb_true_r. apply eq_true_iff_eq.
  rewrite models_world. apply run_model_world_iff.
Qed.

End ValidRunModel.

Lemma check_run_decided (agent_position_list : list position)
    (target_position_list : list (list position)) (action_list : list Z)
    (grid_size : Z) :
  well_shaped agent_position_list target_position_list action_list = true ->
  (returns (check_run agent_position_list target_position_list action_list
                      grid_size) sat
   <-> valid_run agent_position_list target_position_list action_list
                 grid_size = true)
  /\ (returns (check_run agent_position_list target_position_list action_list
                         grid_size) unsat
      <-> valid_run agent_position_list target_position_list action_list
                    grid_size = false).
Proof.
  intros Hshape.
  destruct (returns_iff _ _ _ grid_size
              (check_run agent_position_list target_position_list action_list
                         grid_size) [] Hshape) as [Hsat Hunsat].
  - rewrite app_nil_r. apply check_run_Ok, Hshape.
  - apply all_local_nil.
  - rewrite app_nil_r, run_model_valid in Hsat, Hunsat.
    split; assumption.
Qed.

(** X7.  For a well-shaped run [check_run] returns [sat] exactly when the
    run is valid: at every timestep agent and targets are inside the grid
    and the three targets are on different cells, and at every step the
    agent is where the recorded action leads (one cell north, east, south
    or west for 0, 1, 2, 3, no move for any other action) and a target the
    agent stood on keeps its row or its column.  Otherwise it returns
    [unsat]. *)
Theorem check_run_valid (agent_position_list : list position)
    (target_position_list : list (list position)) (action_list : list Z)
    (grid_size : Z) :
  well_shaped agent_position_list target_position_list action_list = true ->
  (returns (check_run agent_position_list target_position_list action_list
                      grid_size) sat
   <-> valid_run agent_position_list target_position_list action_list
                 grid_size = true)
  /\ (returns (check_run agent_position_list target_position_list action_list
                         grid_size) unsat
      <-> valid_run agent_position_list target_position_list action_list
                    grid_size = false).
Proof. apply check_run_decided. Qed.

Lemma check_run_valid_witness :
  (returns (check_run loop_agent loop_targets loop_actions 3) sat
   <-> valid_run loop_agent loop_targets loop_actions 3 = true)
  /\ (returns (check_run loop_agent loop_targets loop_actions 3) unsat
      <-> valid_run loop_agent loop_targets loop_actions 3 = false).
Proof. apply (check_run_valid loop_agent loop_targets loop_actions 3). reflexivity. Defined.

(* ------------------------------------------------------------------------- *)
(** ** The property checks against check_run *)

Lemma satisfiable_app_l (a b : list BoolRef) :
  satisfiable (a ++ b) -> satisfiable a.
Proof.
  intros [m Hm]. exists m. rewrite models_app, andb_true_iff in Hm. tauto.
Qed.

(** A loop whose every pass extends the state extends the state. *)
Lemma for_each_extends {A B : Type} (xs : list A)
    (body : A -> list B -> result (list B)) :
  (forall x s s', In x xs -> body x s = Ok s' -> exists e, s' = s ++ e) ->
  forall s s', for_each xs body s = Ok s' -> exists e, s' = s ++ e.
Proof.
  induction xs as [|x xs IH]; intros Hbody s s' H.
  - injection H as <-. exists []. rewrite app_nil_r. reflexivity.
  - cbn in H. destruct (body x s) as [s1|] eqn:E; [|discriminate].
    cbn in H. destruct (Hbody x s s1 (or_introl eq_refl) E) as [e1 ->].
    destruct (IH (fun y u v Hy => Hbody y u v (or_intror Hy)) _ _ H)
      as [e2 ->].
    exists (e1 ++ e2). rewrite app_assoc. reflexivity.
Qed.

Ltac step_subscripts H :=
  repeat match type of H with
         | bind (subscript ?l ?i) _ = Ok _ =>
             destruct (subscript l i); cbn [bind] in H; [|discriminate]
         end.

Section Stricter.

Variable agent_position_list : list position.
Variable target_position_list : list (list position).
Variable action_list : list Z.
Variable grid_size : Z.

Let T := length action_list.
Let env := init_environment T grid_size.

Lemma find_loop_unfold :
  find_loop agent_position_list target_position_list action_list grid_size
  = bind (check_run agent_position_list target_position_list action_list
                    grid_size)
         (fun s => Ok (s ++ flat_map (fun t => [loop_formula t])
                                     (range (T - 1)))).
Proof.
  unfold find_loop, check_run. fold T. fold env.
  destruct (bind_run _ _ _ env) as [s|e]; [|reflexivity].
  cbn [bind]. apply for_each_appends.
  intros t s' Ht. apply in_range in Ht.
  unfold env, T in *. rewrite loop_constraint_Ok by lia. reflexivity.
Qed.

Lemma efficiency_constraints_extends (g t : nat) (s s' : list BoolRef) :
  efficiency_constraints env g t s = Ok s' -> exists e, s' = s ++ e.
Proof.
  unfold efficiency_constraints, add. intros H. step_subscripts H.
  injection H as <-. rewrite <- !app_assoc. eexists. reflexivity.
Qed.

Lemma efficiency_loop_extends (chosen_targets : list (nat * nat))
    (ts : list nat) :
  forall it cur arr s s',
    efficiency_loop env chosen_targets ts it cur arr s = Ok s' ->
    exists e, s' = s ++ e.
Proof.
  induction ts as [|t ts IH]; intros it cur arr s s' H.
  - injection H as <-. exists []. rewrite app_nil_r. reflexivity.
  - cbn [efficiency_loop] in H. destruct (t =? arr).
    + destruct (it + 1 =? length chosen_targets).
      * injection H as <-. exists []. rewrite app_nil_r. reflexivity.
      * destruct (subscript chosen_targets (it + 1)) as [next|];
          [|discriminate].
        cbn [bind] in H.
        destruct (efficiency_constraints env (fst next) t s) as [s1|] eqn:E;
          [|discriminate].
        cbn [bind] in H.
        destruct (efficiency_constraints_extends _ _ _ _ E) as [e1 ->].
        destruct (IH _ _ _ _ _ H) as [e2 ->].
        exists (e1 ++ e2). rewrite app_assoc. reflexivity.
    + destruct (efficiency_constraints env cur t s) as [s1|] eqn:E;
        [|discriminate].
      cbn [bind] in H.
      destruct (efficiency_constraints_extends _ _ _ _ E) as [e1 ->].
      destruct (IH _ _ _ _ _ H) as [e2 ->].
      exists (e1 ++ e2). rewrite app_assoc. reflexivity.
Qed.

Lemma find_efficient_path_extends (s : list BoolRef) :
  find_efficient_path agent_position_list target_position_list action_list
                      grid_size = Ok s ->
  exists world extra,
    check_run agent_position_list target_position_list action_list
              grid_size = Ok world
    /\ s = world ++ extra.
Proof.
  unfold find_efficient_path, check_run. fold T. fold env. intros H.
  destruct (bind_run _ _ _ env) as [w|]; [|discriminate].
  cbn [bind] in H.
  destruct (find_chosen_targets _ _) as [chosen|]; [|discriminate].
  cbn [bind] in H.
  destruct (subscript chosen 0) as [first|]; [|discriminate].
  cbn [bind] in H.
  destruct (efficiency_loop_extends _ _ _ _ _ _ _ H) as [e ->].
  exists w, e. split; reflexivity.
Qed.

Lemma closest_target_extends (s : list BoolRef) :
  closest_target agent_position_list target_position_list action_list
                 grid_size = Ok s ->
  exists world extra,
    check_run agent_position_list target_position_list action_list
              grid_size = Ok world
    /\ s = world ++ extra.
Proof.
  unfold closest_target, check_run. fold T. fold env. intros H.
  destruct (bind_run _ _ _ env) as [w|]; [|discriminate].
  cbn [bind] in H.
  destruct (find_choices _ _) as [st|]; [|discriminate].
  cbn [bind] in H.
  apply for_each_extends in H.
  - destruct H as [e ->]. exists w, e. split; reflexivity.
  - intros i u v _ Hi. step_subscripts Hi.
    apply for_each_extends in Hi; [exact Hi|].
    intros g' u' v' _ Hg'.
    destruct (g' =? _).
    + injection Hg' as <-. exists []. rewrite app_nil_r. reflexivity.
    + destruct (closest_constraint env _ _ g') as [c|]; [|discriminate].
      cbn [bind] in Hg'. injection Hg' as <-. eexists. reflexivity.
Qed.

(** A check whose assertions extend those of [check_run]. *)
Lemma extension_stricter (call : result (list BoolRef)) :
  (forall s, call = Ok s ->
     exists world extra,
       check_run agent_position_list target_position_list action_list
                 grid_size = Ok world
       /\ s = world ++ extra) ->
  (forall e, raises (check_run agent_position_list target_position_list
                               action_list grid_size) e ->
             raises call e)
  /\ (returns call sat ->
      returns (check_run agent_position_list target_position_list
                         action_list grid_size) sat)
  /\ (returns (check_run agent_position_list target_position_list
                         action_list grid_size) unsat ->
      forall r, returns call r -> r = unsat).
Proof.
  intros Hext. split; [|split].
  - intros e He. unfold raises in *.
    destruct call as [s|e'] eqn:E.
    + destruct (Hext s eq_refl) as (w & x & Hw & _). congruence.
    + rewrite (exception_is_IndexError e), (exception_is_IndexError e').
      reflexivity.
  - intros (s & Hs & Hc). destruct (Hext s Hs) as (w & x & Hw & ->).
    exists w. split; [exact Hw|]. apply check_sat.
    inversion Hc as [Hsat|]. eapply satisfiable_app_l, Hsat.
  - intros (w & Hw & Hc) r (s & Hs & Hr).
    destruct (Hext s Hs) as (w' & x & Hw' & ->).
    assert (w' = w) by congruence. subst w'.
    inversion Hc as [|Hunsat]. inversion Hr as [Hsat|]; [|reflexivity].
    exfalso. apply Hunsat. eapply satisfiable_app_l, Hsat.
Qed.

End Stricter.

(** X8.  On every input, well shaped or not, [find_loop] raises exactly when
    [check_run] raises: its own loop takes no subscript out of range.  When
    it returns [sat] so does [check_run], and when [check_run] returns
    [unsat] so does [find_loop]. *)
Theorem find_loop_stricter (agent_position_list : list position)
    (target_position_list : list (list position)) (action_list : list Z)
    (grid_size : Z) :
  (forall e, raises (find_loop agent_position_list target_position_list
                               action_list grid_size) e
             <-> raises (check_run agent_position_list target_position_list
                                   action_list grid_size) e)
  /\ (returns (find_loop agent_position_list target_position_list action_list
                         grid_size) sat ->
      returns (check_run agent_position_list target_position_list action_list
                         grid_size) sat)
  /\ (returns (check_run agent_position_list target_position_list action_list
                         grid_size) unsat ->
      returns (find_loop agent_position_list target_position_list action_list
                         grid_size) unsat).
Proof.
  unfold raises, returns. rewrite find_loop_unfold.
  destruct (check_run _ _ _ _) as [w|e0]; cbn [bind].
  - split; [intros e; split; discriminate|]. split.
    + intros (s & Hs & Hc). injection Hs as <-. exists w.
      split; [reflexivity|]. apply check_sat.
      inversion Hc as [Hsat|]. eapply satisfiable_app_l, Hsat.
    + intros (s & Hs & Hc). injection Hs as <-. eexists.
      split; [reflexivity|]. apply check_unsat.
      inversion Hc as [|Hunsat]. intros Hsat. apply Hunsat.
      eapply satisfiable_app_l, Hsat.
  - split; [intros e; tauto|].
    split; intros (s & Hs & _); discriminate.
Qed.

(** X9.  On every input [find_efficient_path] is at least as strict as
    [check_run]: when [check_run] raises, so does it; when it returns
    [sat], so does [check_run]; and when [check_run] returns [unsat], it
    can only return [unsat]. *)
Theorem find_efficient_path_stricter (agent_position_list : list position)
    (target_position_list : list (list position)) (action_list : list Z)
    (grid_size : Z) :
  (forall e, raises (check_run agent_position_list target_position_list
                               action_list grid_size) e ->
             raises (find_efficient_path agent_position_list
                       target_position_list action_list grid_size) e)
  /\ (returns (find_efficient_path agent_position_list target_position_list
                                   action_list grid_size) sat ->
      returns (check_run agent_position_list target_position_list action_list
                         grid_size) sat)
  /\ (returns (check_run agent_position_list target_position_list action_list
                         grid_size) unsat ->
      forall r, returns (find_efficient_path agent_position_list
                           target_position_list action_list grid_size) r ->
                r = unsat).
Proof.
  apply extension_stricter. intros s. apply find_efficient_path_extends.
Qed.

(** X10.  On every input [closest_target] is at least as strict as
    [check_run]: when [check_run] raises, so does it; when it returns
    [sat], so does [check_run]; and when [check_run] returns [unsat], it
    can only return [unsat]. *)
Theorem closest_target_stricter (agent_position_list : list position)
    (target_position_list : list (list position)) (action_list : list Z)
    (grid_size : Z) :
  (forall e, raises (check_run agent_position_list target_position_list
                               action_list grid_size) e ->
             raises (closest_target agent_position_list
                       target_position_list action_list grid_size) e)
  /\ (returns (closest_target agent_position_list target_position_list
                              action_list grid_size) sat ->
      returns (check_run agent_position_list target_position_list action_list
                         grid_size) sat)
  /\ (returns (check_run agent_position_list target_position_list action_list
                         grid_size) unsat ->
      forall r, returns (closest_target agent_position_list
                           target_position_list action_list grid_size) r ->
                r = unsat).
Proof.
  apply extension_stricter. intros s. apply closest_target_extends.
Qed.

(* ------------------------------------------------------------------------- *)
(** ** The results of the property checks *)

(** X11.  With no recorded timestep at all (empty agent trace and empty
    action list) the solver gets no assertion: [check_run], [find_loop] and
    [closest_target] return [sat] for every target trace and every grid
    size, and [find_efficient_path] raises IndexError.  With an empty action
    list and a non-empty agent trace all four raise IndexError. *)
Theorem empty_action_list (agent_position_list : list position)
    (target_position_list : list (list position)) (grid_size : Z) :
  (agent_position_list = [] ->
   returns (check_run agent_position_list target_position_list [] grid_size)
           sat
   /\ returns (find_loop agent_position_list target_position_list []
                         grid_size) sat
   /\ returns (closest_target agent_position_list target_position_list []
                              grid_size) sat
   /\ raises (find_efficient_path agent_position_list target_position_list []
                                  grid_size) IndexError)
  /\ (agent_position_list <> [] ->
      raises (check_run agent_position_list target_position_list []
                        grid_size) IndexError
      /\ raises (find_loop agent_position_list target_position_list []
                           grid_size) IndexError
      /\ raises (closest_target agent_position_list target_position_list []
                                grid_size) IndexError
      /\ raises (find_efficient_path agent_position_list target_position_list
                                     [] grid_size) IndexError).
Proof.
  split.
  - intros ->.
    assert (Hsat : check [] sat)
      by (apply check_sat; exists corner_model; reflexivity).
    repeat split; try (exists []; split; [reflexivity | exact Hsat]).
  - intros Hne. destruct agent_position_list as [|p rest]; [contradiction|].
    repeat split.
Qed.

(** X12.  For a well-shaped run [find_loop] returns [sat] exactly when
    [check_run] returns [sat] and no pair of consecutive steps is an
    immediate reversal that reaches no target; it returns [unsat] exactly
    when [check_run] returns [unsat] or there is such a pair. *)
Theorem find_loop_result (agent_position_list : list position)
    (target_position_list : list (list position)) (action_list : list Z)
    (grid_size : Z) :
  well_shaped agent_position_list target_position_list action_list = true ->
  (returns (find_loop agent_position_list target_position_list action_list
                      grid_size) sat
   <-> returns (check_run agent_position_list target_position_list
                          action_list grid_size) sat
       /\ forall t, t + 1 < length action_list ->
            loop_at agent_position_list target_position_list action_list t
            = false)
  /\ (returns (find_loop agent_position_list target_position_list action_list
                         grid_size) unsat
      <-> returns (check_run agent_position_list target_position_list
                             action_list grid_size) unsat
          \/ exists t, t + 1 < length action_list
                       /\ loop_at agent_position_list target_position_list
                                  action_list t = true).
Proof.
  intros Hshape.
  destruct (check_run_decided _ _ _ grid_size Hshape) as [Hvs Hvu].
  assert (Hloc : all_local (length action_list)
            (flat_map (fun t => [loop_formula t])
                      (range (length action_list - 1)))).
  { apply all_local_flat_map. intros t Ht. apply in_range in Ht.
    all_local_list. apply loop_formula_local. lia. }
  destruct (returns_iff _ _ _ grid_size _ _ Hshape
              (find_loop_Ok _ _ _ grid_size Hshape) Hloc) as [Hsat Hunsat].
  rewrite models_app, run_model_valid in Hsat, Hunsat.
  assert (Hloops :
    models (run_model agent_position_list target_position_list action_list)
           (flat_map (fun t => [loop_formula t])
                     (range (length action_list - 1))) = true
    <-> forall t, t + 1 < length action_list ->
          loop_at agent_position_list target_position_list action_list t
          = false).
  { rewrite models_flat_map. split.
    - intros H t Ht.
      specialize (H t (proj2 (in_range (length action_list - 1) t)
                           ltac:(lia))).
      cbn in H. rewrite andb_true_r, loop_formula_run_model in H.
      apply negb_true_iff in H. exact H.
    - intros H t Ht. apply in_range in Ht. cbn.
      rewrite andb_true_r, loop_formula_run_model, H by lia. reflexivity. }
  split.
  - rewrite Hsat, andb_true_iff, Hvs, Hloops. reflexivity.
  - rewrite Hunsat, andb_false_iff, Hvu. split.
    + intros [H|H]; [left; exact H|]. right.
      apply forallb_false_iff in H. destruct H as (c & Hc & Hf).
      apply in_flat_map in Hc. destruct Hc as (t & Ht & [<-|[]]).
      apply in_range in Ht. exists t. split; [lia|].
      rewrite loop_formula_run_model in Hf. apply negb_false_iff in Hf.
      exact Hf.
    + intros [H|(t & Ht & Hl)]; [left; exact H|]. right.
      apply not_true_is_false. intros Hm.
      rewrite (proj1 Hloops Hm t Ht) in Hl. discriminate.
Qed.

Lemma find_loop_result_witness :
  (returns (find_loop loop_agent loop_targets loop_actions 3) sat
   <-> returns (check_run loop_agent loop_targets loop_actions 3) sat
       /\ forall t, t + 1 < length loop_actions ->
            loop_at loop_agent loop_targets loop_actions t = false)
  /\ (returns (find_loop loop_agent loop_targets loop_actions 3) unsat
      <-> returns (check_run loop_agent loop_targets loop_actions 3) unsat
          \/ exists t, t + 1 < length loop_actions
                       /\ loop_at loop_agent loop_targets loop_actions t
                          = true).
Proof. apply (find_loop_result loop_agent loop_targets loop_actions 3). reflexivity. Defined.

(** X13.  For a well-shaped run with a change event [find_efficient_path]
    returns [sat] exactly when [check_run] returns [sat] and every move its
    loop constrains leads towards the current target; it returns [unsat]
    exactly when [check_run] returns [unsat] or one of those moves does
    not. *)
Theorem find_efficient_path_result (agent_position_list : list position)
    (target_position_list : list (list position)) (action_list : list Z)
    (grid_size : Z) :
  well_shaped agent_position_list target_position_list action_list = true ->
  change_events target_position_list action_list <> [] ->
  (returns (find_efficient_path agent_position_list target_position_list
                                action_list grid_size) sat
   <-> returns (check_run agent_position_list target_position_list
                          action_list grid_size) sat
       /\ forall g t,
            In (g, t) (pursuit_schedule target_position_list action_list) ->
            moves_toward agent_position_list target_position_list
                         action_list (g, t) = true)
  /\ (returns (find_efficient_path agent_position_list target_position_list
                                   action_list grid_size) unsat
      <-> returns (check_run agent_position_list target_position_list
                             action_list grid_size) unsat
          \/ exists g t,
               In (g, t) (pursuit_schedule target_position_list action_list)
               /\ moves_toward agent_position_list target_position_list
                               action_list (g, t) = false).
Proof.
  intros Hshape Hne.
  destruct (check_run_decided _ _ _ grid_size Hshape) as [Hvs Hvu].
  destruct (find_efficient_path_returns _ _ _ grid_size Hshape Hne)
    as [Hsat Hunsat].
  cbv zeta in Hsat, Hunsat. rewrite run_model_valid in Hsat, Hunsat.
  split.
  - rewrite Hsat, andb_true_iff, Hvs, forallb_forall. split.
    + intros [H1 H2]. split; [exact H1|]. intros g t. apply H2.
    + intros [H1 H2]. split; [exact H1|]. intros [g t]. apply H2.
  - rewrite Hunsat, andb_false_iff, Hvu, forallb_false_iff. split.
    + intros [H|([g t] & Hin & Hf)]; [left; exact H|].
      right. exists g, t. auto.
    + intros [H|(g & t & Hin & Hf)]; [left; exact H|].
      right. exists (g, t). auto.
Qed.

Lemma find_efficient_path_result_witness :
  (returns (find_efficient_path chase_agent chase_targets chase_actions 3) sat
   <-> returns (check_run chase_agent chase_targets chase_actions 3) sat
       /\ forall g t,
            In (g, t) (pursuit_schedule chase_targets chase_actions) ->
            moves_toward chase_agent chase_targets chase_actions (g, t)
            = true)
  /\ (returns (find_efficient_path chase_agent chase_targets chase_actions 3)
              unsat
      <-> returns (check_run chase_agent chase_targets chase_actions 3) unsat
          \/ exists g t,
               In (g, t) (pursuit_schedule chase_targets chase_actions)
               /\ moves_toward chase_agent chase_targets chase_actions (g, t)
                  = false).
Proof.
  apply (find_efficient_path_result chase_agent chase_targets chase_actions 3).
  - reflexivity.
  - vm_compute. discriminate.
Defined.

(** X14.  The ordering [closest_target] asserts does not depend on the
    agent: in every model of the world model, the constraint
    [d_row[g] + d_col[g] <= d_row[g'] + d_col[g']] at [t] holds exactly when
    the sum of target [g]'s row and column is at most the sum of target
    [g']'s row and column at [t]. *)
Theorem closest_ignores_agent (T : nat) (N : Z) (m : Model) (g g' t : nat) :
  models m (solver (init_environment T N)) = true ->
  t < T -> g < 3 -> g' < 3 ->
  Le (Plus (TD g row t) (TD g column t))
     (Plus (TD g' row t) (TD g' column t)) m = true
  <-> (int_value m (t_ g row t) + int_value m (t_ g column t)
       <= int_value m (t_ g' row t) + int_value m (t_ g' column t))%Z.
Proof.
  intros Hm Ht Hg Hg'. apply models_world in Hm.
  destruct Hm as (_ & _ & _ & Hd & _).
  z3_unfold. rewrite Z.leb_le.
  rewrite !Hd by assumption. lia.
Qed.

Lemma closest_ignores_agent_witness :
  Le (Plus (TD 0 row 1) (TD 0 column 1))
     (Plus (TD 2 row 1) (TD 2 column 1)) small_run_model = true
  <-> (int_value small_run_model (t_ 0 row 1)
       + int_value small_run_model (t_ 0 column 1)
       <= int_value small_run_model (t_ 2 row 1)
          + int_value small_run_model (t_ 2 column 1))%Z.
Proof.
  apply (closest_ignores_agent 2 3 small_run_model 0 2 1).
  - vm_compute. reflexivity.
  - lia.
  - lia.
  - lia.
Defined.

(** X15.  For a well-shaped run in which no target ever changes position
    [closest_target] adds no constraint of its own: it returns exactly what
    [check_run] returns. *)
Theorem closest_target_without_change (agent_position_list : list position)
    (target_position_list : list (list position)) (action_list : list Z)
    (grid_size : Z) (r : CheckSatResult) :
  well_shaped agent_position_list target_position_list action_list = true ->
  (forall t i, t + 1 < length action_list -> i < 3 ->
     changes target_position_list t i = false) ->
  returns (closest_target agent_position_list target_position_list
                          action_list grid_size) r
  <-> returns (check_run agent_position_list target_position_list action_list
                         grid_size) r.
Proof.
  intros Hshape Hnone.
  rewrite (closest_target_Ok _ _ _ grid_size Hshape).
  rewrite (check_run_Ok _ _ _ grid_size Hshape).
  unfold choice_events. rewrite (change_events_nil _ _ Hnone).
  cbn [map combine flat_map]. rewrite app_nil_r. reflexivity.
Qed.

Lemma closest_target_without_change_witness :
  returns (closest_target loop_agent loop_targets loop_actions 3) sat
  <-> returns (check_run loop_agent loop_targets loop_actions 3) sat.
Proof.
  apply (closest_target_without_change loop_agent loop_targets loop_actions 3).
  - reflexivity.
  - intros t i Ht Hi. cbn in Ht.
    destruct t as [|[|t]]; [| |lia];
      destruct i as [|[|[|i]]]; try lia; reflexivity.
Defined.

(** X16.  For a well-shaped run the scan of [find_efficient_path] ends
    normally with exactly the changes of the target trace: the pair
    (i, t + 1) is in [chosen_targets] if and only if target [i] (one of 0,
    1, 2) has another row or another column at [t + 1] than at [t], for
    [t + 1] below the horizon; and every pair in it has this form. *)
Theorem scan_finds_changes (agent_position_list : list position)
    (target_position_list : list (list position)) (action_list : list Z) :
  well_shaped agent_position_list target_position_list action_list = true ->
  exists chosen_targets,
    find_chosen_targets target_position_list action_list = Ok chosen_targets
    /\ (forall i t,
          In (i, t + 1) chosen_targets
          <-> t + 1 < length action_list /\ i < 3
              /\ (fst (target_at target_position_list t i)
                  <> fst (target_at target_position_list (t + 1) i)
                  \/ snd (target_at target_position_list t i)
                     <> snd (target_at target_position_list (t + 1) i)))
    /\ (forall i a, In (i, a) chosen_targets -> 1 <= a).
Proof.
  intros Hshape. eexists. split; [apply (find_chosen_targets_Ok _ _ _ Hshape)|].
  split.
  - intros i t. rewrite change_events_In. unfold changes.
    rewrite orb_true_iff, !negb_true_iff, !Z.eqb_neq. reflexivity.
  - intros i a Hin. apply change_events_range in Hin. lia.
Qed.

Lemma scan_finds_changes_witness :
  exists chosen_targets,
    find_chosen_targets chase_targets chase_actions = Ok chosen_targets
    /\ (forall i t,
          In (i, t + 1) chosen_targets
          <-> t + 1 < length chase_actions /\ i < 3
              /\ (fst (target_at chase_targets t i)
                  <> fst (target_at chase_targets (t + 1) i)
                  \/ snd (target_at chase_targets t i)
                     <> snd (target_at chase_targets (t + 1) i)))
    /\ (forall i a, In (i, a) chosen_targets -> 1 <= a).
Proof.
  apply (scan_finds_changes chase_agent chase_targets chase_actions).
  reflexivity.
Defined.

(* ------------------------------------------------------------------------- *)
(** ** The pursued target and the constraints of find_efficient_path *)

Lemma flat_map_of_map {A B C : Type} (f : B -> list C) (g : A -> B)
    (l : list A) :
  flat_map f (map g l) = flat_map (fun x => f (g x)) l.
Proof.
  induction l as [|x l IH]; [reflexivity|].
  cbn [map flat_map]. rewrite IH. reflexivity.
Qed.

(** A move leads towards a target exactly when it does not increase the
    distance to it on either axis. *)
Lemma moves_toward_distance (agent_position_list : list position)
    (target_position_list : list (list position)) (action_list : list Z)
    (gt : nat * nat) :
  moves_toward agent_position_list target_position_list action_list gt
  = negb (increases_distance agent_position_list target_position_list
                             action_list gt).
Proof.
  unfold moves_toward, increases_distance, distance_on, moved_by.
  destruct gt as [g t]. cbn [fst snd coordinate].
  generalize (action_at action_list t) as a.
  destruct (target_at target_position_list t g) as [tr tc].
  destruct (agent_at agent_position_list t) as [ar ac].
  intros a. cbn [fst snd]. rewrite !Z.geb_leb.
  destruct (Z.eqb_spec a 0) as [->|H0]; [cbn|];
    [|destruct (Z.eqb_spec a 1) as [->|H1]; [cbn|];
      [|destruct (Z.eqb_spec a 2) as [->|H2]; [cbn|];
        [|destruct (Z.eqb_spec a 3) as [->|H3]; cbn]]];
    repeat match goal with
           | |- context [Z.leb ?x ?y] => destruct (Z.leb_spec x y)
           | |- context [Z.ltb ?x ?y] => destruct (Z.ltb_spec x y)
           end; cbn; try reflexivity; lia.
Qed.

(** When one target changes per step, the assertions of
    [find_efficient_path] are those of [check_run] followed by the four
    constraints for the pursued target at every timestep before the last
    arrival. *)
Lemma find_efficient_path_pursued (agent_position_list : list position)
    (target_position_list : list (list position)) (action_list : list Z)
    (grid_size : Z) :
  well_shaped agent_position_list target_position_list action_list = true ->
  change_events target_position_list action_list <> [] ->
  one_change_per_step target_position_list action_list = true ->
  find_efficient_path agent_position_list target_position_list action_list
                      grid_size
  = Ok ((solver (init_environment (length action_list) grid_size)
         ++ run_constraints agent_position_list target_position_list
                            action_list)
        ++ flat_map
             (fun t =>
                efficiency_at
                  (pursued (change_events target_position_list action_list) t,
                   t))
             (range (last_arrival target_position_list action_list))).
Proof.
  intros Hshape Hne Hone.
  rewrite (find_efficient_path_Ok _ _ _ grid_size Hshape Hne).
  rewrite (schedule_increasing _ _ Hne Hone), flat_map_of_map.
  reflexivity.
Qed.

(** The result of [find_efficient_path] in that case, read on the recorded
    run. *)
Lemma find_efficient_path_pursued_result
    (agent_position_list : list position)
    (target_position_list : list (list position)) (action_list : list Z)
    (grid_size : Z) :
  well_shaped agent_position_list target_position_list action_list = true ->
  change_events target_position_list action_list <> [] ->
  one_change_per_step target_position_list action_list = true ->
  let events := change_events target_position_list action_list in
  let last_capture := last_arrival target_position_list action_list in
  (returns (find_efficient_path agent_position_list target_position_list
                                action_list grid_size) sat
   <-> returns (check_run agent_position_list target_position_list
                          action_list grid_size) sat
       /\ forall t, t < last_capture ->
            increases_distance agent_position_list target_position_list
                               action_list (pursued events t, t) = false)
  /\ (returns (find_efficient_path agent_position_list target_position_list
                                   action_list grid_size) unsat
      <-> returns (check_run agent_position_list target_position_list
                             action_list grid_size) unsat
          \/ exists t, t < last_capture
               /\ increases_distance agent_position_list target_position_list
                                     action_list (pursued events t, t)
                  = true).
Proof.
  intros Hshape Hne Hone events last_capture.
  destruct (check_run_decided _ _ _ grid_size Hshape) as [Hvs Hvu].
  destruct (find_efficient_path_returns _ _ _ grid_size Hshape Hne)
    as [Hsat Hunsat].
  cbv zeta in Hsat, Hunsat. rewrite run_model_valid in Hsat, Hunsat.
  rewrite (schedule_increasing _ _ Hne Hone) in Hsat, Hunsat.
  fold events last_capture in Hsat, Hunsat.
  split.
  - rewrite Hsat, andb_true_iff, Hvs, forallb_forall. split.
    + intros [H1 H2]. split; [exact H1|]. intros t Ht.
      specialize (H2 (pursued events t, t)).
      rewrite moves_toward_distance in H2. apply negb_true_iff, H2.
      apply in_map_iff. exists t. split; [reflexivity | apply in_range, Ht].
    + intros [H1 H2]. split; [exact H1|]. intros gt Hgt.
      apply in_map_iff in Hgt. destruct Hgt as (t & <- & Ht).
      rewrite moves_toward_distance. apply negb_true_iff, H2, in_range, Ht.
  - rewrite Hunsat, andb_false_iff, Hvu, forallb_false_iff. split.
    + intros [H|(gt & Hgt & Hf)]; [left; exact H|]. right.
      apply in_map_iff in Hgt. destruct Hgt as (t & <- & Ht).
      exists t. split; [apply in_range, Ht|].
      rewrite moves_toward_distance in Hf. apply negb_false_iff, Hf.
    + intros [H|(t & Ht & Hf)]; [left; exact H|]. right.
      exists (pursued events t, t). split.
      * apply in_map_iff. exists t. split; [reflexivity | apply in_range, Ht].
      * rewrite moves_toward_distance. apply negb_false_iff, Hf.
Qed.

(** The last arrival is the arrival time of a change event: at least 1 and
    less than the number of timesteps. *)
Lemma last_arrival_range (target_position_list : list (list position))
    (action_list : list Z) :
  change_events target_position_list action_list <> [] ->
  1 <= last_arrival target_position_list action_list < length action_list.
Proof.
  intros Hne. unfold last_arrival.
  destruct (exists_last Hne) as (l' & [g a] & E). rewrite E, last_last.
  apply (change_events_range target_position_list action_list g a).
  rewrite E. apply in_or_app. right. left. reflexivity.
Qed.




(** C10, amended.  For a well-shaped run with at least one change event in
    which no two targets change at the same step, the last arrival (the
    effective timestep of the last change) is a timestep of the run, and
    [find_efficient_path] hands the solver the assertions of [check_run]
    followed by the four directional constraints of exactly the timesteps
    strictly before the last arrival, each for the slot of the first change
    taking effect after that timestep, and nothing more.  So its result
    depends on the moves before the last arrival only: it returns [sat]
    exactly when [check_run] does and no move before the last arrival
    increases the distance to the pursued target, whatever the moves from
    the last arrival on are, and [unsat] exactly when [check_run] returns
    [unsat] or a move before the last arrival increases that distance. *)
Theorem constraints_before_last_capture
    (agent_position_list : list position)
    (target_position_list : list (list position)) (action_list : list Z)
    (grid_size : Z) :
  well_shaped agent_position_list target_position_list action_list = true ->
  change_events target_position_list action_list <> [] ->
  one_change_per_step target_position_list action_list = true ->
  let events := change_events target_position_list action_list in
  let last_capture := last_arrival target_position_list action_list in
  1 <= last_capture < length action_list
  /\ (exists base,
        check_run agent_position_list target_position_list action_list
                  grid_size = Ok base
        /\ find_efficient_path agent_position_list target_position_list
                               action_list grid_size
           = Ok (base
                 ++ flat_map (fun t => efficiency_at (pursued events t, t))
                             (range last_capture)))
  /\ (returns (find_efficient_path agent_position_list target_position_list
                                   action_list grid_size) sat
      <-> returns (check_run agent_position_list target_position_list
                             action_list grid_size) sat
          /\ forall t, t < last_capture ->
               increases_distance agent_position_list target_position_list
                                  action_list (pursued events t, t) = false)
  /\ (returns (find_efficient_path agent_position_list target_position_list
                                   action_list grid_size) unsat
      <-> returns (check_run agent_position_list target_position_list
                             action_list grid_size) unsat
          \/ exists t, t < last_capture
               /\ increases_distance agent_position_list
                                     target_position_list action_list
                                     (pursued events t, t) = true).
Proof.
  intros Hshape Hne Hone events last_capture.
  split; [exact (last_arrival_range _ _ Hne)|].
  split.
  - eexists. split; [exact (check_run_Ok _ _ _ grid_size Hshape)|].
    exact (find_efficient_path_pursued _ _ _ grid_size Hshape Hne Hone).
  - exact (find_efficient_path_pursued_result _ _ _ grid_size Hshape Hne Hone).
Qed.

Lemma constraints_before_last_capture_witness :
  last_arrival chase_targets chase_actions = 2
  /\ increases_distance chase_agent chase_targets chase_actions
       (pursued (change_events chase_targets chase_actions) 2, 2) = true
  /\ returns (find_efficient_path chase_agent chase_targets chase_actions 3)
             sat.
Proof.
  split; [reflexivity|]. split; [reflexivity|].
  refine (proj2 (proj1 (proj2 (proj2
            (constraints_before_last_capture chase_agent chase_targets
               chase_actions 3 _ _ _)))) _).
  - reflexivity.
  - vm_compute. discriminate.
  - reflexivity.
  - split.
    + apply check_run_sat_iff; [reflexivity|]. vm_compute. reflexivity.
    + intros t Ht.
      change (last_arrival chase_targets chase_actions) with 2 in Ht.
      destruct t as [|[|t]]; [reflexivity | reflexivity | lia].
Defined.

(* ------------------------------------------------------------------------- *)
(** ** The agent *)

Lemma same_cell_spec (p q : position) : same_cell p q = true <-> p = q.
Proof.
  unfold same_cell. rewrite andb_true_iff, !Z.eqb_eq.
  destruct p, q; cbn. split; [intros [-> ->]; reflexivity|].
  intros H. injection H as -> ->. split; reflexivity.
Qed.

Lemma same_cell_false (p q : position) : same_cell p q = false <-> p <> q.
Proof.
  rewrite <- same_cell_spec. destruct (same_cell p q); split; congruence.
Qed.

Lemma member_spec (p : position) (l : list position) :
  Agent.member p l = true <-> In p l.
Proof.
  unfold Agent.member. rewrite existsb_exists. split.
  - intros (q & Hq & H). apply same_cell_spec in H. subst q. exact Hq.
  - intros H. exists p. split; [exact H | apply same_cell_spec; reflexivity].
Qed.

Lemma member_false (p : position) (l : list position) :
  Agent.member p l = false <-> ~ In p l.
Proof.
  rewrite <- member_spec. destruct (Agent.member p l); split; congruence.
Qed.

Lemma random_state_Some (draws exclude : list position) (p : position)
    (rest : list position) :
  Agent.random_state draws exclude = Some (p, rest) ->
  ~ In p exclude
  /\ exists skipped,
       draws = skipped ++ p :: rest
       /\ forall q, In q skipped -> In q exclude.
Proof.
  induction draws as [|d draws IH]; [discriminate|].
  cbn [Agent.random_state]. destruct (Agent.member d exclude) eqn:E.
  - intros H. destruct (IH H) as (Hp & skipped & -> & Hs).
    split; [exact Hp|]. exists (d :: skipped). split; [reflexivity|].
    intros q [<-|Hq]; [apply member_spec, E | apply Hs, Hq].
  - intros H. injection H as <- <-. split; [apply member_false, E|].
    exists []. split; [reflexivity | intros q []].
Qed.

Lemma random_state_None (draws exclude : list position) :
  Agent.random_state draws exclude = None
  <-> forall q, In q draws -> In q exclude.
Proof.
  induction draws as [|d draws IH]; cbn [Agent.random_state].
  - split; [intros _ q [] | reflexivity].
  - destruct (Agent.member d exclude) eqn:E.
    + rewrite IH. split.
      * intros H q [<-|Hq]; [apply member_spec, E | apply H, Hq].
      * intros H q Hq. apply H. right. exact Hq.
    + split; [discriminate|]. intros H. apply member_false in E.
      exfalso. apply E, H. left. reflexivity.
Qed.

(** X17.  [random_state] returns the first pair drawn that is not in
    [exclude]: the result is not in [exclude], every pair drawn before it
    is, and the draws after it are left for the next call.  The loop does
    not end within the draws given exactly when all of them are in
    [exclude]. *)
Theorem random_state_first_fresh (draws exclude : list position) :
  (forall p rest,
     Agent.random_state draws exclude = Some (p, rest) ->
     ~ In p exclude
     /\ exists skipped,
          draws = skipped ++ p :: rest
          /\ forall q, In q skipped -> In q exclude)
  /\ (Agent.random_state draws exclude = None
      <-> forall q, In q draws -> In q exclude).
Proof.
  split.
  - intros p rest. apply random_state_Some.
  - apply random_state_None.
Qed.

Lemma draws_in_grid_suffix (grid : Z) (skipped rest : list position) :
  draws_in_grid grid (skipped ++ rest) -> draws_in_grid grid rest.
Proof.
  intros H p Hp. apply H, in_or_app. right. exact Hp.
Qed.

Lemma random_state_in_grid (grid : Z) (draws exclude : list position)
    (p : position) (rest : list position) :
  draws_in_grid grid draws ->
  Agent.random_state draws exclude = Some (p, rest) ->
  outside grid p = false /\ draws_in_grid grid rest /\ ~ In p exclude.
Proof.
  intros Hd H. destruct (random_state_Some _ _ _ _ H) as (Hp & sk & -> & _).
  split; [|split; [|exact Hp]].
  - apply Hd, in_or_app. right. left. reflexivity.
  - apply (draws_in_grid_suffix grid (sk ++ [p])).
    rewrite <- app_assoc. exact Hd.
Qed.

Lemma out_of_grid_outside (grid : Z) (p : position) :
  Agent.out_of_grid grid p = outside grid p.
Proof.
  unfold Agent.out_of_grid, outside.
  destruct (Z.ltb_spec (fst p) 0), (Z.geb_spec (fst p) grid),
    (Z.ltb_spec (snd p) 0), (Z.geb_spec (snd p) grid),
    (Z.leb_spec 0 (fst p)), (Z.ltb_spec (fst p) grid),
    (Z.leb_spec 0 (snd p)), (Z.ltb_spec (snd p) grid);
    cbn; try reflexivity; lia.
Qed.

Lemma displaced_moved_by (a : Z) (p : position) :
  Agent.displaced a p = moved_by a p.
Proof.
  unfold Agent.displaced, moved_by. destruct p as [r c]. cbn [fst snd].
  destruct (Z.eqb_spec a 0); [subst; cbn; f_equal; lia|].
  destruct (Z.eqb_spec a 1); [subst; cbn; f_equal; lia|].
  destruct (Z.eqb_spec a 2); [subst; cbn; f_equal; lia|].
  destruct (Z.eqb_spec a 3); [subst; cbn; f_equal; lia|].
  f_equal; lia.
Qed.

Lemma same_cell_refl (p : position) : same_cell p p = true.
Proof. apply same_cell_spec. reflexivity. Qed.

Lemma replace_cell_In (here fresh q : position) (l : list position) :
  In q (replace_cell here fresh l) -> q = fresh \/ (In q l /\ q <> here).
Proof.
  unfold replace_cell. rewrite in_map_iff. intros (x & Hx & Hin).
  destruct (same_cell x here) eqn:E.
  - left. congruence.
  - right. subst q. split; [exact Hin | apply same_cell_false, E].
Qed.

Lemma replace_cell_absent (here fresh : position) (l : list position) :
  ~ In here l -> replace_cell here fresh l = l.
Proof.
  unfold replace_cell. induction l as [|x l IH]; intros H; [reflexivity|].
  cbn [map]. rewrite IH by (intros Hin; apply H; right; exact Hin).
  destruct (same_cell x here) eqn:E; [|reflexivity].
  apply same_cell_spec in E. subst x. exfalso. apply H. left. reflexivity.
Qed.

Lemma replace_cell_NoDup (here fresh : position) (l : list position) :
  NoDup l -> ~ In fresh l -> NoDup (replace_cell here fresh l).
Proof.
  induction l as [|x l IH]; intros Hnd Hf; [constructor|].
  inversion Hnd as [|? ? Hx Hl]; subst.
  change (replace_cell here fresh (x :: l))
    with ((if same_cell x here then fresh else x) :: replace_cell here fresh l).
  destruct (same_cell x here) eqn:E.
  - apply same_cell_spec in E. subst x.
    rewrite replace_cell_absent by exact Hx.
    constructor; [|exact Hl]. intros Hin. apply Hf. right. exact Hin.
  - constructor.
    + intros Hin. apply replace_cell_In in Hin.
      destruct Hin as [->|[Hin _]]; [|contradiction].
      apply Hf. left. reflexivity.
    + apply IH; [exact Hl|]. intros Hin. apply Hf. right. exact Hin.
Qed.

(** The loop of [move] over three targets on different cells: the target on
    the agent's cell, if there is one, is put on a fresh cell. *)
Lemma collect_three (here : position) (targets : list position)
    (previous : option position) (total : nat) (draws : list position) :
  length targets = 3 -> NoDup targets ->
  Agent.collect (range 3) here targets previous total draws
  = if Agent.member here targets then
      Agent.option_bind (Agent.random_state draws targets)
        (fun '(fresh, draws') =>
           Some (replace_cell here fresh targets, Some here, total + 1,
                 draws'))
    else Some (targets, previous, total, draws).
Proof.
  intros Hlen Hnd.
  destruct targets as [|t0 [|t1 [|t2 [|]]]]; try discriminate. clear Hlen.
  inversion Hnd as [|? ? H0 Hnd1]; subst.
  inversion Hnd1 as [|? ? H1 Hnd2]; subst.
  assert (H01 : t0 <> t1) by (intros ->; apply H0; left; reflexivity).
  assert (H02 : t0 <> t2)
    by (intros ->; apply H0; right; left; reflexivity).
  assert (H12 : t1 <> t2) by (intros ->; apply H1; left; reflexivity).
  unfold Agent.member, replace_cell.
  cbn [Agent.collect range seq nth_error existsb map].
  destruct (same_cell t0 here) eqn:E0.
  - apply same_cell_spec in E0. subst here.
    rewrite same_cell_refl. cbn [orb].
    destruct (Agent.random_state draws [t0; t1; t2]) as [[fresh draws']|];
      [|reflexivity].
    cbn [Agent.option_bind Agent.set_nth Agent.collect nth_error].
    rewrite (proj2 (same_cell_false t1 t0)) by congruence.
    rewrite (proj2 (same_cell_false t2 t0)) by congruence.
    reflexivity.
  - assert (E0' : same_cell here t0 = false).
    { apply same_cell_false. apply same_cell_false in E0. congruence. }
    rewrite E0'. cbn [orb].
    destruct (same_cell t1 here) eqn:E1.
    + apply same_cell_spec in E1. subst here.
      rewrite same_cell_refl. cbn [orb].
      destruct (Agent.random_state draws [t0; t1; t2]) as [[fresh draws']|];
        [|reflexivity].
      cbn [Agent.option_bind Agent.set_nth Agent.collect nth_error].
      rewrite (proj2 (same_cell_false t2 t1)) by congruence.
      reflexivity.
    + assert (E1' : same_cell here t1 = false).
      { apply same_cell_false. apply same_cell_false in E1. congruence. }
      rewrite E1'. cbn [orb].
      destruct (same_cell t2 here) eqn:E2.
      * apply same_cell_spec in E2. subst here.
        rewrite same_cell_refl. cbn [orb].
        destruct (Agent.random_state draws [t0; t1; t2])
          as [[fresh draws']|]; reflexivity.
      * assert (E2' : same_cell here t2 = false).
        { apply same_cell_false. apply same_cell_false in E2. congruence. }
        rewrite E2'. reflexivity.
Qed.

Lemma landing_inside (grid a : Z) (p : position) :
  outside grid p = false -> outside grid (landing grid a p) = false.
Proof.
  intros H. unfold landing.
  destruct (outside grid (moved_by a p)) eqn:E; assumption.
Qed.

Lemma move_spec (a : Z) (st st' : Agent.State) (draws draws' : list position) :
  good_state st ->
  draws_in_grid (Agent.grid_size st) draws ->
  Agent.move a st draws = Some (st', draws') ->
  let grid := Agent.grid_size st in
  let here := landing grid a (Agent.agent_position st) in
  Agent.grid_size st' = grid
  /\ Agent.agent_position st' = here
  /\ draws_in_grid grid draws'
  /\ (In here (Agent.target_positions st) ->
      exists fresh,
        Agent.random_state draws (Agent.target_positions st)
        = Some (fresh, draws')
        /\ outside grid fresh = false
        /\ ~ In fresh (Agent.target_positions st)
        /\ Agent.target_positions st'
           = replace_cell here fresh (Agent.target_positions st)
        /\ Agent.total_collected st' = Agent.total_collected st + 1
        /\ Agent.previously_collected st' = Some here)
  /\ (~ In here (Agent.target_positions st) ->
      Agent.target_positions st' = Agent.target_positions st
      /\ Agent.total_collected st' = Agent.total_collected st
      /\ Agent.previously_collected st' = None
      /\ draws' = draws).
Proof.
  intros Hgood Hdraws Hmove grid here.
  destruct Hgood as (Hin & Hlen & Htin & Hnd & Hoff).
  unfold Agent.move in Hmove.
  rewrite out_of_grid_outside, displaced_moved_by in Hmove.
  fold grid in Hmove, Hdraws.
  change (if outside grid (moved_by a (Agent.agent_position st))
          then Agent.agent_position st
          else moved_by a (Agent.agent_position st))
    with here in Hmove.
  rewrite Hlen, (collect_three _ _ _ _ _ Hlen Hnd) in Hmove.
  destruct (Agent.member here (Agent.target_positions st)) eqn:E.
  - apply member_spec in E.
    destruct (Agent.random_state draws (Agent.target_positions st))
      as [[fresh d']|] eqn:Er; [|discriminate].
    cbn [Agent.option_bind] in Hmove. injection Hmove as <- <-.
    destruct (random_state_in_grid grid _ _ _ _ Hdraws Er)
      as (Hf & Hd' & Hfresh).
    cbn [Agent.grid_size Agent.agent_position Agent.target_positions
         Agent.total_collected Agent.previously_collected].
    split; [reflexivity|]. split; [reflexivity|]. split; [exact Hd'|].
    split; [|intros H; contradiction].
    intros _. exists fresh. repeat split; assumption.
  - apply member_false in E.
    cbn [Agent.option_bind] in Hmove. injection Hmove as <- <-.
    cbn [Agent.grid_size Agent.agent_position Agent.target_positions
         Agent.total_collected Agent.previously_collected].
    split; [reflexivity|]. split; [reflexivity|]. split; [exact Hdraws|].
    split; [intros H; contradiction|].
    intros _. repeat split.
Qed.

Lemma position_eq_dec (p q : position) : {p = q} + {p <> q}.
Proof. decide equality; apply Z.eq_dec. Qed.

Lemma move_good (a : Z) (st st' : Agent.State) (draws draws' : list position) :
  good_state st ->
  draws_in_grid (Agent.grid_size st) draws ->
  Agent.move a st draws = Some (st', draws') ->
  good_state st'.
Proof.
  intros Hgood Hdraws Hmove.
  destruct (move_spec _ _ _ _ _ Hgood Hdraws Hmove)
    as (Hg & Ha & _ & Hhit & Hmiss).
  destruct Hgood as (Hin & Hlen & Htin & Hnd & Hoff).
  unfold good_state. rewrite Hg, Ha.
  split; [apply landing_inside, Hin|].
  destruct (in_dec position_eq_dec
              (landing (Agent.grid_size st) a (Agent.agent_position st))
              (Agent.target_positions st)) as [Hhere|Hhere].
  - destruct (Hhit Hhere) as (fresh & _ & Hf & Hfresh & -> & _).
    split; [unfold replace_cell; rewrite length_map; exact Hlen|].
    split; [|split].
    + intros p Hp. apply replace_cell_In in Hp.
      destruct Hp as [->|[Hp _]]; [exact Hf | apply Htin, Hp].
    + apply replace_cell_NoDup; assumption.
    + intros Hp. apply replace_cell_In in Hp.
      destruct Hp as [Heq|[_ Hne]]; [|apply Hne; reflexivity].
      apply Hfresh. rewrite <- Heq. exact Hhere.
  - destruct (Hmiss Hhere) as (-> & _).
    repeat split; assumption.
Qed.

Lemma init_spec (grid : Z) (draws rest : list position) (st : Agent.State) :
  draws_in_grid grid draws ->
  Agent.init grid draws = Some (st, rest) ->
  good_state st
  /\ Agent.grid_size st = grid
  /\ Agent.total_collected st = 0
  /\ draws_in_grid grid rest.
Proof.
  intros Hd H. unfold Agent.init in H.
  destruct (Agent.random_state draws []) as [[agent d0]|] eqn:E0;
    [|discriminate].
  cbn [Agent.option_bind Agent.initial_targets app] in H.
  destruct (random_state_in_grid grid _ _ _ _ Hd E0) as (Ha & Hd0 & _).
  destruct (Agent.random_state d0 [agent]) as [[t0 d1]|] eqn:E1;
    [|discriminate].
  cbn [Agent.option_bind app] in H.
  destruct (random_state_in_grid grid _ _ _ _ Hd0 E1) as (H0 & Hd1 & N0).
  destruct (Agent.random_state d1 [t0; agent]) as [[t1 d2]|] eqn:E2;
    [|discriminate].
  cbn [Agent.option_bind app] in H.
  destruct (random_state_in_grid grid _ _ _ _ Hd1 E2) as (H1 & Hd2 & N1).
  destruct (Agent.random_state d2 [t0; t1; agent]) as [[t2 d3]|] eqn:E3;
    [|discriminate].
  cbn [Agent.option_bind app] in H.
  destruct (random_state_in_grid grid _ _ _ _ Hd2 E3) as (H2 & Hd3 & N2).
  injection H as <- <-.
  split; [|repeat split; assumption].
  unfold good_state.
  cbn [Agent.grid_size Agent.agent_position Agent.target_positions].
  cbn [In] in N0, N1, N2.
  split; [exact Ha|]. split; [reflexivity|]. split; [|split].
  - intros p [<-|[<-|[<-|[]]]]; assumption.
  - repeat constructor; cbn [In]; intuition congruence.
  - cbn [In]. intuition congruence.
Qed.

(* ------------------------------------------------------------------------- *)
(** ** The recording loop *)

Lemma append_recording_empty (r : Recording) :
  append_recording r empty_recording = r.
Proof.
  destruct r. unfold append_recording. cbn. rewrite !app_nil_r. reflexivity.
Qed.

Section Loop.

Variable get_action : list Z -> Z.
Variable num_collect : Z.

Lemma main_loop_path (passes : nat) :
  forall st draws rec st' draws' rec',
    good_state st ->
    draws_in_grid (Agent.grid_size st) draws ->
    main_loop get_action num_collect passes st draws rec
    = Some (st', draws', rec') ->
    exists visited,
      path get_action st visited st'
      /\ rec' = append_recording rec (record_of get_action visited).
Proof.
  induction passes as [|passes IH]; intros st draws rec st' draws' rec'
    Hgood Hdraws H.
  - injection H as <- <- <-. exists []. split; [reflexivity|].
    symmetry. apply append_recording_empty.
  - cbn [main_loop] in H.
    destruct (Z.of_nat (Agent.total_collected st) <=? num_collect)%Z.
    + destruct (Agent.move (get_action (Agent.get_state st)) st draws)
        as [[st1 draws1]|] eqn:Em; [|discriminate].
      cbn [Agent.option_bind] in H.
      destruct (move_spec _ _ _ _ _ Hgood Hdraws Em) as (Hg & _ & Hd1 & _).
      cbv zeta in Hg, Hd1. rewrite <- Hg in Hd1.
      destruct (IH _ _ _ _ _ _ (move_good _ _ _ _ _ Hgood Hdraws Em) Hd1 H)
        as (visited & Hpath & ->).
      exists (st :: visited). split.
      * cbn [path]. split; [reflexivity|]. exists st1.
        split; [|exact Hpath]. exists draws, draws1. split; assumption.
      * unfold append_recording, record_of. cbn.
        rewrite <- !app_assoc. reflexivity.
    + injection H as <- <- <-. exists []. split; [reflexivity|].
      symmetry. apply append_recording_empty.
Qed.

Lemma path_good (visited : list Agent.State) :
  forall s final,
    good_state s -> path get_action s visited final ->
    (forall x, In x visited ->
       good_state x /\ Agent.grid_size x = Agent.grid_size s)
    /\ good_state final.
Proof.
  induction visited as [|x rest IH]; intros s final Hgood Hpath.
  - cbn in Hpath. subst final. split; [intros x []|exact Hgood].
  - destruct Hpath as (-> & next & (draws & draws' & Hd & Hm) & Hpath).
    destruct (move_spec _ _ _ _ _ Hgood Hd Hm) as (Hg & _).
    cbv zeta in Hg.
    destruct (IH next final (move_good _ _ _ _ _ Hgood Hd Hm) Hpath)
      as [Hall Hfinal].
    split; [|exact Hfinal].
    intros y [<-|Hy]; [split; [exact Hgood | reflexivity]|].
    destruct (Hall y Hy) as [Hy1 Hy2]. split; [exact Hy1 | congruence].
Qed.

Lemma path_step (visited : list Agent.State) :
  forall s final d t,
    path get_action s visited final ->
    t < length visited ->
    moves_to get_action (nth t visited d)
             (nth (t + 1) (visited ++ [final]) d).
Proof.
  induction visited as [|x rest IH]; intros s final d t Hpath Ht;
    [cbn in Ht; lia|].
  destruct Hpath as (-> & next & Hmoves & Hpath).
  destruct t as [|t].
  - cbn [nth Nat.add app].
    destruct rest as [|y rest'].
    + cbn in Hpath. subst final. exact Hmoves.
    + destruct Hpath as (-> & _). exact Hmoves.
  - cbn [nth Nat.add app]. apply (IH next); [exact Hpath|].
    cbn in Ht. lia.
Qed.

End Loop.

Lemma changes_true_iff (target_position_list : list (list position))
    (t i : nat) :
  changes target_position_list t i = true
  <-> target_at target_position_list t i
      <> target_at target_position_list (t + 1) i.
Proof.
  unfold changes. rewrite orb_true_iff, !negb_true_iff, !Z.eqb_neq.
  destruct (target_at target_position_list t i) as [r c],
           (target_at target_position_list (t + 1) i) as [r' c'].
  cbn [fst snd]. split.
  - intros [H|H] Heq; injection Heq as -> ->; apply H; reflexivity.
  - intros H. destruct (Z.eq_dec r r') as [->|]; [|left; assumption].
    right. intros ->. apply H. reflexivity.
Qed.

Lemma increasing_cons (x : nat) (l : list nat) :
  (forall y, In y l -> x < y) -> increasing l = true ->
  increasing (x :: l) = true.
Proof.
  intros Hx Hl. destruct l as [|y l]; [reflexivity|].
  change (increasing (x :: y :: l))
    with ((x <? y) && increasing (y :: l)).
  rewrite Hl, andb_true_r.
  apply Nat.ltb_lt, Hx. left. reflexivity.
Qed.

Lemma one_change_increasing_from (target_position_list : list (list position))
    (bound n : nat) :
  (forall t i j, t < bound -> i < 3 -> j < 3 ->
     changes target_position_list t i = true ->
     changes target_position_list t j = true -> i = j) ->
  forall a,
    a + n <= bound ->
    increasing
      (map snd
         (flat_map (fun t =>
            flat_map (fun i =>
              if changes target_position_list t i then [(i, t + 1)] else [])
              (range 3))
            (seq a n))) = true.
Proof.
  intros Huniq.
  induction n as [|n IH]; intros a Ha; [reflexivity|].
  cbn [seq flat_map]. rewrite map_app.
  match goal with
  | |- increasing (_ ++ ?l) = true => set (later := l)
  end.
  assert (Hlater : forall y, In y later -> a + 1 < y).
  { intros y Hy. unfold later in Hy. apply in_map_iff in Hy.
    destruct Hy as ([i t'] & <- & Hin).
    apply in_flat_map in Hin. destruct Hin as (t & Ht & Hin).
    apply in_seq in Ht. apply in_flat_map in Hin.
    destruct Hin as (j & _ & Hin).
    destruct (changes target_position_list t j); [|destruct Hin].
    destruct Hin as [Hin|[]]. injection Hin as <- <-. cbn. lia. }
  assert (Hinc : increasing later = true) by (apply IH; lia).
  pose proof (Huniq a 0 1 ltac:(lia) ltac:(lia) ltac:(lia)) as U01.
  pose proof (Huniq a 0 2 ltac:(lia) ltac:(lia) ltac:(lia)) as U02.
  pose proof (Huniq a 1 2 ltac:(lia) ltac:(lia) ltac:(lia)) as U12.
  unfold range. cbn [flat_map seq app].
  destruct (changes target_position_list a 0);
    destruct (changes target_position_list a 1);
    destruct (changes target_position_list a 2);
    try (specialize (U01 eq_refl eq_refl); discriminate);
    try (specialize (U02 eq_refl eq_refl); discriminate);
    try (specialize (U12 eq_refl eq_refl); discriminate);
    cbn [app map snd]; try exact Hinc;
    apply increasing_cons; assumption.
Qed.

(** If at every step of the run at most one target changes, the arrival
    times of the change events increase strictly. *)
Lemma one_change_increasing (target_position_list : list (list position))
    (action_list : list Z) :
  (forall t i j, t + 1 < length action_list -> i < 3 -> j < 3 ->
     changes target_position_list t i = true ->
     changes target_position_list t j = true -> i = j) ->
  one_change_per_step target_position_list action_list = true.
Proof.
  intros Huniq. unfold one_change_per_step, change_events.
  unfold range at 2.
  apply (one_change_increasing_from _ (length action_list - 1));
    [|lia].
  intros t i j Ht. apply Huniq. lia.
Qed.

Section RecordedRun.

Variable get_action : list Z -> Z.
Variable start final : Agent.State.
Variable visited : list Agent.State.

Hypothesis Hgood : good_state start.
Hypothesis Hpath : path get_action start visited final.

Let grid := Agent.grid_size start.
Let rec := record_of get_action visited.
Let apl := agent_position_record rec.
Let tpl := target_position_record rec.
Let al := action_record rec.
Let T := length visited.
Let state_at (t : nat) : Agent.State := nth t visited no_state.

Lemma recorded_agent (t : nat) :
  agent_at apl t = Agent.agent_position (state_at t).
Proof.
  unfold agent_at, apl, rec, record_of, state_at.
  cbn [agent_position_record].
  change (0%Z, 0%Z) with (Agent.agent_position no_state).
  apply map_nth.
Qed.

Lemma recorded_targets (t : nat) :
  nth t tpl [] = Agent.target_positions (state_at t).
Proof.
  unfold tpl, rec, record_of, state_at. cbn [target_position_record].
  change (@nil position) with (Agent.target_positions no_state) at 1.
  apply map_nth.
Qed.

Lemma recorded_target (t i : nat) :
  target_at tpl t i = nth i (Agent.target_positions (state_at t)) (0, 0)%Z.
Proof. unfold target_at. rewrite recorded_targets. reflexivity. Qed.

Lemma recorded_action (t : nat) :
  t < T -> action_at al t = get_action (Agent.get_state (state_at t)).
Proof.
  intros Ht. unfold action_at, al, rec, record_of, state_at.
  cbn [action_record].
  rewrite (nth_indep _ (-1)%Z
             (get_action (Agent.get_state no_state)))
    by (rewrite length_map; exact Ht).
  apply (map_nth (fun s => get_action (Agent.get_state s))).
Qed.

Lemma recorded_lengths :
  length apl = T /\ length tpl = T /\ length al = T.
Proof.
  unfold apl, tpl, al, rec, record_of. cbn. rewrite !length_map.
  repeat split.
Qed.

Lemma state_at_good (t : nat) :
  t < T -> good_state (state_at t) /\ Agent.grid_size (state_at t) = grid.
Proof.
  intros Ht. destruct (path_good _ _ _ _ Hgood Hpath) as [Hall _].
  apply Hall, nth_In, Ht.
Qed.

Lemma state_at_step (t : nat) :
  t + 1 < T ->
  moves_to get_action (state_at t) (state_at (t + 1)).
Proof.
  intros Ht.
  pose proof (path_step _ _ _ _ no_state t Hpath ltac:(unfold T in Ht; lia))
    as H.
  rewrite app_nth1 in H by (unfold T in Ht; lia). exact H.
Qed.

Lemma recorded_well_shaped : well_shaped apl tpl al = true.
Proof.
  destruct recorded_lengths as (Ha & Ht & Hl).
  apply well_shaped_spec. rewrite Ha, Ht, Hl. repeat split.
  intros t Hlt. rewrite recorded_targets.
  destruct (state_at_good t Hlt) as [(_ & Hlen & _) _]. exact Hlen.
Qed.

Lemma recorded_valid_at (t : nat) :
  t < T -> valid_at apl tpl grid t = true.
Proof.
  intros Ht. destruct (state_at_good t Ht) as [Hg Hgrid].
  destruct Hg as (Hin & Hlen & Htin & Hnd & _). rewrite Hgrid in Hin, Htin.
  unfold valid_at. rewrite !andb_true_iff, !forallb_forall.
  split; [split|].
  - rewrite recorded_agent, Hin. reflexivity.
  - intros i Hi. apply in_range in Hi. rewrite recorded_target.
    rewrite Htin; [reflexivity|]. apply nth_In. lia.
  - intros i Hi. apply in_range in Hi. apply forallb_forall.
    intros j Hj. apply in_range in Hj. rewrite !recorded_target.
    apply negb_true_iff, same_cell_false. intros Heq.
    apply (proj1 (NoDup_nth (Agent.target_positions (state_at t))
                           (0, 0)%Z) Hnd) in Heq; lia.
Qed.

Lemma recorded_landing (t : nat) :
  t + 1 < T ->
  agent_at apl (t + 1)
  = landing grid (action_at al t) (agent_at apl t).
Proof.
  intros Ht. destruct (state_at_step t Ht) as (draws & draws' & Hd & Hm).
  destruct (state_at_good t ltac:(lia)) as [Hg Hgrid].
  destruct (move_spec _ _ _ _ _ Hg Hd Hm) as (_ & Ha & _).
  cbv zeta in Ha. rewrite Hgrid in Ha.
  rewrite !recorded_agent, recorded_action by lia. exact Ha.
Qed.

Lemma recorded_valid_step (t : nat) :
  t + 1 < T ->
  valid_step apl tpl al t = negb (blocked grid rec t).
Proof.
  intros Ht. unfold valid_step, blocked. fold apl al.
  destruct (state_at_good t ltac:(lia)) as [Hg Hgrid].
  destruct Hg as (Hin & Hlen & _ & _ & Hoff). rewrite Hgrid in Hin.
  rewrite <- recorded_agent in Hin.
  assert (Hpick : forallb (fun i =>
            implb (same_cell (target_at tpl t i) (agent_at apl t))
                  ((fst (target_at tpl (t + 1) i)
                    =? fst (target_at tpl t i))%Z
                   || (snd (target_at tpl (t + 1) i)
                       =? snd (target_at tpl t i))%Z))
            (range 3) = true).
  { apply forallb_forall. intros i Hi. apply in_range in Hi.
    rewrite (proj2 (same_cell_false _ _)); [reflexivity|].
    rewrite recorded_target, recorded_agent. intros Heq.
    apply Hoff. rewrite <- Heq. apply nth_In. lia. }
  rewrite Hpick, andb_true_r, (recorded_landing t Ht). unfold landing.
  destruct (outside grid (moved_by (action_at al t) (agent_at apl t)))
    eqn:E; cbn [negb].
  - apply same_cell_false. intros Heq. rewrite <- Heq in E. congruence.
  - apply same_cell_refl.
Qed.

(** The recording is a valid run exactly when no recorded move but the
    last was stopped by the border. *)
Lemma recorded_valid_run :
  valid_run apl tpl al grid = true
  <-> forall t, t + 1 < T -> blocked grid rec t = false.
Proof.
  destruct recorded_lengths as (_ & _ & Hl).
  unfold valid_run. rewrite Hl, andb_true_iff, !forallb_forall. split.
  - intros [_ H] t Ht.
    specialize (H t (proj2 (in_range (T - 1) t) ltac:(lia))).
    rewrite recorded_valid_step in H by exact Ht.
    apply negb_true_iff in H. exact H.
  - intros H. split.
    + intros t Ht. apply in_range in Ht. apply recorded_valid_at, Ht.
    + intros t Ht. apply in_range in Ht.
      rewrite recorded_valid_step, H by lia. reflexivity.
Qed.

(** A target changes only when the agent arrives on its cell, and then it
    goes to a cell where no target was. *)
Lemma recorded_change (t i : nat) :
  t + 1 < T -> i < 3 ->
  changes tpl t i = true ->
  agent_at apl (t + 1) = target_at tpl t i
  /\ ~ In (target_at tpl (t + 1) i) (nth t tpl []).
Proof.
  intros Ht Hi Hc. apply changes_true_iff in Hc.
  destruct (state_at_step t Ht) as (draws & draws' & Hd & Hm).
  destruct (state_at_good t ltac:(lia)) as [Hg Hgrid].
  destruct (move_spec _ _ _ _ _ Hg Hd Hm) as (_ & Ha & _ & Hhit & Hmiss).
  cbv zeta in Ha, Hhit, Hmiss.
  destruct Hg as (_ & Hlen & _ & _ & _).
  rewrite !recorded_target in Hc. rewrite !recorded_target.
  rewrite recorded_agent, recorded_targets.
  set (here := landing (Agent.grid_size (state_at t))
                       (get_action (Agent.get_state (state_at t)))
                       (Agent.agent_position (state_at t))) in *.
  destruct (in_dec position_eq_dec here
              (Agent.target_positions (state_at t))) as [Hh|Hh].
  - destruct (Hhit Hh) as (fresh & _ & _ & Hfresh & Ht' & _).
    rewrite Ht' in Hc |- *. unfold replace_cell in Hc |- *.
    assert (Hnth :
      nth i (map (fun q => if same_cell q here then fresh else q)
                 (Agent.target_positions (state_at t))) (0, 0)%Z
      = (fun q => if same_cell q here then fresh else q)
          (nth i (Agent.target_positions (state_at t)) (0, 0)%Z)).
    { rewrite (nth_indep
                 (map (fun q => if same_cell q here then fresh else q)
                      (Agent.target_positions (state_at t)))
                 (0, 0)%Z
                 ((fun q => if same_cell q here then fresh else q)
                    (0, 0)%Z))
        by (rewrite length_map; lia).
      apply (map_nth (fun q => if same_cell q here then fresh else q)). }
    cbv beta in Hnth. rewrite Hnth in Hc |- *.
    destruct (same_cell (nth i (Agent.target_positions (state_at t))
                             (0, 0)%Z) here) eqn:E.
    + apply same_cell_spec in E. split; [congruence | exact Hfresh].
    + exfalso. apply Hc. reflexivity.
  - destruct (Hmiss Hh) as (Ht' & _). rewrite Ht' in Hc.
    exfalso. apply Hc. reflexivity.
Qed.

Lemma recorded_one_change : one_change_per_step tpl al = true.
Proof.
  destruct recorded_lengths as (_ & _ & Hl).
  apply one_change_increasing. rewrite Hl.
  intros t i j Ht Hi Hj Hci Hcj.
  destruct (recorded_change t i Ht Hi Hci) as [Hai _].
  destruct (recorded_change t j Ht Hj Hcj) as [Haj _].
  destruct (state_at_good t ltac:(lia)) as [(_ & Hlen & _ & Hnd & _) _].
  rewrite Hai in Haj. rewrite !recorded_target in Haj.
  apply (proj1 (NoDup_nth (Agent.target_positions (state_at t))
                          (0, 0)%Z) Hnd) in Haj; lia.
Qed.

End RecordedRun.

(* ------------------------------------------------------------------------- *)
(** ** What the simulation guarantees *)

Lemma north_draws_in_grid : draws_in_grid 10 north_draws.
Proof.
  intros p Hp. unfold north_draws in Hp. cbn [In] in Hp.
  repeat (destruct Hp as [<-|Hp]; [reflexivity|]). destruct Hp.
Qed.

Lemma north_start_good : good_state north_start.
Proof.
  unfold good_state, north_start. cbn.
  split; [reflexivity|]. split; [reflexivity|]. split; [|split].
  - intros p Hp. repeat (destruct Hp as [<-|Hp]; [reflexivity|]). destruct Hp.
  - repeat constructor; cbn [In]; intuition discriminate.
  - intuition discriminate.
Qed.

Lemma north_second_good : good_state north_second.
Proof.
  unfold good_state, north_second. cbn.
  split; [reflexivity|]. split; [reflexivity|]. split; [|split].
  - intros p Hp. repeat (destruct Hp as [<-|Hp]; [reflexivity|]). destruct Hp.
  - repeat constructor; cbn [In]; intuition discriminate.
  - intuition discriminate.
Qed.

(** X18.  [Agent.__init__] leaves the simulation in a good state: with
    draws inside the grid, the agent is inside the grid, there are three
    targets inside the grid on three different cells, the agent is on none
    of them, and nothing is collected yet. *)
Theorem init_good (grid : Z) (draws rest : list position) (st : Agent.State) :
  draws_in_grid grid draws ->
  Agent.init grid draws = Some (st, rest) ->
  good_state st
  /\ Agent.grid_size st = grid
  /\ Agent.total_collected st = 0.
Proof.
  intros Hd H. destruct (init_spec _ _ _ _ Hd H) as (H1 & H2 & H3 & _).
  split; [exact H1|]. split; [exact H2 | exact H3].
Qed.

Lemma init_good_witness :
  good_state north_start
  /\ Agent.grid_size north_start = 10%Z
  /\ Agent.total_collected north_start = 0.
Proof.
  apply (init_good 10 north_draws [(9, 9)]%Z north_start).
  - exact north_draws_in_grid.
  - reflexivity.
Defined.

(** X19.  [move] keeps the simulation in a good state and never takes the
    agent off the grid: from a good state and with draws inside the grid,
    the agent ends on the cell the action leads to (one cell north, east,
    south or west for 0, 1, 2, 3) if that cell is inside the grid and stays
    where it is otherwise, and the new state is good again. *)
Theorem move_keeps_good (a : Z) (st st' : Agent.State)
    (draws draws' : list position) :
  good_state st ->
  draws_in_grid (Agent.grid_size st) draws ->
  Agent.move a st draws = Some (st', draws') ->
  good_state st'
  /\ Agent.grid_size st' = Agent.grid_size st
  /\ Agent.agent_position st'
     = if outside (Agent.grid_size st)
                  (Agent.displaced a (Agent.agent_position st))
       then Agent.agent_position st
       else Agent.displaced a (Agent.agent_position st).
Proof.
  intros Hgood Hd Hm.
  split; [exact (move_good _ _ _ _ _ Hgood Hd Hm)|].
  destruct (move_spec _ _ _ _ _ Hgood Hd Hm) as (Hg & Ha & _).
  split; [exact Hg|]. rewrite displaced_moved_by. exact Ha.
Qed.

Lemma move_keeps_good_witness :
  good_state north_second
  /\ Agent.grid_size north_second = Agent.grid_size north_start
  /\ Agent.agent_position north_second
     = if outside (Agent.grid_size north_start)
                  (Agent.displaced 0 (Agent.agent_position north_start))
       then Agent.agent_position north_start
       else Agent.displaced 0 (Agent.agent_position north_start).
Proof.
  apply (move_keeps_good 0 north_start north_second [(9, 9)]%Z [(9, 9)]%Z).
  - exact north_start_good.
  - intros p [<-|[]]. reflexivity.
  - reflexivity.
Defined.

(** X20.  What [move] collects, from a good state with draws inside the
    grid.  If the agent ends on the cell of a target, that target (and no
    other) is put on the first drawn cell that holds no target, the count
    of collected targets grows by one and [previously_collected] is the
    cell the agent stands on.  If it ends on a free cell, the targets and
    the count are unchanged and no draw is used. *)
Theorem move_collects (a : Z) (st st' : Agent.State)
    (draws draws' : list position) :
  good_state st ->
  draws_in_grid (Agent.grid_size st) draws ->
  Agent.move a st draws = Some (st', draws') ->
  let here := Agent.agent_position st' in
  (In here (Agent.target_positions st) ->
   exists fresh,
     Agent.random_state draws (Agent.target_positions st)
     = Some (fresh, draws')
     /\ ~ In fresh (Agent.target_positions st)
     /\ Agent.target_positions st'
        = map (fun target => if same_cell target here then fresh else target)
              (Agent.target_positions st)
     /\ Agent.total_collected st' = Agent.total_collected st + 1
     /\ Agent.previously_collected st' = Some here)
  /\ (~ In here (Agent.target_positions st) ->
      Agent.target_positions st' = Agent.target_positions st
      /\ Agent.total_collected st' = Agent.total_collected st
      /\ Agent.previously_collected st' = None
      /\ draws' = draws).
Proof.
  intros Hgood Hd Hm here.
  destruct (move_spec _ _ _ _ _ Hgood Hd Hm) as (_ & Ha & _ & Hhit & Hmiss).
  cbv zeta in Ha, Hhit, Hmiss. unfold here. rewrite Ha. split.
  - intros Hin. destruct (Hhit Hin) as (fresh & H1 & _ & H2 & H3 & H4 & H5).
    exists fresh. repeat split; assumption.
  - exact Hmiss.
Qed.

Lemma move_collects_witness :
  let here := Agent.agent_position north_third in
  (In here (Agent.target_positions north_second) ->
   exists fresh,
     Agent.random_state [(9, 9)]%Z (Agent.target_positions north_second)
     = Some (fresh, [])
     /\ ~ In fresh (Agent.target_positions north_second)
     /\ Agent.target_positions north_third
        = map (fun target => if same_cell target here then fresh else target)
              (Agent.target_positions north_second)
     /\ Agent.total_collected north_third
        = Agent.total_collected north_second + 1
     /\ Agent.previously_collected north_third = Some here)
  /\ (~ In here (Agent.target_positions north_second) ->
      Agent.target_positions north_third
      = Agent.target_positions north_second
      /\ Agent.total_collected north_third
         = Agent.total_collected north_second
      /\ Agent.previously_collected north_third = None
      /\ @nil position = [(9, 9)]%Z).
Proof.
  apply (move_collects 0 north_second north_third [(9, 9)]%Z []).
  - exact north_second_good.
  - intros p [<-|[]]. reflexivity.
  - reflexivity.
Defined.

Lemma append_empty_recording (r : Recording) :
  append_recording empty_recording r = r.
Proof. destruct r. reflexivity. Qed.

Lemma main_recording (get_action : list Z -> Z) (num_collect : Z)
    (passes : nat) (draws rest : list position) (final : Agent.State)
    (rec : Recording) :
  draws_in_grid 10 draws ->
  main get_action num_collect passes draws = Some (final, rest, rec) ->
  exists start visited,
    good_state start
    /\ Agent.grid_size start = 10%Z
    /\ path get_action start visited final
    /\ rec = record_of get_action visited.
Proof.
  intros Hd H. unfold main in H.
  destruct (Agent.init 10 draws) as [[start draws1]|] eqn:Ei; [|discriminate].
  cbn [Agent.option_bind] in H.
  destruct (init_spec _ _ _ _ Hd Ei) as (Hgood & Hgrid & _ & Hd1).
  rewrite <- Hgrid in Hd1.
  destruct (main_loop_path _ _ _ _ _ _ _ _ _ Hgood Hd1 H)
    as (visited & Hpath & ->).
  exists start, visited.
  split; [exact Hgood|]. split; [exact Hgrid|]. split; [exact Hpath|].
  apply append_empty_recording.
Qed.

(** X21.  What [main.py] records is always a well-shaped run, and
    [check_run] (on the grid of size 10 both use) returns [sat] on it
    exactly when no recorded move but the last was stopped by the border of
    the grid; it returns [unsat] exactly when one was. *)
Theorem recording_checked (get_action : list Z -> Z) (num_collect : Z)
    (passes : nat) (draws rest : list position) (final : Agent.State)
    (rec : Recording) :
  draws_in_grid 10 draws ->
  main get_action num_collect passes draws = Some (final, rest, rec) ->
  let apl := agent_position_record rec in
  let tpl := target_position_record rec in
  let al := action_record rec in
  well_shaped apl tpl al = true
  /\ (returns (check_run apl tpl al 10) sat
      <-> forall t, t + 1 < length al -> blocked 10 rec t = false)
  /\ (returns (check_run apl tpl al 10) unsat
      <-> exists t, t + 1 < length al /\ blocked 10 rec t = true).
Proof.
  intros Hd H apl tpl al.
  destruct (main_recording _ _ _ _ _ _ _ Hd H)
    as (start & visited & Hgood & Hgrid & Hpath & ->).
  pose proof (recorded_well_shaped _ _ _ _ Hgood Hpath) as Hshape.
  pose proof (recorded_valid_run _ _ _ _ Hgood Hpath) as Hvalid.
  destruct (recorded_lengths get_action visited) as (_ & _ & Hl).
  rewrite Hgrid in Hvalid. fold apl tpl al in Hshape, Hvalid, Hl.
  rewrite <- Hl in Hvalid.
  destruct (check_run_decided _ _ _ 10 Hshape) as [Hsat Hunsat].
  split; [exact Hshape|]. split.
  - rewrite Hsat. exact Hvalid.
  - rewrite Hunsat. split.
    + intros Hf.
      destruct (forallb (fun t => negb (blocked 10
                           (record_of get_action visited) t))
                        (range (length al - 1))) eqn:E.
      * exfalso. rewrite forallb_forall in E.
        assert (Hv : valid_run apl tpl al 10 = true).
        { apply Hvalid. intros t Ht.
          specialize (E t (proj2 (in_range (length al - 1) t) ltac:(lia))).
          apply negb_true_iff in E. exact E. }
        congruence.
      * apply forallb_false_iff in E. destruct E as (t & Ht & Hb).
        apply in_range in Ht. apply negb_false_iff in Hb.
        exists t. split; [lia | exact Hb].
    + intros (t & Ht & Hb). apply not_true_is_false. intros Hv.
      rewrite (proj1 Hvalid Hv t Ht) in Hb. discriminate.
Qed.

Lemma recording_checked_witness :
  let apl := agent_position_record north_recording in
  let tpl := target_position_record north_recording in
  let al := action_record north_recording in
  well_shaped apl tpl al = true
  /\ (returns (check_run apl tpl al 10) sat
      <-> forall t, t + 1 < length al -> blocked 10 north_recording t = false)
  /\ (returns (check_run apl tpl al 10) unsat
      <-> exists t, t + 1 < length al /\ blocked 10 north_recording t = true).
Proof.
  apply (recording_checked always_north 30 3 north_draws [] north_final
                           north_recording).
  - exact north_draws_in_grid.
  - reflexivity.
Defined.

(** X22.  In what [main.py] records, a target changes position between two
    timesteps only when the agent arrives on the target's cell, and it then
    goes to a cell that held no target; so at most one target changes per
    step, and the arrival times of the change events increase strictly. *)
Theorem recording_changes (get_action : list Z -> Z) (num_collect : Z)
    (passes : nat) (draws rest : list position) (final : Agent.State)
    (rec : Recording) :
  draws_in_grid 10 draws ->
  main get_action num_collect passes draws = Some (final, rest, rec) ->
  let apl := agent_position_record rec in
  let tpl := target_position_record rec in
  let al := action_record rec in
  (forall t i, t + 1 < length al -> i < 3 ->
     changes tpl t i = true ->
     agent_at apl (t + 1) = target_at tpl t i
     /\ ~ In (target_at tpl (t + 1) i) (nth t tpl []))
  /\ one_change_per_step tpl al = true.
Proof.
  intros Hd H apl tpl al.
  destruct (main_recording _ _ _ _ _ _ _ Hd H)
    as (start & visited & Hgood & Hgrid & Hpath & ->).
  destruct (recorded_lengths get_action visited) as (_ & _ & Hl).
  fold al in Hl. split.
  - intros t i Ht Hi Hc. rewrite Hl in Ht.
    exact (recorded_change _ _ _ _ Hgood Hpath t i Ht Hi Hc).
  - exact (recorded_one_change _ _ _ _ Hgood Hpath).
Qed.

Lemma recording_changes_witness :
  let apl := agent_position_record north_recording in
  let tpl := target_position_record north_recording in
  let al := action_record north_recording in
  (forall t i, t + 1 < length al -> i < 3 ->
     changes tpl t i = true ->
     agent_at apl (t + 1) = target_at tpl t i
     /\ ~ In (target_at tpl (t + 1) i) (nth t tpl []))
  /\ one_change_per_step tpl al = true.
Proof.
  apply (recording_changes always_north 30 3 north_draws [] north_final
                           north_recording).
  - exact north_draws_in_grid.
  - reflexivity.
Defined.

Lemma main_loop_total (get_action : list Z -> Z) (num_collect : Z)
    (passes : nat) :
  forall st draws rec final rest rec',
    good_state st ->
    draws_in_grid (Agent.grid_size st) draws ->
    (Z.of_nat (Agent.total_collected st) <= Z.max 0 (num_collect + 1))%Z ->
    main_loop get_action num_collect passes st draws rec
    = Some (final, rest, rec') ->
    (Z.of_nat (Agent.total_collected final) <= Z.max 0 (num_collect + 1))%Z.
Proof.
  induction passes as [|passes IH]; intros st draws rec final rest rec'
    Hgood Hd Hle H.
  - injection H as <- <- <-. exact Hle.
  - cbn [main_loop] in H.
    destruct (Z.leb_spec (Z.of_nat (Agent.total_collected st)) num_collect)
      as [Hc|Hc].
    + destruct (Agent.move (get_action (Agent.get_state st)) st draws)
        as [[st1 draws1]|] eqn:Em; [|discriminate].
      cbn [Agent.option_bind] in H.
      destruct (move_spec _ _ _ _ _ Hgood Hd Em)
        as (Hg & _ & Hd1 & Hhit & Hmiss).
      cbv zeta in Hg, Hd1, Hhit, Hmiss. rewrite <- Hg in Hd1.
      apply (IH _ _ _ _ _ _ (move_good _ _ _ _ _ Hgood Hd Em) Hd1) in H;
        [exact H|].
      destruct (in_dec position_eq_dec
                  (landing (Agent.grid_size st)
                           (get_action (Agent.get_state st))
                           (Agent.agent_position st))
                  (Agent.target_positions st)) as [Hin|Hin].
      * destruct (Hhit Hin) as (fresh & _ & _ & _ & _ & Ht & _). lia.
      * destruct (Hmiss Hin) as (_ & Ht & _). lia.
    + injection H as <- <- <-. exact Hle.
Qed.

(** The loop runs one pass per recorded timestep, and stops before its
    passes are used up only when its condition fails. *)
Lemma main_loop_stops (get_action : list Z -> Z) (num_collect : Z)
    (passes : nat) :
  forall st draws rec final rest rec',
    main_loop get_action num_collect passes st draws rec
    = Some (final, rest, rec') ->
    length (action_record rec') <= length (action_record rec) + passes
    /\ (length (action_record rec') < length (action_record rec) + passes ->
        (num_collect < Z.of_nat (Agent.total_collected final))%Z).
Proof.
  induction passes as [|passes IH]; intros st draws rec final rest rec' H.
  - injection H as <- <- <-. lia.
  - cbn [main_loop] in H.
    destruct (Z.leb_spec (Z.of_nat (Agent.total_collected st)) num_collect)
      as [Hc|Hc].
    + destruct (Agent.move (get_action (Agent.get_state st)) st draws)
        as [[st1 draws1]|] eqn:Em; [|discriminate].
      cbn [Agent.option_bind] in H. apply IH in H.
      cbn [action_record] in H. rewrite length_app in H. cbn [length] in H.
      destruct H as [H1 H2]. split; [lia|]. intros Hlt. apply H2. lia.
    + injection H as <- <- <-. split; [lia|]. intros _. exact Hc.
Qed.

(** X23.  The loop of [main.py] runs while the count of collected targets
    is at most [num_collect], one pass per recorded timestep, and a move
    collects at most one target.  So the count never exceeds
    [num_collect + 1] (0 for a negative [num_collect]); the loop stops
    before its passes are used up only when the count is above
    [num_collect]; and with [num_collect >= 0] a loop that has stopped has
    collected exactly [num_collect + 1] targets. *)
Theorem collected_count (get_action : list Z -> Z) (num_collect : Z)
    (passes : nat) (draws rest : list position) (final : Agent.State)
    (rec : Recording) :
  draws_in_grid 10 draws ->
  main get_action num_collect passes draws = Some (final, rest, rec) ->
  (Z.of_nat (Agent.total_collected final) <= Z.max 0 (num_collect + 1))%Z
  /\ length (action_record rec) <= passes
  /\ (length (action_record rec) < passes ->
      (num_collect < Z.of_nat (Agent.total_collected final))%Z)
  /\ (length (action_record rec) < passes ->
      (0 <= num_collect)%Z ->
      Z.of_nat (Agent.total_collected final) = (num_collect + 1)%Z).
Proof.
  intros Hd H. unfold main in H.
  destruct (Agent.init 10 draws) as [[start draws1]|] eqn:Ei; [|discriminate].
  cbn [Agent.option_bind] in H.
  destruct (init_spec _ _ _ _ Hd Ei) as (Hgood & Hgrid & Htotal & Hd1).
  rewrite <- Hgrid in Hd1.
  pose proof (main_loop_total _ _ _ _ _ _ _ _ _ Hgood Hd1
                ltac:(rewrite Htotal; lia) H) as Hle.
  destruct (main_loop_stops _ _ _ _ _ _ _ _ _ H) as [Hlen Hstop].
  cbn [action_record length Nat.add] in Hlen, Hstop.
  split; [exact Hle|]. split; [exact Hlen|]. split; [exact Hstop|].
  intros Hlt Hn. specialize (Hstop Hlt). lia.
Qed.

Lemma collected_count_witness :
  length (action_record north_short_recording) < 5
  /\ Z.of_nat (Agent.total_collected north_third) = (0 + 1)%Z.
Proof.
  split; [cbn; lia|].
  refine (proj2 (proj2 (proj2
            (collected_count always_north 0 5 north_draws [] north_third
                             north_short_recording _ _))) _ _).
  - exact north_draws_in_grid.
  - reflexivity.
  - cbn. lia.
  - lia.
Defined.
